(** * HarborMaster: the sync orchestration engine

    A shallow embedding of the Go packages [types], [config], [lockfile],
    [downloader] and [manager], and the properties of the orchestration
    core proved over it.

    Conventions.
    - A Go [int]/[int64] is a [Z]; where the code increments one, the
      64-bit wrap-around is written out ([wrap64]).
    - A Go [string] is a [string] of bytes; [s[:n]] is [slice_to n s],
      which is undefined (a run-time panic) when [n] exceeds the length.
    - A Go [error] is a value of [error]; a nil error is [None].
    - A Go [map[string]V] is a [gmap string V].
    - Everything the code asks of the outside (the file system, the [git]
      binary, the HTTP server, the scheduler's choice in a non-blocking
      send) is answered by an explicit environment record; what the code
      does to the outside is returned as a list of [Effect]s. *)

From stdpp Require Import gmap strings list fin_maps pretty.
From Stdlib Require Import ZArith Lia.

Open Scope string_scope.
Open Scope Z_scope.
Open Scope list_scope.

(* ===================================================================== *)
(** ** Go runtime notions *)
(* ===================================================================== *)

(** Go error values.  [Errorf] is an error made of a message only,
    [Wrapf msg cause] is [fmt.Errorf(msg + ": %w", cause)],
    [AfterAttempts n cause] is
    [fmt.Errorf("download failed after %d attempts: %w", n, cause)], and
    [External] is an error produced by [os], [os/exec] or [net/http]. *)
#[local] Set Warnings "-register-all".
Inductive error : Type :=
  | Errorf (msg : string)
  | Wrapf (msg : string) (cause : option error)
  | AfterAttempts (n : Z) (cause : option error)
  | External (msg : string).
#[local] Set Warnings "register-all".

(** What a call does: it returns, it panics (a slice out of range), or it
    never returns (the fuel of a loop of the model ran out). *)
Inductive Outcome (A : Type) : Type :=
  | Returned (a : A)
  | Panicked
  | Diverged.
Arguments Returned {A} a.
Arguments Panicked {A}.
Arguments Diverged {A}.

Definition max_int64 : Z := 2 ^ 63 - 1.
Definition min_int64 : Z := - 2 ^ 63.

(** Two's-complement wrap-around of a 64-bit signed integer. *)
Definition wrap64 (z : Z) : Z := (z + 2 ^ 63) mod 2 ^ 64 - 2 ^ 63.

(** [s[:n]]: the first [n] bytes, or nothing (a panic) when [s] is
    shorter. *)
Definition slice_to (n : nat) (s : string) : option string :=
  if decide (n ≤ String.length s)%nat then Some (String.substring 0 n s) else None.

(** [path/filepath] of the Go standard library, for the separator [/].
    The loop of [filepath.Clean] reads the path element by element, the
    elements being the pieces between the separators; it is written
    here over the list of these elements. *)
Definition Separator : Ascii.ascii := Ascii.ascii_of_nat 47.

(** The pieces of [path] between the separators, after [current]. *)
Fixpoint pathElements (current path : string) : list string :=
  match path with
  | EmptyString => [current]
  | String c rest =>
      if Ascii.eqb c Separator then current :: pathElements "" rest
      else pathElements (current +:+ String c "") rest
  end.

(** One turn of the loop of [Clean]; [out] holds the elements written so
    far, the last one first.  An empty element and [.] are dropped; [..]
    removes the element before it when there is one that is not [..]
    itself, is dropped at the root, and is kept otherwise. *)
Definition cleanElement (rooted : bool) (out : list string) (e : string) : list string :=
  if String.eqb e "" then out
  else if String.eqb e "." then out
  else if String.eqb e ".." then
    match out with
    | top :: below =>
        if negb (String.eqb top "..") then below
        else if rooted then out else ".." :: out
    | [] => if rooted then [] else [".."]
    end
  else e :: out.

(** The elements with one separator between them. *)
Fixpoint joinElements (es : list string) : string :=
  match es with
  | [] => ""
  | [e] => e
  | e :: rest => e +:+ "/" +:+ joinElements rest
  end.

(** [filepath.Clean] *)
Definition filepath_Clean (path : string) : string :=
  if String.eqb path "" then "."
  else
    let rooted := String.prefix "/" path in
    let out := fold_left (cleanElement rooted) (pathElements "" path) [] in
    let body := joinElements (rev out) in
    if rooted then "/" +:+ body
    else if String.eqb body "" then "." else body.

(** [filepath.Join] of two elements: the path from the first element that
    is not empty on, cleaned; the empty string when both are empty. *)
Definition filepath_Join (a b : string) : string :=
  if negb (String.eqb a "") then filepath_Clean (a +:+ "/" +:+ b)
  else if negb (String.eqb b "") then filepath_Clean b
  else "".

(* ===================================================================== *)
(** ** package types *)
(* ===================================================================== *)

Module types.

Inductive ProgressPhase : Type :=
  | PhaseInit
  | PhaseConnecting
  | PhaseFetching
  | PhaseCheckout
  | PhaseComplete
  | PhaseFailed.

#[global] Instance ProgressPhase_eq_dec : EqDecision ProgressPhase.
Proof. solve_decision. Defined.

(** [ProgressUpdate]: the message a downloader pushes on its channel.
    Field names carry the prefix [upd] ([Phase], [Message] and [Error] are
    also fields of the other records). *)
Record ProgressUpdate : Type := mkProgressUpdate {
  updPhase : ProgressPhase;
  updBytesTotal : Z;
  updBytesDone : Z;
  updObjectsTotal : Z;
  updObjectsDone : Z;
  updMessage : string;
  updError : option error
}.

(** [ProgressMsg]: the message sent to the UI.  The wall-clock fields
    ([StartedAt], [CompletedAt]) and the floating-point [Percent] are left
    out. *)
Record ProgressMsg : Type := mkProgressMsg {
  msgRepoName : string;
  msgRepoURL : string;
  msgPhase : ProgressPhase;
  msgMessage : string;
  msgError : option error
}.

(** [ProgressUpdate.IsComplete] *)
Definition IsComplete (p : ProgressUpdate) : bool :=
  bool_decide (updPhase p = PhaseComplete) || bool_decide (updPhase p = PhaseFailed).

(** [OperationResult]; [Duration] (wall clock) is left out. *)
Record OperationResult : Type := mkOperationResult {
  RepoName : string;
  RepoURL : string;
  Success : bool;
  Error : option error;
  CommitSHA : string;
  Branch : string;
  Tag : string
}.

Record SyncResult : Type := mkSyncResult {
  TotalRepos : Z;
  SuccessCount : Z;
  FailureCount : Z;
  Results : list OperationResult
}.

(** The zero value [&types.SyncResult{}]. *)
Definition emptySyncResult : SyncResult :=
  {| TotalRepos := 0; SuccessCount := 0; FailureCount := 0; Results := [] |}.

(** The counting loop of [NewSyncResult]. *)
Fixpoint countResults (results : list OperationResult) (succ fail : Z) : Z * Z :=
  match results with
  | [] => (succ, fail)
  | r :: rest =>
      if Success r then countResults rest (succ + 1) fail
      else countResults rest succ (fail + 1)
  end.

Definition NewSyncResult (results : list OperationResult) : SyncResult :=
  let '(succ, fail) := countResults results 0 0 in
  {| TotalRepos := Z.of_nat (length results);
     SuccessCount := succ;
     FailureCount := fail;
     Results := results |}.

Definition HasFailures (sr : SyncResult) : bool := bool_decide (0 < FailureCount sr).

End types.

(* ===================================================================== *)
(** ** package config *)
(* ===================================================================== *)

Module config.

(** [RepositoryType] is a Go string type; [RepoTypeGit] and [RepoTypeHTTP]
    are its two declared constants, any other string is an unknown type. *)
Definition RepositoryType : Type := string.
Definition RepoTypeGit : RepositoryType := "git".
Definition RepoTypeHTTP : RepositoryType := "http".

Record Repository : Type := mkRepository {
  Name : string;
  URL : string;
  Type_ : RepositoryType;
  Path : string;
  Branch : string;
  Tag : string;
  Commit : string;
  Shallow : option bool;
  Depth : option Z;
  Submodules : option bool;
  Tags : list string
}.

Record Project : Type := mkProject {
  projName : string;
  projRepositories : list string
}.

Record GeneralConfig : Type := mkGeneralConfig {
  WorkDir : string;
  Timeout : Z;
  DefaultBranch : string;
  RecurseSubmodule : bool
}.

Record HTTPConfig : Type := mkHTTPConfig {
  UserAgent : string;
  RetryAttempts : Z;
  RetryDelay : Z
}.

Record GitConfig : Type := mkGitConfig {
  ShallowClone : bool;
  CloneDepth : Z
}.

Record Config : Type := mkConfig {
  General : GeneralConfig;
  HTTP : HTTPConfig;
  Git : GitConfig;
  Repositories : list Repository;
  Projects : list Project
}.

(** Priority: commit > tag > branch > default. *)
Definition GetEffectiveRef (r : Repository) (defaultBranch : string) : string :=
  if negb (String.eqb (Commit r) "") then Commit r
  else if negb (String.eqb (Tag r) "") then Tag r
  else if negb (String.eqb (Branch r) "") then Branch r
  else defaultBranch.

Definition GetEffectivePath (r : Repository) : string :=
  if negb (String.eqb (Path r) "") then Path r else Name r.

Definition IsShallow (r : Repository) (defaultShallow : bool) : bool :=
  match Shallow r with Some b => b | None => defaultShallow end.

Definition GetDepth (r : Repository) (defaultDepth : Z) : Z :=
  match Depth r with Some d => d | None => defaultDepth end.

Definition HasSubmodules (r : Repository) (defaultSubmodules : bool) : bool :=
  match Submodules r with Some b => b | None => defaultSubmodules end.

(** The first repository of the list with that name. *)
Fixpoint findRepository (repos : list Repository) (name : string) : option Repository :=
  match repos with
  | [] => None
  | r :: rest => if String.eqb (Name r) name then Some r else findRepository rest name
  end.

Definition GetRepository (c : Config) (name : string) : option Repository :=
  findRepository (Repositories c) name.

Fixpoint findProject (projs : list Project) (name : string) : option Project :=
  match projs with
  | [] => None
  | p :: rest => if String.eqb (projName p) name then Some p else findProject rest name
  end.

Definition GetProject (c : Config) (name : string) : option Project :=
  findProject (Projects c) name.

(** The loop of [GetRepositoriesForProject] over the project's names. *)
Fixpoint collectProjectRepos (c : Config) (projectName : string)
    (names : list string) (acc : list Repository) : list Repository + error :=
  match names with
  | [] => inl acc
  | repoName :: rest =>
      match GetRepository c repoName with
      | None =>
          inr (Errorf ("repository " +:+ repoName +:+ " not found in project " +:+ projectName))
      | Some repo => collectProjectRepos c projectName rest (acc ++ [repo])
      end
  end.

Definition GetRepositoriesForProject (c : Config) (projectName : string)
    : list Repository + error :=
  match GetProject c projectName with
  | None => inr (Errorf ("project not found: " +:+ projectName))
  | Some project => collectProjectRepos c projectName (projRepositories project) []
  end.

Definition hasTag (r : Repository) (tag : string) : bool :=
  existsb (fun t => String.eqb t tag) (Tags r).

Definition GetRepositoriesByTag (c : Config) (tag : string) : list Repository :=
  filter (fun r => hasTag r tag = true) (Repositories c).

End config.

(* ===================================================================== *)
(** ** package lockfile *)
(* ===================================================================== *)

Module lockfile.

(** [LockEntry]; [LastSyncedAt] is the reading of the clock, the
    submodule locks are left out (the orchestrator never fills them). *)
Record LockEntry : Type := mkLockEntry {
  URL : string;
  Type_ : string;
  RequestedRef : string;
  ResolvedSHA : string;
  LastSyncedAt : Z
}.

(** The [Entries] map of a [LockFile]. *)
Abbreviation LockFile := (gmap string LockEntry).

Definition New : LockFile := ∅.

Definition Update (lf : LockFile) (name : string) (entry : LockEntry) : LockFile :=
  <[name := entry]> lf.

Definition Get (lf : LockFile) (name : string) : option LockEntry := lf !! name.

Definition Remove (lf : LockFile) (name : string) : LockFile * bool :=
  match lf !! name with
  | Some _ => (delete name lf, true)
  | None => (lf, false)
  end.

Definition Has (lf : LockFile) (name : string) : bool :=
  match lf !! name with Some _ => true | None => false end.

Definition ShouldUpdate (lf : LockFile) (name requestedRef : string) : bool :=
  match lf !! name with
  | None => true
  | Some entry => negb (String.eqb (RequestedRef entry) requestedRef)
  end.

(** [GetResolvedSHA]: [("", false)] is [None]. *)
Definition GetResolvedSHA (lf : LockFile) (name : string) : option string :=
  match lf !! name with
  | None => None
  | Some entry => Some (ResolvedSHA entry)
  end.

Definition NewEntry (url repoType requestedRef resolvedSHA : string) (now : Z) : LockEntry :=
  {| URL := url;
     Type_ := repoType;
     RequestedRef := requestedRef;
     ResolvedSHA := resolvedSHA;
     LastSyncedAt := now |}.

End lockfile.

(* ===================================================================== *)
(** ** Effects *)
(* ===================================================================== *)

(** What the code does to the outside, in program order. *)
Inductive Effect : Type :=
  | EMkdirParent (destination : string)
      (** [os.MkdirAll(filepath.Dir(destination), 0755)] *)
  | EMkdirWorkDir (dir : string)
      (** [os.MkdirAll(workDir, 0755)] *)
  | EGit (dir : string) (args : list string)
      (** [exec.Command("git", args...)] run with [cmd.Dir = dir] *)
  | EHTTPGet (source destination : string)
      (** one GET of [source] streamed to [destination] *)
  | ESleep (d : Z)
      (** [time.Sleep(d)] *)
  | ESend (u : types.ProgressUpdate)
      (** a send on the progress channel that went through *)
  | EClose
      (** [close(progress)] *)
  | EUIStart
      (** [ui.NewProgressManager(...).Start()] *)
  | EUI (msg : types.ProgressMsg)
      (** [m.ui.SendProgress(msg)] *)
  | EUIComplete
      (** [m.ui.Complete(duration)] *)
  | ETask (name : string)
      (** a per-repository task starts: [syncRepository] is entered *)
  | ELockGet (name : string)
      (** a read of the Lock Store entry of [name] *)
  | ELockUpdate (name : string) (entry : lockfile.LockEntry)
      (** [lockFile.Update(name, entry)] *)
  | ELockSave (path : string)
      (** [lockFile.Save(path)] *).

Definition isLockEffect (e : Effect) : bool :=
  match e with
  | ELockGet _ | ELockUpdate _ _ | ELockSave _ => true
  | _ => false
  end.

Definition isTask (e : Effect) : bool :=
  match e with ETask _ => true | _ => false end.



(** The [git] commands of a trace, each with its directory. *)
Fixpoint gitCommands (tr : list Effect) : list (string * list string) :=
  match tr with
  | [] => []
  | EGit dir args :: rest => (dir, args) :: gitCommands rest
  | _ :: rest => gitCommands rest
  end.

(** The updates a consumer receives when it drains the channel: the sends
    that precede the first [close]. *)
Fixpoint drained (tr : list Effect) : list types.ProgressUpdate :=
  match tr with
  | [] => []
  | ESend u :: rest => u :: drained rest
  | EClose :: _ => []
  | _ :: rest => drained rest
  end.

Definition isLockWrite (e : Effect) : bool :=
  match e with
  | ELockUpdate _ _ | ELockSave _ => true
  | _ => false
  end.

(** The effects a producing goroutine may have before its last send: the
    transport's own actions and sends of non-terminal updates. *)
Definition quiet (e : Effect) : bool :=
  match e with
  | EMkdirParent _ | EGit _ _ | EHTTPGet _ _ | ESleep _ => true
  | ESend u => negb (types.IsComplete u)
  | _ => false
  end.



(** The body of a producing goroutine that ends with the send of a
    terminal update and is [quiet] before. *)
Definition endsWell (body : list Effect) : Prop :=
  ∃ pre last,
    body = pre ++ [ESend last] ∧
    Forall (fun e => quiet e = true) pre ∧
    types.IsComplete last = true.

(* ===================================================================== *)
(** ** package downloader *)
(* ===================================================================== *)

Module downloader.
Import types.

Record Options : Type := mkOptions {
  Branch : string;
  Tag : string;
  Commit : string;
  Depth : Z;
  Shallow : bool;
  Submodules : bool;
  UserAgent : string;
  RetryAttempts : Z;
  RetryDelay : Z;
  Timeout : Z
}.

(** What a [...WithProgress] method hands back as its channel: the nil
    channel, or a channel together with what the goroutine feeding it does
    ([None] when that goroutine never finishes). *)
Inductive Channel : Type :=
  | NilChan
  | Chan (producer : option (list Effect)).

(** A progress update with a phase and a message only. *)
Definition update (phase : ProgressPhase) (message : string) : ProgressUpdate :=
  {| updPhase := phase; updBytesTotal := 0; updBytesDone := 0;
     updObjectsTotal := 0; updObjectsDone := 0;
     updMessage := message; updError := None |}.

(** [types.ProgressUpdate{Phase: types.PhaseFailed, Error: err}] *)
Definition failure (err : error) : ProgressUpdate :=
  {| updPhase := PhaseFailed; updBytesTotal := 0; updBytesDone := 0;
     updObjectsTotal := 0; updObjectsDone := 0;
     updMessage := ""; updError := Some err |}.

(** [types.ProgressUpdate{Phase: types.PhaseFetching, BytesDone: done,
    BytesTotal: total, Message: message}] *)
Definition fetching (message : string) (done total : Z) : ProgressUpdate :=
  {| updPhase := PhaseFetching; updBytesTotal := total; updBytesDone := done;
     updObjectsTotal := 0; updObjectsDone := 0;
     updMessage := message; updError := None |}.

Definition nonEmpty (s : string) : bool := negb (String.eqb s "").

(* --------------------------------------------------------------------- *)
(** *** The version-control transport *)
(* --------------------------------------------------------------------- *)

(** One token of git's progress output as the scanner loop sees it: the
    text, the percentage [extractPercentage] reads in it (negative when
    there is none; the regular expression itself is not modelled), and
    whether the non-blocking send found room in the channel. *)
Record ProgressLine : Type := mkProgressLine {
  lineText : string;
  linePct : Z;
  lineRoom : bool
}.

(** The answers of the [git] binary and of [os/exec]. *)
Record GitEnv : Type := mkGitEnv {
  gitExit : string -> list string -> option error;
    (** exit status of [git args...] run in [dir] *)
  gitPipeErr : option error;        (** [cmd.StderrPipe()] *)
  gitStartErr : option error;       (** [cmd.Start()] *)
  gitProgress : list ProgressLine;  (** tokens scanned from stderr *)
  gitHead : string + error          (** trimmed output of [git rev-parse HEAD] *)
}.

Record GitDownloader : Type := mkGitDownloader {
  gitOptions : Options;
  gitSource : string
}.

Definition NewGitDownloader (opts : Options) : GitDownloader :=
  {| gitOptions := opts; gitSource := "" |}.

(** The arguments of the clone command; [progress] tells whether
    ["--progress"] is passed ([DownloadWithProgress]) or not ([Download]). *)
Definition cloneArgs (o : Options) (progress : bool) (source destination : string)
    : list string :=
  (if progress then ["clone"; "--progress"] else ["clone"]) ++
  (if Shallow o && (0 <? Depth o)%Z then ["--depth"; pretty (Depth o)] else []) ++
  (if nonEmpty (Branch o) && negb (nonEmpty (Tag o)) && negb (nonEmpty (Commit o))
   then ["--branch"; Branch o; "--single-branch"] else []) ++
  (if Submodules o then ["--recurse-submodules"] else []) ++
  [source; destination].

(** The reference [checkoutRef] checks out, if any. *)
Definition checkoutTarget (o : Options) : option string :=
  if nonEmpty (Commit o) then Some (Commit o)
  else if nonEmpty (Tag o) then Some (Tag o)
  else if nonEmpty (Branch o) then Some ("origin/" +:+ Branch o)
  else None.

Definition checkoutRef (g : GitDownloader) (destination : string) (env : GitEnv)
    : list Effect * option error :=
  match checkoutTarget (gitOptions g) with
  | None => ([], None)
  | Some ref =>
      let args := ["checkout"; "--force"; ref] in
      ([EGit destination args],
       match gitExit env destination args with
       | Some err => Some (Wrapf ("failed to checkout " +:+ ref) (Some err))
       | None => None
       end)
  end.

Definition getHeadSHA (destination : string) (env : GitEnv)
    : list Effect * (string + error) :=
  ([EGit destination ["rev-parse"; "HEAD"]],
   match gitHead env with
   | inr err => inr (Wrapf "failed to get HEAD SHA" (Some err))
   | inl sha => inl sha
   end).

(** [GitDownloader.Download] *)
Definition gitDownload (g : GitDownloader) (source destination : string) (env : GitEnv)
    : GitDownloader * list Effect * (string + error) :=
  let g := {| gitOptions := gitOptions g; gitSource := source |} in
  let args := cloneArgs (gitOptions g) false source destination in
  match gitExit env "" args with
  | Some err => (g, [EGit "" args], inr (Wrapf "failed to clone" (Some err)))
  | None =>
      let '(tr1, cerr) := checkoutRef g destination env in
      match cerr with
      | Some err => (g, EGit "" args :: tr1, inr err)
      | None =>
          let '(tr2, r) := getHeadSHA destination env in
          (g, EGit "" args :: tr1 ++ tr2, r)
      end
  end.

(** The scanner loop: one non-blocking send per non-empty token. *)
Fixpoint scanProgress (tokens : list ProgressLine) : list Effect :=
  match tokens with
  | [] => []
  | t :: rest =>
      if String.eqb (lineText t) "" then scanProgress rest
      else
        let u := if (0 <=? linePct t)%Z
                 then fetching (lineText t) (linePct t) 100
                 else fetching (lineText t) 0 0 in
        (if lineRoom t then [ESend u] else []) ++ scanProgress rest
  end.

(** The tail shared by the two goroutines: read HEAD and report. *)
Definition reportHead (destination : string) (env : GitEnv) : list Effect :=
  let '(tr, r) := getHeadSHA destination env in
  tr ++ match r with
        | inr err => [ESend (failure err)]
        | inl sha => [ESend (update PhaseComplete sha)]
        end.

(** The body of the goroutine of [GitDownloader.DownloadWithProgress],
    without the deferred [close]. *)
Definition gitDownloadBody (g : GitDownloader) (source destination : string)
    (env : GitEnv) : list Effect :=
  let args := cloneArgs (gitOptions g) true source destination in
  ESend (update PhaseConnecting "Connecting to remote...") ::
  ESend (update PhaseFetching "Cloning repository...") ::
  match gitPipeErr env with
  | Some err => [ESend (failure (Wrapf "failed to create pipe" (Some err)))]
  | None =>
  match gitStartErr env with
  | Some err => [ESend (failure (Wrapf "failed to start git" (Some err)))]
  | None =>
      EGit "" args :: scanProgress (gitProgress env) ++
      match gitExit env "" args with
      | Some err => [ESend (failure (Wrapf "clone failed" (Some err)))]
      | None =>
          if nonEmpty (Commit (gitOptions g)) || nonEmpty (Tag (gitOptions g)) then
            ESend (update PhaseCheckout "Checking out ref...") ::
            (let '(tr1, cerr) := checkoutRef g destination env in
             tr1 ++ match cerr with
                    | Some err => [ESend (failure err)]
                    | None => reportHead destination env
                    end)
          else reportHead destination env
      end
  end
  end.

(** [GitDownloader.DownloadWithProgress] *)
Definition gitDownloadWithProgress (g : GitDownloader) (source destination : string)
    (env : GitEnv) : GitDownloader * (string * Channel * option error) :=
  let g := {| gitOptions := gitOptions g; gitSource := source |} in
  (g, ("", Chan (Some (gitDownloadBody g source destination env ++ [EClose])), None)).

(** [GitDownloader.Update] *)
Definition gitUpdate (g : GitDownloader) (destination : string) (env : GitEnv)
    : GitDownloader * list Effect * (string + error) :=
  let args := ["fetch"; "--all"; "--force"] in
  match gitExit env destination args with
  | Some err => (g, [EGit destination args], inr (Wrapf "failed to fetch" (Some err)))
  | None =>
      let '(tr1, cerr) := checkoutRef g destination env in
      match cerr with
      | Some err => (g, EGit destination args :: tr1, inr err)
      | None =>
          let '(tr2, r) := getHeadSHA destination env in
          (g, EGit destination args :: tr1 ++ tr2, r)
      end
  end.

(** The body of the goroutine of [GitDownloader.UpdateWithProgress]. *)
Definition gitUpdateBody (g : GitDownloader) (destination : string) (env : GitEnv)
    : list Effect :=
  let args := ["fetch"; "--all"; "--force"; "--progress"] in
  ESend (update PhaseFetching "Fetching updates...") ::
  match gitPipeErr env with
  | Some err => [ESend (failure (Wrapf "failed to create pipe" (Some err)))]
  | None =>
  match gitStartErr env with
  | Some err => [ESend (failure (Wrapf "failed to start git" (Some err)))]
  | None =>
      EGit destination args :: scanProgress (gitProgress env) ++
      match gitExit env destination args with
      | Some err => [ESend (failure (Wrapf "fetch failed" (Some err)))]
      | None =>
          ESend (update PhaseCheckout "Checking out...") ::
          (let '(tr1, cerr) := checkoutRef g destination env in
           tr1 ++ match cerr with
                  | Some err => [ESend (failure err)]
                  | None => reportHead destination env
                  end)
      end
  end
  end.

(** [GitDownloader.UpdateWithProgress] *)
Definition gitUpdateWithProgress (g : GitDownloader) (destination : string)
    (env : GitEnv) : GitDownloader * (string * Channel * option error) :=
  (g, ("", Chan (Some (gitUpdateBody g destination env ++ [EClose])), None)).

(** [GitDownloader.GetCurrentRef] *)
Definition gitGetCurrentRef (destination : string) (env : GitEnv)
    : list Effect * (string + error) :=
  getHeadSHA destination env.

(* --------------------------------------------------------------------- *)
(** *** The plain-file transport *)
(* --------------------------------------------------------------------- *)

(** What one fetch attempt meets.  [FetchRefused]: the request could not
    be built or sent, or the status is not 200; nothing is written.
    [FetchStarted total chunks res]: status 200 with [Content-Length]
    [total]; [chunks] are the sizes of the blocks read and written before
    the attempt ends, each with whether the non-blocking send of its
    progress found room; [res] is the hex digest, or the error of
    creating, writing, reading or closing. *)
Inductive FetchOutcome : Type :=
  | FetchRefused (err : error)
  | FetchStarted (total : Z) (chunks : list (Z * bool)) (res : string + error).

(** The answers of the file system and of the HTTP server; [httpFetch k]
    is what the [k]-th attempt of one operation meets. *)
Record HTTPEnv : Type := mkHTTPEnv {
  httpMkdirErr : option error;
  httpFetch : nat -> FetchOutcome;
  httpHashFile : string + error
}.

Record HTTPDownloader : Type := mkHTTPDownloader {
  httpOptions : Options;
  httpSource : string
}.

Definition NewHTTPDownloader (opts : Options) : HTTPDownloader :=
  {| httpOptions := opts; httpSource := "" |}.

Definition downloadFile (source destination : string) (env : HTTPEnv) (call : nat)
    : list Effect * (string + error) :=
  ([EHTTPGet source destination],
   match httpFetch env call with
   | FetchRefused err => inr err
   | FetchStarted _ _ res => res
   end).

(** The read loop of [downloadFileWithProgress]: [done] bytes so far; a
    block of [n > 0] bytes is counted and, when the total is known,
    reported by a non-blocking send. *)
Fixpoint chunkProgress (total : Z) (chunks : list (Z * bool)) (done : Z) : list Effect :=
  match chunks with
  | [] => []
  | (n, room) :: rest =>
      if (0 <? n)%Z then
        let done := wrap64 (done + n) in
        (if (0 <? total)%Z && room then [ESend (fetching "" done total)] else []) ++
        chunkProgress total rest done
      else chunkProgress total rest done
  end.

Definition downloadFileWithProgress (source destination : string) (env : HTTPEnv)
    (call : nat) : list Effect * (string + error) :=
  match httpFetch env call with
  | FetchRefused err => ([EHTTPGet source destination], inr err)
  | FetchStarted total chunks res =>
      (EHTTPGet source destination ::
       ESend (update PhaseFetching "Downloading...") ::
       chunkProgress total chunks 0,
       res)
  end.

(** What the [k]-th attempt returns to the retry loop. *)
Definition attemptResult (env : HTTPEnv) (k : nat) : string + error :=
  (downloadFile "" "" env k).2.


(** The retry loop of [HTTPDownloader.Download], entered with the loop
    variable at [attempt], after [calls] attempts.  [None]: the fuel ran
    out before the loop ended. *)
Fixpoint downloadLoop (fuel : nat) (o : Options) (source destination : string)
    (env : HTTPEnv) (attempt : Z) (calls : nat) (lastErr : option error)
    : option (list Effect * (string + error)) :=
  match fuel with
  | O => None
  | S fuel' =>
      if (attempt <=? RetryAttempts o)%Z then
        let pre := if (0 <? attempt)%Z then [ESleep (RetryDelay o)] else [] in
        let '(tr, r) := downloadFile source destination env calls in
        match r with
        | inl hash => Some (pre ++ tr, inl hash)
        | inr err =>
            match downloadLoop fuel' o source destination env
                    (wrap64 (attempt + 1)) (S calls) (Some err) with
            | None => None
            | Some (tr', r') => Some (pre ++ tr ++ tr', r')
            end
        end
      else Some ([], inr (AfterAttempts (wrap64 (RetryAttempts o + 1)) lastErr))
  end.

(** [HTTPDownloader.Download] *)
Definition httpDownload (fuel : nat) (h : HTTPDownloader) (source destination : string)
    (env : HTTPEnv) : HTTPDownloader * option (list Effect * (string + error)) :=
  let h := {| httpOptions := httpOptions h; httpSource := source |} in
  match httpMkdirErr env with
  | Some err =>
      (h, Some ([EMkdirParent destination],
                inr (Wrapf "failed to create directory" (Some err))))
  | None =>
      (h, match downloadLoop fuel (httpOptions h) source destination env 0 0%nat None with
          | None => None
          | Some (tr, r) => Some (EMkdirParent destination :: tr, r)
          end)
  end.

(** The retry loop of the goroutine of [HTTPDownloader.DownloadWithProgress]. *)
Fixpoint progressLoop (fuel : nat) (o : Options) (source destination : string)
    (env : HTTPEnv) (attempt : Z) (calls : nat) (lastErr : option error)
    : option (list Effect) :=
  match fuel with
  | O => None
  | S fuel' =>
      if (attempt <=? RetryAttempts o)%Z then
        let pre :=
          if (0 <? attempt)%Z then
            [ESend (update PhaseConnecting
                      ("Retrying (" +:+ pretty attempt +:+ "/" +:+
                       pretty (RetryAttempts o) +:+ ")..."));
             ESleep (RetryDelay o)]
          else [] in
        let '(tr, r) := downloadFileWithProgress source destination env calls in
        match r with
        | inl hash => Some (pre ++ tr ++ [ESend (update PhaseComplete hash)])
        | inr err =>
            match progressLoop fuel' o source destination env
                    (wrap64 (attempt + 1)) (S calls) (Some err) with
            | None => None
            | Some tr' => Some (pre ++ tr ++ tr')
            end
        end
      else Some [ESend (failure (Wrapf "download failed" lastErr))]
  end.

(** The body of the goroutine of [HTTPDownloader.DownloadWithProgress],
    without the deferred [close]. *)
Definition httpDownloadBody (fuel : nat) (h : HTTPDownloader)
    (source destination : string) (env : HTTPEnv) : option (list Effect) :=
  match httpMkdirErr env with
  | Some err =>
      Some [ESend (update PhaseConnecting "Connecting...");
            EMkdirParent destination;
            ESend (failure (Wrapf "failed to create directory" (Some err)))]
  | None =>
      match progressLoop fuel (httpOptions h) source destination env 0 0%nat None with
      | None => None
      | Some tr =>
          Some (ESend (update PhaseConnecting "Connecting...") ::
                EMkdirParent destination :: tr)
      end
  end.

(** [HTTPDownloader.DownloadWithProgress] *)
Definition httpDownloadWithProgress (fuel : nat) (h : HTTPDownloader)
    (source destination : string) (env : HTTPEnv)
    : HTTPDownloader * (string * Channel * option error) :=
  let h := {| httpOptions := httpOptions h; httpSource := source |} in
  (h, ("",
       Chan (match httpDownloadBody fuel h source destination env with
             | None => None
             | Some tr => Some (tr ++ [EClose])
             end),
       None)).

(** [HTTPDownloader.Update] *)
Definition httpUpdate (fuel : nat) (h : HTTPDownloader) (destination : string)
    (env : HTTPEnv) : HTTPDownloader * option (list Effect * (string + error)) :=
  if String.eqb (httpSource h) "" then (h, Some ([], inr (Errorf "source URL not set")))
  else httpDownload fuel h (httpSource h) destination env.

(** [HTTPDownloader.UpdateWithProgress] *)
Definition httpUpdateWithProgress (fuel : nat) (h : HTTPDownloader)
    (destination : string) (env : HTTPEnv)
    : HTTPDownloader * (string * Channel * option error) :=
  if String.eqb (httpSource h) "" then (h, ("", NilChan, Some (Errorf "source URL not set")))
  else httpDownloadWithProgress fuel h (httpSource h) destination env.

(** [HTTPDownloader.GetCurrentRef], that is [hashFile]. *)
Definition httpGetCurrentRef (destination : string) (env : HTTPEnv)
    : list Effect * (string + error) :=
  ([], httpHashFile env).

(* --------------------------------------------------------------------- *)
(** *** The [Downloader] interface and its factory *)
(* --------------------------------------------------------------------- *)

(** The two implementations of the interface [Downloader]. *)
Inductive Downloader : Type :=
  | Git (g : GitDownloader)
  | Http (h : HTTPDownloader).

(** What one task finds outside: whether its destination exists
    ([Exists], an [os.Stat]), and the answers to either transport. *)
Record TaskEnv : Type := mkTaskEnv {
  envExists : bool;
  envGit : GitEnv;
  envHTTP : HTTPEnv
}.

Definition Type_ (dl : Downloader) : string :=
  match dl with Git _ => "git" | Http _ => "http" end.

Definition DownloadWithProgress (fuel : nat) (dl : Downloader)
    (source destination : string) (env : TaskEnv)
    : Downloader * (string * Channel * option error) :=
  match dl with
  | Git g =>
      let '(g', r) := gitDownloadWithProgress g source destination (envGit env) in
      (Git g', r)
  | Http h =>
      let '(h', r) := httpDownloadWithProgress fuel h source destination (envHTTP env) in
      (Http h', r)
  end.

Definition UpdateWithProgress (fuel : nat) (dl : Downloader) (destination : string)
    (env : TaskEnv) : Downloader * (string * Channel * option error) :=
  match dl with
  | Git g =>
      let '(g', r) := gitUpdateWithProgress g destination (envGit env) in (Git g', r)
  | Http h =>
      let '(h', r) := httpUpdateWithProgress fuel h destination (envHTTP env) in
      (Http h', r)
  end.

Definition GetCurrentRef (dl : Downloader) (destination : string) (env : TaskEnv)
    : list Effect * (string + error) :=
  match dl with
  | Git _ => gitGetCurrentRef destination (envGit env)
  | Http _ => httpGetCurrentRef destination (envHTTP env)
  end.

(** The four calls that hand out a progress stream. *)
Inductive StreamCall : Type :=
  | GitDownloadCall (g : GitDownloader) (source destination : string) (env : GitEnv)
  | GitUpdateCall (g : GitDownloader) (destination : string) (env : GitEnv)
  | HTTPDownloadCall (fuel : nat) (h : HTTPDownloader) (source destination : string)
      (env : HTTPEnv)
  | HTTPUpdateCall (fuel : nat) (h : HTTPDownloader) (destination : string)
      (env : HTTPEnv).

(** The channel a call returns. *)
Definition returnedChannel (c : StreamCall) : Channel :=
  match c with
  | GitDownloadCall g source destination env =>
      (gitDownloadWithProgress g source destination env).2.1.2
  | GitUpdateCall g destination env =>
      (gitUpdateWithProgress g destination env).2.1.2
  | HTTPDownloadCall fuel h source destination env =>
      (httpDownloadWithProgress fuel h source destination env).2.1.2
  | HTTPUpdateCall fuel h destination env =>
      (httpUpdateWithProgress fuel h destination env).2.1.2
  end.

(** What the goroutine behind the returned channel does, when it
    finishes. *)
Definition producedBy (c : StreamCall) : list Effect :=
  match returnedChannel c with
  | Chan (Some tr) => tr
  | _ => []
  end.




(** [New] *)
Definition New (repoType : config.RepositoryType) (opts : Options)
    : Downloader + error :=
  if String.eqb repoType config.RepoTypeGit then inl (Git (NewGitDownloader opts))
  else if String.eqb repoType config.RepoTypeHTTP then inl (Http (NewHTTPDownloader opts))
  else inr (Errorf ("unknown repository type: " +:+ repoType)).

(** [NewFromRepository] *)
Definition NewFromRepository (repo : config.Repository) (cfg : config.Config)
    : Downloader + error :=
  let opts :=
    {| Branch := config.Branch repo;
       Tag := config.Tag repo;
       Commit := config.Commit repo;
       Depth := config.GetDepth repo (config.CloneDepth (config.Git cfg));
       Shallow := config.IsShallow repo (config.ShallowClone (config.Git cfg));
       Submodules :=
         config.HasSubmodules repo (config.RecurseSubmodule (config.General cfg));
       UserAgent := config.UserAgent (config.HTTP cfg);
       RetryAttempts := config.RetryAttempts (config.HTTP cfg);
       RetryDelay := config.RetryDelay (config.HTTP cfg);
       Timeout := config.Timeout (config.General cfg) |} in
  New (config.Type_ repo) opts.

End downloader.

(* ===================================================================== *)
(** ** package ui: the message constructors *)
(* ===================================================================== *)

Module ui.
Import types.

Definition CreateProgressMsg (repoName repoURL : string) (phase : ProgressPhase)
    (message : string) : ProgressMsg :=
  {| msgRepoName := repoName; msgRepoURL := repoURL; msgPhase := phase;
     msgMessage := message; msgError := None |}.

(** The percentage, a [float64], is not part of the modelled message. *)
Definition CreateProgressMsgWithPercent (repoName repoURL : string)
    (phase : ProgressPhase) (message : string) : ProgressMsg :=
  {| msgRepoName := repoName; msgRepoURL := repoURL; msgPhase := phase;
     msgMessage := message; msgError := None |}.

Definition CreateCompletedMsg (repoName repoURL message : string) : ProgressMsg :=
  {| msgRepoName := repoName; msgRepoURL := repoURL; msgPhase := PhaseComplete;
     msgMessage := message; msgError := None |}.

Definition CreateErrorMsg (repoName repoURL : string) (err : error) : ProgressMsg :=
  {| msgRepoName := repoName; msgRepoURL := repoURL; msgPhase := PhaseFailed;
     msgMessage := ""; msgError := Some err |}.

End ui.

(* ===================================================================== *)
(** ** package manager *)
(* ===================================================================== *)

Module manager.
Import types.

(** [RepositoryManager].  [lockFile] is a pointer that may be nil; [ui]
    tells whether the [ui] pointer is non-nil, and [uiDone] is the one
    piece of the state of that [ui.ProgressManager] the manager depends
    on: whether its channel [done] has been closed, which is what
    [Complete] does at its end. *)
Record RepositoryManager : Type := mkRepositoryManager {
  config : config.Config;
  lockFile : option lockfile.LockFile;
  ui : bool;
  uiDone : bool;
  workDir : string;
  concurrent : Z;
  locked : bool;
  interactive : bool
}.

Definition ManagerOption : Type := RepositoryManager -> RepositoryManager.

Definition WithLockFile (lf : option lockfile.LockFile) : ManagerOption :=
  fun m => {| config := config m; lockFile := lf; ui := ui m; uiDone := uiDone m;
              workDir := workDir m; concurrent := concurrent m; locked := locked m;
              interactive := interactive m |}.

Definition WithConcurrency (n : Z) : ManagerOption :=
  fun m => if (0 <? n)%Z
           then {| config := config m; lockFile := lockFile m; ui := ui m; uiDone := uiDone m;
                   workDir := workDir m; concurrent := n; locked := locked m;
                   interactive := interactive m |}
           else m.

(** [WithUI]: the UI handed in is one that has not completed, as
    [ui.NewProgressManager] makes it. *)
Definition WithUI (present : bool) : ManagerOption :=
  fun m => {| config := config m; lockFile := lockFile m; ui := present;
              uiDone := false;
              workDir := workDir m; concurrent := concurrent m; locked := locked m;
              interactive := interactive m |}.

Definition WithLocked (l : bool) : ManagerOption :=
  fun m => {| config := config m; lockFile := lockFile m; ui := ui m; uiDone := uiDone m;
              workDir := workDir m; concurrent := concurrent m; locked := l;
              interactive := interactive m |}.

Definition WithInteractive (i : bool) : ManagerOption :=
  fun m => {| config := config m; lockFile := lockFile m; ui := ui m; uiDone := uiDone m;
              workDir := workDir m; concurrent := concurrent m; locked := locked m;
              interactive := i |}.

Definition NewRepositoryManager (cfg : config.Config) (opts : list ManagerOption)
    : RepositoryManager :=
  fold_left (fun m opt => opt m) opts
    {| config := cfg; lockFile := None; ui := false; uiDone := false;
       workDir := config.WorkDir (config.General cfg);
       concurrent := 4; locked := false; interactive := true |}.

(** [newSemaphore(n)]: the capacity of the buffered channel. *)
Definition newSemaphore (n : Z) : nat := Z.to_nat n.

Record Filter : Type := mkFilter {
  Names : list string;
  Projects : list string;
  Tags : list string;
  All : bool
}.

(** The three loops of [getRepositories] that fill [repoSet]. *)
Fixpoint addNames (cfg : config.Config) (names : list string)
    (repoSet : gmap string config.Repository) : gmap string config.Repository + error :=
  match names with
  | [] => inl repoSet
  | name :: rest =>
      match config.GetRepository cfg name with
      | None => inr (Errorf ("repository not found: " +:+ name))
      | Some repo => addNames cfg rest (<[name := repo]> repoSet)
      end
  end.

Definition addAll (repos : list config.Repository)
    (repoSet : gmap string config.Repository) : gmap string config.Repository :=
  fold_left (fun s repo => <[config.Name repo := repo]> s) repos repoSet.

Fixpoint addProjects (cfg : config.Config) (projects : list string)
    (repoSet : gmap string config.Repository) : gmap string config.Repository + error :=
  match projects with
  | [] => inl repoSet
  | projName :: rest =>
      match config.GetRepositoriesForProject cfg projName with
      | inr err => inr err
      | inl repos => addProjects cfg rest (addAll repos repoSet)
      end
  end.

Definition addTags (cfg : config.Config) (tags : list string)
    (repoSet : gmap string config.Repository) : gmap string config.Repository :=
  fold_left (fun s tag => addAll (config.GetRepositoriesByTag cfg tag) s) tags repoSet.

(** [getRepositories].  Go ranges over [repoSet] in an unspecified order:
    [mapOrder] is the order the run time picks for the entries. *)
Definition getRepositories
    (mapOrder : list (string * config.Repository) -> list (string * config.Repository))
    (m : RepositoryManager) (filter : Filter) : list config.Repository + error :=
  if All filter ||
     (bool_decide (length (Names filter) = 0%nat) &&
      bool_decide (length (Projects filter) = 0%nat) &&
      bool_decide (length (Tags filter) = 0%nat))
  then inl (config.Repositories (config m))
  else
    match addNames (config m) (Names filter) ∅ with
    | inr err => inr err
    | inl repoSet =>
        match addProjects (config m) (Projects filter) repoSet with
        | inr err => inr err
        | inl repoSet =>
            let repoSet := addTags (config m) (Tags filter) repoSet in
            inl ((mapOrder (map_to_list repoSet)).*2)
        end
    end.

Definition getRepoPath (m : RepositoryManager) (repo : config.Repository) : string :=
  filepath_Join (workDir m) (config.GetEffectivePath repo).

(** [m.ui.SendProgress(msg)] under [if m.ui != nil]. *)
Definition sendProgress (m : RepositoryManager) (msg : ProgressMsg) : list Effect :=
  if ui m then [EUI msg] else [].

(** [result.Error = err] (and the duration) before a [return result]. *)
Definition failed (result : OperationResult) (err : error) : OperationResult :=
  {| RepoName := RepoName result; RepoURL := RepoURL result; Success := Success result;
     Error := Some err; CommitSHA := CommitSHA result;
     Branch := Branch result; Tag := Tag result |}.

(** [result.Success = true; result.CommitSHA = sha] *)
Definition succeeded (result : OperationResult) (sha : string) : OperationResult :=
  {| RepoName := RepoName result; RepoURL := RepoURL result; Success := true;
     Error := Error result; CommitSHA := sha;
     Branch := Branch result; Tag := Tag result |}.

Definition noLockEntry : error :=
  Errorf "no lock entry for repository (run sync without --locked first)".

(** Lines 174-187 of [syncRepository]: the locked reference to aim at, the
    empty string when there is none to check. *)
Definition lockedTarget (m : RepositoryManager) (repo : config.Repository)
    : list Effect * (string + error) :=
  if locked m then
    match lockFile m with
    | Some lf =>
        ([ELockGet (config.Name repo)],
         match lockfile.GetResolvedSHA lf (config.Name repo) with
         | None => inr noLockEntry
         | Some sha => inl sha
         end)
    | None => ([], inl "")
    end
  else ([], inl "").

(** Lines 222-244: the loop over the progress channel, entered with [sha];
    [inr err] is the early return on an update that carries an error. *)
Fixpoint drainLoop (m : RepositoryManager) (repo : config.Repository)
    (updates : list ProgressUpdate) (sha : string) : list Effect * (string + error) :=
  match updates with
  | [] => ([], inl sha)
  | u :: rest =>
      let ev := sendProgress m
                  (ui.CreateProgressMsgWithPercent (config.Name repo) (config.URL repo)
                     (updPhase u) (updMessage u)) in
      match updError u with
      | Some err => (ev, inr err)
      | None =>
          let sha := if bool_decide (updPhase u = PhaseComplete) then updMessage u else sha in
          let '(tr, r) := drainLoop m repo rest sha in
          (ev ++ tr, r)
      end
  end.

(** Lines 189-257: the transport part of a task.  It yields the resolved
    reference, or the error the task returns with. *)
Definition resolve (fuel : nat) (m : RepositoryManager) (repo : config.Repository)
    (env : downloader.TaskEnv) : list Effect * Outcome (string + error) :=
  let repoPath := getRepoPath m repo in
  let errorMsg err := sendProgress m (ui.CreateErrorMsg (config.Name repo) (config.URL repo) err) in
  match downloader.NewFromRepository repo (config m) with
  | inr err =>
      let err := Wrapf "failed to create downloader" (Some err) in
      (errorMsg err, Returned (inr err))
  | inl dl =>
      let '(dl, (sha, progressCh, err)) :=
        if downloader.envExists env
        then downloader.UpdateWithProgress fuel dl repoPath env
        else downloader.DownloadWithProgress fuel dl (config.URL repo) repoPath env in
      match err with
      | Some err => (errorMsg err, Returned (inr err))
      | None =>
          match progressCh with
          | downloader.NilChan => ([], Diverged)
          | downloader.Chan None => ([], Diverged)
          | downloader.Chan (Some produced) =>
              let '(t1, d) := drainLoop m repo (drained produced) sha in
              match d with
              | inr err => (produced ++ t1, Returned (inr err))
              | inl sha =>
                  if String.eqb sha "" then
                    let '(t2, cur) := downloader.GetCurrentRef dl repoPath env in
                    match cur with
                    | inr err =>
                        let err := Wrapf "failed to get current ref" (Some err) in
                        (produced ++ t1 ++ t2 ++ errorMsg err, Returned (inr err))
                    | inl sha => (produced ++ t1 ++ t2, Returned (inl sha))
                    end
                  else (produced ++ t1, Returned (inl sha))
              end
          end
      end
  end.

(** Lines 259-281: the check against the locked reference and the final
    notification. *)
Definition conclude (m : RepositoryManager) (repo : config.Repository)
    (result : OperationResult) (targetSHA sha : string)
    : list Effect * Outcome OperationResult :=
  if locked m && negb (String.eqb targetSHA "") && negb (String.eqb sha targetSHA) then
    match slice_to 8 targetSHA, slice_to 8 sha with
    | Some t8, Some s8 =>
        let err := Errorf ("SHA mismatch: expected " +:+ t8 +:+ ", got " +:+ s8) in
        (sendProgress m (ui.CreateErrorMsg (config.Name repo) (config.URL repo) err),
         Returned (failed result err))
    | _, _ => ([], Panicked)
    end
  else
    let result := succeeded result sha in
    if ui m then
      match slice_to 8 sha with
      | Some s8 =>
          ([EUI (ui.CreateCompletedMsg (config.Name repo) (config.URL repo)
                   ("Synced at " +:+ s8))],
           Returned result)
      | None => ([], Panicked)
      end
    else ([], Returned result).

(** [syncRepository] *)
Definition syncRepository (fuel : nat) (m : RepositoryManager)
    (repo : config.Repository) (env : downloader.TaskEnv)
    : list Effect * Outcome OperationResult :=
  let result :=
    {| RepoName := config.Name repo; RepoURL := config.URL repo; Success := false;
       Error := None; CommitSHA := "";
       Branch := config.Branch repo; Tag := config.Tag repo |} in
  let t0 := ETask (config.Name repo) ::
            sendProgress m (ui.CreateProgressMsg (config.Name repo) (config.URL repo)
                              PhaseInit "Starting...") in
  let '(t1, target) := lockedTarget m repo in
  match target with
  | inr err =>
      (t0 ++ t1 ++
       sendProgress m (ui.CreateErrorMsg (config.Name repo) (config.URL repo) err),
       Returned (failed result err))
  | inl targetSHA =>
      let '(t2, resolved) := resolve fuel m repo env in
      match resolved with
      | Panicked => (t0 ++ t1 ++ t2, Panicked)
      | Diverged => (t0 ++ t1 ++ t2, Diverged)
      | Returned (inr err) => (t0 ++ t1 ++ t2, Returned (failed result err))
      | Returned (inl sha) =>
          let '(t3, out) := conclude m repo result targetSHA sha in
          (t0 ++ t1 ++ t2 ++ t3, out)
      end
  end.

(** A repository the catalog returns under its own name. *)
Definition listed (cfg : config.Config) (r : config.Repository) : Prop :=
  config.GetRepository cfg (config.Name r) = Some r.

(** Every entry of a [repoSet] sits under its own name and is listed. *)
Definition keyed (cfg : config.Config) (s : gmap string config.Repository) : Prop :=
  ∀ k v, s !! k = Some v -> config.Name v = k ∧ listed cfg v.


(** The loop of [updateLockFile] from the [i]-th result on; [clock i] is
    the reading of [time.Now()] in iteration [i]. *)
Fixpoint updateLoop (cfg : config.Config) (clock : nat -> Z) (i : nat)
    (results : list OperationResult) (lf : lockfile.LockFile)
    : list Effect * lockfile.LockFile :=
  match results with
  | [] => ([], lf)
  | result :: rest =>
      if negb (Success result) then updateLoop cfg clock (S i) rest lf
      else
        match config.GetRepository cfg (RepoName result) with
        | None => updateLoop cfg clock (S i) rest lf
        | Some repo =>
            let requestedRef :=
              config.GetEffectiveRef repo (config.DefaultBranch (config.General cfg)) in
            let entry :=
              lockfile.NewEntry (config.URL repo) (config.Type_ repo) requestedRef
                (CommitSHA result) (clock i) in
            let '(tr, lf') :=
              updateLoop cfg clock (S i) rest
                (lockfile.Update lf (RepoName result) entry) in
            (ELockUpdate (RepoName result) entry :: tr, lf')
        end
  end.

(** [updateLockFile]: the effects and the Lock Store afterwards. *)
Definition updateLockFile (m : RepositoryManager) (clock : nat -> Z)
    (results : list OperationResult) : list Effect * option lockfile.LockFile :=
  match lockFile m with
  | None => ([], None)
  | Some lf =>
      if locked m then ([], Some lf)
      else let '(tr, lf') := updateLoop (config m) clock 0 results lf in (tr, Some lf')
  end.

(** What one [Sync] call finds outside. *)
Record SyncEnv : Type := mkSyncEnv {
  envWorkDirErr : option error;    (** [os.MkdirAll(m.workDir, 0755)] *)
  envUIStartErr : option error;    (** [m.ui.Start()] *)
  envMapOrder : list (string * config.Repository) -> list (string * config.Repository);
  envTask : nat -> downloader.TaskEnv;  (** what the task of slot [i] finds *)
  envClock : nat -> Z
}.

(** The map iteration of the run time visits every entry once. *)
Definition fairOrder (env : SyncEnv) : Prop :=
  ∀ l, envMapOrder env l ≡ₚ l.

(** The tasks of [Sync], slot by slot from slot [idx] on.  The goroutines
    do not communicate and each writes its own slot only, so their
    effects are listed task after task. *)
Fixpoint runTasks (fuel : nat) (m : RepositoryManager) (repos : list config.Repository)
    (idx : nat) (env : SyncEnv) : list Effect * list (Outcome OperationResult) :=
  match repos with
  | [] => ([], [])
  | r :: rest =>
      let '(t, o) := syncRepository fuel m r (envTask env idx) in
      let '(ts, os) := runTasks fuel m rest (S idx) env in
      (t ++ ts, o :: os)
  end.

Definition isPanicked {A} (o : Outcome A) : bool :=
  match o with Panicked => true | _ => false end.

(** [wg.Wait()]: a panic in any goroutine ends the process; otherwise the
    wait ends when every task has returned. *)
Fixpoint collect {A} (outs : list (Outcome A)) : Outcome (list A) :=
  match outs with
  | [] => Returned []
  | o :: rest =>
      match o, collect rest with
      | Panicked, _ => Panicked
      | _, Panicked => Panicked
      | Diverged, _ => Diverged
      | _, Diverged => Diverged
      | Returned a, Returned l => Returned (a :: l)
      end
  end.

Definition setLockFile (m : RepositoryManager) (lf : option lockfile.LockFile)
    : RepositoryManager :=
  {| config := config m; lockFile := lf; ui := ui m; uiDone := uiDone m;
     workDir := workDir m; concurrent := concurrent m; locked := locked m;
     interactive := interactive m |}.

(** The UI of the manager after [close(pm.done)]. *)
Definition setUIDone (m : RepositoryManager) : RepositoryManager :=
  {| config := config m; lockFile := lockFile m; ui := ui m; uiDone := true;
     workDir := workDir m; concurrent := concurrent m; locked := locked m;
     interactive := interactive m |}.

(** Lines 42-68 of [Sync]: the tasks, the wait for them, the update of
    the Lock Store, [m.ui.Complete] and the report.  [Complete] ends with
    [close(pm.done)]: on a UI that has completed before, that is the
    close of a closed channel, a run-time panic, after the Lock Store was
    updated. *)
Definition syncAll (fuel : nat) (m : RepositoryManager) (repos : list config.Repository)
    (env : SyncEnv) : RepositoryManager * list Effect * Outcome (SyncResult + error) :=
  let '(t2, outs) := runTasks fuel m repos 0 env in
  match collect outs with
  | Panicked => (m, t2, Panicked)
  | Diverged => (m, t2, Diverged)
  | Returned results =>
      let '(t3, lf) := updateLockFile m (envClock env) results in
      if uiDone m then (setLockFile m lf, t2 ++ t3 ++ [EUIComplete], Panicked)
      else
        (setUIDone (setLockFile m lf), t2 ++ t3 ++ [EUIComplete],
         Returned (inl (NewSyncResult results)))
  end.

(** [Sync]: the manager afterwards (its Lock Store and UI are shared,
    mutable objects), the effects, and what the call returns. *)
Definition Sync (fuel : nat) (m : RepositoryManager) (filter : Filter) (env : SyncEnv)
    : RepositoryManager * list Effect * Outcome (SyncResult + error) :=
  let t0 := [EMkdirWorkDir (workDir m)] in
  match envWorkDirErr env with
  | Some err =>
      (m, t0, Returned (inr (Wrapf "failed to create work directory" (Some err))))
  | None =>
      match getRepositories (envMapOrder env) m filter with
      | inr err => (m, t0, Returned (inr err))
      | inl repos =>
          if bool_decide (length repos = 0%nat) then (m, t0, Returned (inl emptySyncResult))
          else if ui m then
            let '(m', t2, out) := syncAll fuel m repos env in (m', t0 ++ t2, out)
          else
            let m := WithUI true m in
            match envUIStartErr env with
            | Some err =>
                (m, t0 ++ [EUIStart],
                 Returned (inr (Wrapf "failed to start UI" (Some err))))
            | None =>
                let '(m', t2, out) := syncAll fuel m repos env in
                (m', t0 ++ [EUIStart] ++ t2, out)
            end
      end
  end.

End manager.

(* ===================================================================== *)
(** ** The goroutines of [Sync] as a transition system *)
(* ===================================================================== *)

Module scheduler.

(** The loop of [Sync] (operations.go, lines 42-60) spawns one goroutine
    per repository; each runs
    [defer wg.Done(); sem.acquire(); defer sem.release();
     results[idx] = m.syncRepository(&r)],
    and the caller then waits in [wg.Wait()].  [sem] is a buffered channel
    of capacity [m.concurrent]: [acquire] is a send, which blocks while the
    channel is full, and [release] is a receive.  A step of the system is
    one of these operations by one goroutine; any interleaving is a run.
    A task that panics runs the same deferred calls and then ends the
    process; runs are followed as long as tasks return.

    Where the goroutine of one repository stands.
    - [NotSpawned]: its [go] statement has not run yet;
    - [Queued]: spawned, at or blocked in [sem.acquire()];
    - [Running]: it holds a permit and is inside [syncRepository];
    - [Finished ok]: [syncRepository] is over with success flag [ok] and
      the slot is written; the deferred [sem.release()] is next;
    - [Released]: the permit is given back; the deferred [wg.Done()] is next;
    - [Done]: the goroutine is over. *)
Inductive TaskPC : Type :=
  | NotSpawned
  | Queued
  | Running
  | Finished (ok : bool)
  | Released
  | Done.

(** Where the caller of [Sync] stands: in the spawning loop about to
    handle slot [k], in [wg.Wait()], or past it. *)
Inductive MainPC : Type :=
  | Spawning (k : nat)
  | Joining
  | Past.

(** [sem]: how many values the buffered channel holds; [wg]: the counter
    of the wait group. *)
Record State : Type := mkState {
  sem : nat;
  wg : nat;
  tasks : list TaskPC;
  main : MainPC
}.

(** The state on entry of the spawning loop for [n] repositories. *)
Definition initial (n : nat) : State :=
  {| sem := 0; wg := 0; tasks := replicate n NotSpawned; main := Spawning 0 |}.

(** One step of one goroutine, with a semaphore of capacity [N]. *)
Inductive step (N : nat) : State -> State -> Prop :=
  | step_spawn s k :
      main s = Spawning k ->
      tasks s !! k = Some NotSpawned ->
      step N s {| sem := sem s; wg := S (wg s);
                  tasks := <[k := Queued]> (tasks s); main := Spawning (S k) |}
  | step_spawned s k :
      main s = Spawning k ->
      k = length (tasks s) ->
      step N s {| sem := sem s; wg := wg s; tasks := tasks s; main := Joining |}
  | step_acquire s i :
      tasks s !! i = Some Queued ->
      (sem s < N)%nat ->
      step N s {| sem := S (sem s); wg := wg s;
                  tasks := <[i := Running]> (tasks s); main := main s |}
  | step_finish s i ok :
      tasks s !! i = Some Running ->
      step N s {| sem := sem s; wg := wg s;
                  tasks := <[i := Finished ok]> (tasks s); main := main s |}
  | step_release s i ok c :
      tasks s !! i = Some (Finished ok) ->
      sem s = S c ->
      step N s {| sem := c; wg := wg s;
                  tasks := <[i := Released]> (tasks s); main := main s |}
  | step_done s i c :
      tasks s !! i = Some Released ->
      wg s = S c ->
      step N s {| sem := sem s; wg := c;
                  tasks := <[i := Done]> (tasks s); main := main s |}
  | step_join s :
      main s = Joining ->
      wg s = 0%nat ->
      step N s {| sem := sem s; wg := wg s; tasks := tasks s; main := Past |}.

(** The states a run can be in. *)
Inductive reachable (N n : nat) : State -> Prop :=
  | reach_init : reachable N n (initial n)
  | reach_step s s' : reachable N n s -> step N s s' -> reachable N n s'.

Definition isQueued (t : TaskPC) : bool := match t with Queued => true | _ => false end.
Definition isRunning (t : TaskPC) : bool := match t with Running => true | _ => false end.
Definition isFinished (t : TaskPC) : bool := match t with Finished _ => true | _ => false end.
Definition isReleased (t : TaskPC) : bool := match t with Released => true | _ => false end.
Definition isNotSpawned (t : TaskPC) : bool := match t with NotSpawned => true | _ => false end.

Fixpoint count (p : TaskPC -> bool) (l : list TaskPC) : nat :=
  match l with
  | [] => 0%nat
  | t :: rest => ((if p t then 1 else 0) + count p rest)%nat
  end.

(** The transport operations in flight: the tasks inside [syncRepository]. *)
Definition inFlight (s : State) : nat := count isRunning (tasks s).

(** The tasks that hold a permit. *)
Definition holders (s : State) : nat :=
  (count isRunning (tasks s) + count isFinished (tasks s))%nat.

(** What holds in every state of a run: the semaphore holds one value per
    task between its acquire and its release, never more than [N]; the
    wait group counts the goroutines spawned and not over; and the caller
    is where the tasks allow it to be. *)
Definition invariant (N : nat) (s : State) : Prop :=
  sem s = holders s ∧
  (sem s ≤ N)%nat ∧
  wg s = (count isQueued (tasks s) + count isRunning (tasks s) +
          count isFinished (tasks s) + count isReleased (tasks s))%nat ∧
  match main s with
  | Spawning k =>
      (k ≤ length (tasks s))%nat ∧
      count isNotSpawned (tasks s) = (length (tasks s) - k)%nat ∧
      ∀ i, (k ≤ i < length (tasks s))%nat -> tasks s !! i = Some NotSpawned
  | Joining => count isNotSpawned (tasks s) = 0%nat
  | Past => Forall (fun t => t = Done) (tasks s)
  end.

End scheduler.

(* ===================================================================== *)
(** ** Sample catalog and environments *)
(* ===================================================================== *)

Module sample.
Import types.

Definition alpha : config.Repository :=
  {| config.Name := "alpha"; config.URL := "https://example.com/alpha.git";
     config.Type_ := config.RepoTypeGit; config.Path := "";
     config.Branch := "main"; config.Tag := ""; config.Commit := "";
     config.Shallow := None; config.Depth := None; config.Submodules := None;
     config.Tags := ["backend"] |}.

Definition beta : config.Repository :=
  {| config.Name := "beta"; config.URL := "https://example.com/beta.git";
     config.Type_ := config.RepoTypeGit; config.Path := "";
     config.Branch := ""; config.Tag := "v1.2"; config.Commit := "";
     config.Shallow := None; config.Depth := None; config.Submodules := None;
     config.Tags := [] |}.

Definition blob : config.Repository :=
  {| config.Name := "blob"; config.URL := "https://example.com/blob.bin";
     config.Type_ := config.RepoTypeHTTP; config.Path := "";
     config.Branch := ""; config.Tag := ""; config.Commit := "";
     config.Shallow := None; config.Depth := None; config.Submodules := None;
     config.Tags := [] |}.

Definition cfg : config.Config :=
  {| config.General :=
       {| config.WorkDir := "/work"; config.Timeout := 600;
          config.DefaultBranch := "main"; config.RecurseSubmodule := true |};
     config.HTTP :=
       {| config.UserAgent := "Harbormaster/1.0"; config.RetryAttempts := 3;
          config.RetryDelay := 2 |};
     config.Git := {| config.ShallowClone := true; config.CloneDepth := 1 |};
     config.Repositories := [alpha; beta; blob];
     config.Projects := [] |}.

Definition emptyCfg : config.Config :=
  {| config.General := config.General cfg; config.HTTP := config.HTTP cfg;
     config.Git := config.Git cfg; config.Repositories := []; config.Projects := [] |}.

Definition shaA : string := "0123456789abcdef0123456789abcdef01234567".
Definition shaB : string := "89abcdef0123456789abcdef0123456789abcdef".
Definition digest : string :=
  "b5bb9d8014a0f9b1d61e21e796d78dccdf1352f23cd32812f4850b878ae4944c".

(** A [git] for which every command succeeds and HEAD is [sha]. *)
Definition gitOk (sha : string) : downloader.GitEnv :=
  {| downloader.gitExit := fun _ _ => None;
     downloader.gitPipeErr := None;
     downloader.gitStartErr := None;
     downloader.gitProgress :=
       [ {| downloader.lineText := "Receiving objects:  50% (1/2)";
            downloader.linePct := 50; downloader.lineRoom := true |} ];
     downloader.gitHead := inl sha |}.

(** A [git] for which [checkout] fails and every other command succeeds. *)
Definition gitNoCheckout (sha : string) : downloader.GitEnv :=
  {| downloader.gitExit := fun _ args =>
       match args with
       | "checkout" :: _ => Some (External "exit status 1")
       | _ => None
       end;
     downloader.gitPipeErr := None;
     downloader.gitStartErr := None;
     downloader.gitProgress := [];
     downloader.gitHead := inl sha |}.

(** A server that answers 500 to the first [n] attempts and then serves
    13 bytes in one block. *)
Definition httpAfter (n : nat) : downloader.HTTPEnv :=
  {| downloader.httpMkdirErr := None;
     downloader.httpFetch := fun k =>
       if (k <? n)%nat
       then downloader.FetchRefused (Errorf "HTTP 500: 500 Internal Server Error")
       else downloader.FetchStarted 13 [(13, true)] (inl digest);
     downloader.httpHashFile := inl digest |}.

(** A server that always answers 500. *)
Definition httpDown : downloader.HTTPEnv :=
  {| downloader.httpMkdirErr := None;
     downloader.httpFetch := fun _ =>
       downloader.FetchRefused (Errorf "HTTP 500: 500 Internal Server Error");
     downloader.httpHashFile := inr (External "no such file") |}.

(** The options of a downloader with three retries. *)
Definition opts : downloader.Options :=
  {| downloader.Branch := ""; downloader.Tag := ""; downloader.Commit := "";
     downloader.Depth := 1; downloader.Shallow := true; downloader.Submodules := false;
     downloader.UserAgent := "Harbormaster/1.0"; downloader.RetryAttempts := 3;
     downloader.RetryDelay := 2; downloader.Timeout := 600 |}.

(** The same with only a branch selected. *)
Definition branchOnly : downloader.Options :=
  {| downloader.Branch := "main"; downloader.Tag := ""; downloader.Commit := "";
     downloader.Depth := 1; downloader.Shallow := true; downloader.Submodules := false;
     downloader.UserAgent := "Harbormaster/1.0"; downloader.RetryAttempts := 3;
     downloader.RetryDelay := 2; downloader.Timeout := 600 |}.

(** Every task clones ([present = false]) or updates ([present = true]);
    git resolves to [sha]. *)
Definition taskEnv (present : bool) (sha : string) : downloader.TaskEnv :=
  {| downloader.envExists := present;
     downloader.envGit := gitOk sha;
     downloader.envHTTP := httpAfter 0 |}.

Definition syncEnv (present : bool) (sha : string) : manager.SyncEnv :=
  {| manager.envWorkDirErr := None;
     manager.envUIStartErr := None;
     manager.envMapOrder := fun l => l;
     manager.envTask := fun _ => taskEnv present sha;
     manager.envClock := fun i => 1000 + Z.of_nat i |}.

(** The task of slot 2 finds its destination in place, the others clone. *)
Definition mixedEnv (sha : string) : manager.SyncEnv :=
  {| manager.envWorkDirErr := None;
     manager.envUIStartErr := None;
     manager.envMapOrder := fun l => l;
     manager.envTask := fun i => taskEnv (i =? 2)%nat sha;
     manager.envClock := fun i => 1000 + Z.of_nat i |}.

Definition everything : manager.Filter :=
  {| manager.Names := []; manager.Projects := []; manager.Tags := [];
     manager.All := true |}.

Definition byNames (names : list string) : manager.Filter :=
  {| manager.Names := names; manager.Projects := []; manager.Tags := [];
     manager.All := false |}.

Definition byTag (tag : string) : manager.Filter :=
  {| manager.Names := []; manager.Projects := []; manager.Tags := [tag];
     manager.All := false |}.

(** A lock entry of [url] with resolved reference [sha]. *)
Definition entry (url sha : string) : lockfile.LockEntry :=
  lockfile.NewEntry url "git" "main" sha 0.

End sample.

(* ===================================================================== *)
(** ** package types, the rest of the report *)
(* ===================================================================== *)

Module report.
Import types.

(** [SyncResult.FailedResults] *)
Definition FailedResults (sr : SyncResult) : list OperationResult :=
  List.filter (fun r => negb (Success r)) (Results sr).

End report.

(* ===================================================================== *)
(** ** package lockfile, the rest of the store *)
(* ===================================================================== *)

Module lockstore.
Import lockfile.

(** [LockEntry.IsStale] *)
Definition IsStale (e : LockEntry) (requestedRef : string) : bool :=
  negb (String.eqb (RequestedRef e) requestedRef).

(** [LockFile.Len] *)
Definition Len (lf : LockFile) : Z := Z.of_nat (size lf).

(** [LockFile.Clear] *)
Definition Clear (lf : LockFile) : LockFile := ∅.

(** [LockFile.Names]; Go ranges over the map in an order of its choice,
    [mapOrder]. *)
Definition Names (mapOrder : list (string * LockEntry) -> list (string * LockEntry))
    (lf : LockFile) : list string :=
  (mapOrder (map_to_list lf)).*1.

End lockstore.

(* ===================================================================== *)
(** ** package config, changing the catalog and validating it *)
(* ===================================================================== *)

Module catalog.
Import config.

Definition setRepositories (c : Config) (repos : list Repository) : Config :=
  {| General := General c; HTTP := HTTP c; Git := Git c;
     Repositories := repos; Projects := Projects c |}.

Definition setProjects (c : Config) (projs : list Project) : Config :=
  {| General := General c; HTTP := HTTP c; Git := Git c;
     Repositories := Repositories c; Projects := projs |}.

(** [Config.AddRepository]: the configuration afterwards, or the error. *)
Definition AddRepository (c : Config) (repo : Repository) : Config + error :=
  match GetRepository c (Name repo) with
  | Some _ => inr (Errorf ("repository already exists: " +:+ Name repo))
  | None => inl (setRepositories c (Repositories c ++ [repo]))
  end.

(** The loop of [RemoveRepository]: the list without the first repository
    of that name, if there is one. *)
Fixpoint removeRepository (repos : list Repository) (name : string)
    : option (list Repository) :=
  match repos with
  | [] => None
  | repo :: rest =>
      if String.eqb (Name repo) name then Some rest
      else match removeRepository rest name with
           | Some rest' => Some (repo :: rest')
           | None => None
           end
  end.

(** [Config.RemoveRepository] *)
Definition RemoveRepository (c : Config) (name : string) : Config + error :=
  match removeRepository (Repositories c) name with
  | Some repos => inl (setRepositories c repos)
  | None => inr (Errorf ("repository not found: " +:+ name))
  end.

(** [Config.AddProject] *)
Definition AddProject (c : Config) (proj : Project) : Config + error :=
  match GetProject c (projName proj) with
  | Some _ => inr (Errorf ("project already exists: " +:+ projName proj))
  | None => inl (setProjects c (Projects c ++ [proj]))
  end.

Fixpoint removeProject (projs : list Project) (name : string) : option (list Project) :=
  match projs with
  | [] => None
  | proj :: rest =>
      if String.eqb (projName proj) name then Some rest
      else match removeProject rest name with
           | Some rest' => Some (proj :: rest')
           | None => None
           end
  end.

(** [Config.RemoveProject] *)
Definition RemoveProject (c : Config) (name : string) : Config + error :=
  match removeProject (Projects c) name with
  | Some projs => inl (setProjects c projs)
  | None => inr (Errorf ("project not found: " +:+ name))
  end.

(** [Project.HasRepository] *)
Definition HasRepository (p : Project) (name : string) : bool :=
  existsb (fun r => String.eqb r name) (projRepositories p).

(** The loop of [AddRepoToProject] over the projects. *)
Fixpoint addRepoToProject (projs : list Project) (projectName repoName : string)
    : list Project + error :=
  match projs with
  | [] => inr (Errorf ("project not found: " +:+ projectName))
  | proj :: rest =>
      if String.eqb (projName proj) projectName then
        if HasRepository proj repoName then
          inr (Errorf ("repository " +:+ repoName +:+ " already in project " +:+
                       projectName))
        else
          inl ({| projName := projName proj;
                  projRepositories := projRepositories proj ++ [repoName] |} :: rest)
      else match addRepoToProject rest projectName repoName with
           | inl rest' => inl (proj :: rest')
           | inr err => inr err
           end
  end.

(** [Config.AddRepoToProject] *)
Definition AddRepoToProject (c : Config) (projectName repoName : string)
    : Config + error :=
  match GetRepository c repoName with
  | None => inr (Errorf ("repository not found: " +:+ repoName))
  | Some _ =>
      match addRepoToProject (Projects c) projectName repoName with
      | inl projs => inl (setProjects c projs)
      | inr err => inr err
      end
  end.

(** The inner loop of [RemoveRepoFromProject]: the names without the
    first occurrence of [repoName]. *)
Fixpoint removeName (names : list string) (repoName : string) : option (list string) :=
  match names with
  | [] => None
  | r :: rest =>
      if String.eqb r repoName then Some rest
      else match removeName rest repoName with
           | Some rest' => Some (r :: rest')
           | None => None
           end
  end.

Fixpoint removeRepoFromProject (projs : list Project) (projectName repoName : string)
    : list Project + error :=
  match projs with
  | [] => inr (Errorf ("project not found: " +:+ projectName))
  | proj :: rest =>
      if String.eqb (projName proj) projectName then
        match removeName (projRepositories proj) repoName with
        | Some names =>
            inl ({| projName := projName proj; projRepositories := names |} :: rest)
        | None =>
            inr (Errorf ("repository " +:+ repoName +:+ " not in project " +:+
                         projectName))
        end
      else match removeRepoFromProject rest projectName repoName with
           | inl rest' => inl (proj :: rest')
           | inr err => inr err
           end
  end.

(** [Config.RemoveRepoFromProject] *)
Definition RemoveRepoFromProject (c : Config) (projectName repoName : string)
    : Config + error :=
  match removeRepoFromProject (Projects c) projectName repoName with
  | inl projs => inl (setProjects c projs)
  | inr err => inr err
  end.

(** [ValidationError] *)
Record ValidationError : Type := mkValidationError {
  Field : string;
  Message : string
}.

(** What [url.Parse] makes of a URL: the parts the validation looks at. *)
Record ParsedURL : Type := mkParsedURL {
  Scheme : string;
  Host : string;
  UPath : string
}.

Section Validation.

(** [url.Parse], of the Go standard library. *)
Variable urlParse : string -> ParsedURL + error.

(** [validateURL]: the message of the error, if any.  The message of a
    parse error is the library's and is kept abstract as ["invalid URL"]. *)
Definition validateURL (rawURL : string) : option string :=
  if String.prefix "git@" rawURL then None
  else
    match urlParse rawURL with
    | inr _ => Some "invalid URL"
    | inl u =>
        if String.eqb (Scheme u) "" then
          Some "URL must have a scheme (http, https, git, or file)"
        else if String.eqb (Scheme u) "file" then
          if String.eqb (UPath u) "" then Some "file:// URL must have a path" else None
        else if String.eqb (Host u) "" then Some "URL must have a host"
        else None
    end.

(** The reference selectors of a repository that are set. *)
Definition refCount (repo : Repository) : Z :=
  (if negb (String.eqb (Branch repo) "") then 1 else 0) +
  (if negb (String.eqb (Tag repo) "") then 1 else 0) +
  (if negb (String.eqb (Commit repo) "") then 1 else 0).

Definition validateRepository (repo : Repository) (index : nat)
    : option ValidationError :=
  let prefix := "repository[" +:+ pretty index +:+ "]" in
  if String.eqb (Name repo) "" then
    Some {| Field := prefix +:+ ".name"; Message := "name is required" |}
  else if String.eqb (URL repo) "" then
    Some {| Field := prefix +:+ ".url"; Message := "url is required" |}
  else
    match validateURL (URL repo) with
    | Some msg => Some {| Field := prefix +:+ ".url"; Message := msg |}
    | None =>
        if String.eqb (Type_ repo) "" then
          Some {| Field := prefix +:+ ".type"; Message := "type is required" |}
        else if negb (String.eqb (Type_ repo) RepoTypeGit) &&
                negb (String.eqb (Type_ repo) RepoTypeHTTP) then
          Some {| Field := prefix +:+ ".type";
                  Message := "invalid type: " +:+ Type_ repo +:+
                             " (must be 'git' or 'http')" |}
        else if (1 <? refCount repo)%Z then
          Some {| Field := prefix;
                  Message := "only one of branch, tag, or commit can be specified" |}
        else None
    end.

(** The loop of [validateProject] over the names the project lists. *)
Fixpoint validateProjectRepos (prefix : string) (names : list string) (i : nat)
    (repoNames : gset string) : option ValidationError :=
  match names with
  | [] => None
  | repoName :: rest =>
      if bool_decide (repoName ∈ repoNames)
      then validateProjectRepos prefix rest (S i) repoNames
      else Some {| Field := prefix +:+ ".repositories[" +:+ pretty i +:+ "]";
                   Message := "unknown repository: " +:+ repoName |}
  end.

Definition validateProject (proj : Project) (index : nat) (repoNames : gset string)
    : option ValidationError :=
  let prefix := "project[" +:+ pretty index +:+ "]" in
  if String.eqb (projName proj) "" then
    Some {| Field := prefix +:+ ".name"; Message := "name is required" |}
  else validateProjectRepos prefix (projRepositories proj) 0 repoNames.

(** The first loop of [ValidateConfig], from index [i] with the names
    seen so far: the names of the whole catalog, or the error. *)
Fixpoint validateRepositories (repos : list Repository) (i : nat)
    (repoNames : gset string) : gset string + ValidationError :=
  match repos with
  | [] => inl repoNames
  | repo :: rest =>
      match validateRepository repo i with
      | Some err => inr err
      | None =>
          if bool_decide (Name repo ∈ repoNames) then
            inr {| Field := "repository[" +:+ pretty i +:+ "].name";
                   Message := "duplicate repository name: " +:+ Name repo |}
          else validateRepositories rest (S i) ({[Name repo]} ∪ repoNames)
      end
  end.

(** The second loop of [ValidateConfig]. *)
Fixpoint validateProjects (projs : list Project) (i : nat)
    (repoNames projectNames : gset string) : option ValidationError :=
  match projs with
  | [] => None
  | proj :: rest =>
      match validateProject proj i repoNames with
      | Some err => Some err
      | None =>
          if bool_decide (projName proj ∈ projectNames) then
            Some {| Field := "project[" +:+ pretty i +:+ "].name";
                    Message := "duplicate project name: " +:+ projName proj |}
          else validateProjects rest (S i) repoNames ({[projName proj]} ∪ projectNames)
      end
  end.

(** [ValidateConfig] *)
Definition ValidateConfig (cfg : Config) : option ValidationError :=
  match validateRepositories (Repositories cfg) 0 ∅ with
  | inr err => Some err
  | inl repoNames => validateProjects (Projects cfg) 0 repoNames ∅
  end.

(** What a repository must be like to pass. *)
Definition wellFormed (repo : Repository) : Prop :=
  Name repo ≠ "" ∧ URL repo ≠ "" ∧ validateURL (URL repo) = None ∧
  (Type_ repo = RepoTypeGit ∨ Type_ repo = RepoTypeHTTP) ∧
  refCount repo <= 1.

End Validation.

End catalog.

(* ===================================================================== *)
(** ** package downloader, the helpers around the transports *)
(* ===================================================================== *)

Module detect.
Import downloader.

(** [strings.HasPrefix] *)
Definition HasPrefix (s prefix : string) : bool := String.prefix prefix s.

(** [strings.HasSuffix]:
    [len(s) >= len(suffix) && s[len(s)-len(suffix):] == suffix] *)
Definition HasSuffix (s suffix : string) : bool :=
  bool_decide (String.length suffix ≤ String.length s)%nat &&
  String.eqb (String.substring (String.length s - String.length suffix)
                (String.length suffix) s) suffix.

(** [strings.Contains] *)
Fixpoint Contains (s substr : string) : bool :=
  String.prefix substr s ||
  match s with
  | EmptyString => false
  | String _ rest => Contains rest substr
  end.

(** [DetectType] *)
Definition DetectType (url : string) : config.RepositoryType :=
  if HasPrefix url "git@" || HasPrefix url "git://" || HasSuffix url ".git" ||
     Contains url "github.com" || Contains url "gitlab.com" ||
     Contains url "bitbucket.org"
  then config.RepoTypeGit
  else if HasPrefix url "http://" || HasPrefix url "https://" then config.RepoTypeHTTP
  else config.RepoTypeGit.

(** [Options.GetEffectiveRef] (commit > tag > branch) *)
Definition GetEffectiveRef (o : Options) : string :=
  if nonEmpty (Commit o) then Commit o
  else if nonEmpty (Tag o) then Tag o
  else Branch o.

Definition CR : Ascii.ascii := Ascii.ascii_of_nat 13.
Definition LF : Ascii.ascii := Ascii.ascii_of_nat 10.

Definition isLineEnd (c : Ascii.ascii) : bool := Ascii.eqb c CR || Ascii.eqb c LF.

(** [bytes.IndexAny(data, "\r\n")]: the index of the first carriage
    return or line feed. *)
Fixpoint indexLineEnd (data : string) : option nat :=
  match data with
  | EmptyString => None
  | String c rest =>
      if isLineEnd c then Some 0%nat
      else match indexLineEnd rest with
           | Some i => Some (S i)
           | None => None
           end
  end.

(** [scanGitProgress]: how far to advance and the token, [None] for the
    nil token (the error is always nil). *)
Definition scanGitProgress (data : string) (atEOF : bool) : nat * option string :=
  if atEOF && bool_decide (String.length data = 0%nat) then (0%nat, None)
  else
    match indexLineEnd data with
    | Some i => (S i, Some (String.substring 0 i data))
    | None => if atEOF then (String.length data, Some data) else (0%nat, None)
    end.

(** The bytes of [data] from index [n] on, [data[n:]]. *)
Fixpoint dropBytes (n : nat) (data : string) : string :=
  match n, data with
  | O, _ => data
  | S n', String _ rest => dropBytes n' rest
  | S _, EmptyString => EmptyString
  end.

(** A scanner that has the whole input in its buffer and is at its end:
    it applies [scanGitProgress] to what is left until no token comes. *)
Fixpoint scanAll (fuel : nat) (data : string) : list string :=
  match fuel with
  | O => []
  | S fuel' =>
      match scanGitProgress data true with
      | (advance, Some token) => token :: scanAll fuel' (dropBytes advance data)
      | (_, None) => []
      end
  end.

(** The lines of [data]: the pieces between line ends. *)
Fixpoint linesOf (current : string) (data : string) : list string :=
  match data with
  | EmptyString => if String.eqb current "" then [] else [current]
  | String c rest =>
      if isLineEnd c then current :: linesOf "" rest
      else linesOf (current +:+ String c "") rest
  end.

End detect.

(* ===================================================================== *)
(** ** package manager, the operations beside [Sync] *)
(* ===================================================================== *)

Module orchestrator.
Import types manager.

Definition setConfig (m : RepositoryManager) (cfg : config.Config) : RepositoryManager :=
  {| config := cfg; lockFile := lockFile m; ui := ui m; uiDone := uiDone m;
     workDir := workDir m; concurrent := concurrent m; locked := locked m;
     interactive := interactive m |}.

Definition setType (repo : config.Repository) (t : config.RepositoryType)
    : config.Repository :=
  {| config.Name := config.Name repo; config.URL := config.URL repo;
     config.Type_ := t; config.Path := config.Path repo;
     config.Branch := config.Branch repo; config.Tag := config.Tag repo;
     config.Commit := config.Commit repo; config.Shallow := config.Shallow repo;
     config.Depth := config.Depth repo; config.Submodules := config.Submodules repo;
     config.Tags := config.Tags repo |}.

Definition setPath (repo : config.Repository) (path : string) : config.Repository :=
  {| config.Name := config.Name repo; config.URL := config.URL repo;
     config.Type_ := config.Type_ repo; config.Path := path;
     config.Branch := config.Branch repo; config.Tag := config.Tag repo;
     config.Commit := config.Commit repo; config.Shallow := config.Shallow repo;
     config.Depth := config.Depth repo; config.Submodules := config.Submodules repo;
     config.Tags := config.Tags repo |}.

(** The repository [Add] stores: the type detected from the URL and the
    path set to the name where they were left empty. *)
Definition withDefaults (repo : config.Repository) : config.Repository :=
  let repo := if String.eqb (config.Type_ repo) ""
              then setType repo (detect.DetectType (config.URL repo)) else repo in
  if String.eqb (config.Path repo) "" then setPath repo (config.Name repo) else repo.

(** [RepositoryManager.Add] *)
Definition Add (m : RepositoryManager) (repo : config.Repository)
    : RepositoryManager * option error :=
  let repo := withDefaults repo in
  if String.eqb (config.Name repo) "" then (m, Some (Errorf "repository name is required"))
  else if String.eqb (config.URL repo) "" then
    (m, Some (Errorf "repository URL is required"))
  else
    match catalog.AddRepository (config m) repo with
    | inr err => (m, Some err)
    | inl cfg => (setConfig m cfg, None)
    end.

(** [RepositoryManager.Remove] *)
Definition Remove (m : RepositoryManager) (name : string)
    : RepositoryManager * option error :=
  match catalog.RemoveRepository (config m) name with
  | inr err => (m, Some err)
  | inl cfg =>
      let m := setConfig m cfg in
      match lockFile m with
      | Some lf => (setLockFile m (Some (lockfile.Remove lf name).1), None)
      | None => (m, None)
      end
  end.

(** The loop of [AddProject] over the names the project lists. *)
Fixpoint firstUnknown (cfg : config.Config) (names : list string) : option string :=
  match names with
  | [] => None
  | repoName :: rest =>
      match config.GetRepository cfg repoName with
      | None => Some repoName
      | Some _ => firstUnknown cfg rest
      end
  end.

(** [RepositoryManager.AddProject] *)
Definition AddProject (m : RepositoryManager) (proj : config.Project)
    : RepositoryManager * option error :=
  if String.eqb (config.projName proj) "" then
    (m, Some (Errorf "project name is required"))
  else
    match firstUnknown (config m) (config.projRepositories proj) with
    | Some repoName => (m, Some (Errorf ("repository not found: " +:+ repoName)))
    | None =>
        match catalog.AddProject (config m) proj with
        | inr err => (m, Some err)
        | inl cfg => (setConfig m cfg, None)
        end
    end.

(** [RepositoryManager.SyncOne]; the task finds [envTask env 0] and the
    clock of the update reads [envClock env 0]. *)
Definition SyncOne (fuel : nat) (m : RepositoryManager) (name : string) (env : SyncEnv)
    : RepositoryManager * list Effect * Outcome (OperationResult + error) :=
  match config.GetRepository (config m) name with
  | None => (m, [], Returned (inr (Errorf ("repository not found: " +:+ name))))
  | Some repo =>
      let t0 := [EMkdirWorkDir (workDir m)] in
      match envWorkDirErr env with
      | Some err =>
          (m, t0, Returned (inr (Wrapf "failed to create work directory" (Some err))))
      | None =>
          let '(t1, out) := syncRepository fuel m repo (envTask env 0) in
          match out with
          | Panicked => (m, t0 ++ t1, Panicked)
          | Diverged => (m, t0 ++ t1, Diverged)
          | Returned result =>
              if Success result && bool_decide (is_Some (lockFile m)) && negb (locked m)
              then
                let '(t2, lf) := updateLockFile m (envClock env) [result] in
                (setLockFile m lf, t0 ++ t1 ++ t2, Returned (inl result))
              else (m, t0 ++ t1, Returned (inl result))
          end
      end
  end.

(** [RepoStatus] *)
Record RepoStatus : Type := mkRepoStatus {
  stName : string;
  stPath : string;
  stExists : bool;
  stCurrentSHA : string;
  stLockedSHA : string;
  stRequestedRef : string;
  stBranch : string;
  stIsDirty : bool;
  stNeedsUpdate : bool;
  stError : option error
}.

(** What [getRepoStatus] finds at one path: what a task finds, and the
    trimmed outputs of [git rev-parse --abbrev-ref HEAD] and of
    [git status --porcelain]. *)
Record StatusEnv : Type := mkStatusEnv {
  senvTask : downloader.TaskEnv;
  senvAbbrevRef : string + error;
  senvPorcelain : string + error
}.

(** [GetCurrentBranch] *)
Definition GetCurrentBranch (env : StatusEnv) : string + error :=
  match senvAbbrevRef env with
  | inr err => inr (Wrapf "failed to get branch" (Some err))
  | inl branch => if String.eqb branch "HEAD" then inl "" else inl branch
  end.

(** [IsDirty] *)
Definition IsDirty (env : StatusEnv) : bool + error :=
  match senvPorcelain env with
  | inr err => inr (Wrapf "failed to get status" (Some err))
  | inl output => inl (bool_decide (0 < String.length output)%nat)
  end.

(** The switch of [getRepoStatus] on the repository type: the current
    reference, the error, the branch and the dirty flag.  (The call of
    [GetRemoteURL], whose result is dropped, is left out.) *)
Definition inspect (repo : config.Repository) (repoPath : string) (env : StatusEnv)
    : string * option error * string * bool :=
  if String.eqb (config.Type_ repo) config.RepoTypeGit then
    let '(sha, err) :=
      match (downloader.gitGetCurrentRef repoPath (downloader.envGit (senvTask env))).2 with
      | inl sha => (sha, None)
      | inr err => ("", Some err)
      end in
    let branch := match GetCurrentBranch env with inl b => b | inr _ => "" end in
    let dirty := match IsDirty env with inl d => d | inr _ => false end in
    (sha, err, branch, dirty)
  else if String.eqb (config.Type_ repo) config.RepoTypeHTTP then
    match (downloader.httpGetCurrentRef repoPath (downloader.envHTTP (senvTask env))).2 with
    | inl hash => (hash, None, "", false)
    | inr _ => ("", None, "", false)
    end
  else ("", None, "", false).

(** [getRepoStatus] *)
Definition getRepoStatus (m : RepositoryManager) (repo : config.Repository)
    (env : StatusEnv) : RepoStatus :=
  let requestedRef :=
    config.GetEffectiveRef repo (config.DefaultBranch (config.General (config m))) in
  if negb (downloader.envExists (senvTask env)) then
    {| stName := config.Name repo; stPath := getRepoPath m repo; stExists := false;
       stCurrentSHA := ""; stLockedSHA := ""; stRequestedRef := requestedRef;
       stBranch := ""; stIsDirty := false; stNeedsUpdate := true; stError := None |}
  else
    let '(sha, err, branch, dirty) := inspect repo (getRepoPath m repo) env in
    let '(lockedSHA, needsUpdate) :=
      match lockFile m with
      | None => ("", false)
      | Some lf =>
          match lockfile.Get lf (config.Name repo) with
          | Some entry =>
              (lockfile.ResolvedSHA entry,
               negb (String.eqb sha (lockfile.ResolvedSHA entry)))
          | None => ("", true)
          end
      end in
    {| stName := config.Name repo; stPath := getRepoPath m repo; stExists := true;
       stCurrentSHA := sha; stLockedSHA := lockedSHA; stRequestedRef := requestedRef;
       stBranch := branch; stIsDirty := dirty; stNeedsUpdate := needsUpdate;
       stError := err |}.

(** The loop of [Status], slot by slot. *)
Fixpoint statuses (m : RepositoryManager) (repos : list config.Repository) (idx : nat)
    (env : nat -> StatusEnv) : list RepoStatus :=
  match repos with
  | [] => []
  | repo :: rest => getRepoStatus m repo (env idx) :: statuses m rest (S idx) env
  end.

(** [RepositoryManager.Status] *)
Definition Status
    (mapOrder : list (string * config.Repository) -> list (string * config.Repository))
    (m : RepositoryManager) (filter : Filter) (env : nat -> StatusEnv)
    : list RepoStatus + error :=
  match getRepositories mapOrder m filter with
  | inr err => inr err
  | inl repos => inl (statuses m repos 0 env)
  end.

(** [getStatusString] of the status command: the plain label. *)
Definition getStatusString (s : RepoStatus) : string :=
  match stError s with
  | Some _ => "error"
  | None =>
      if negb (stExists s) then "missing"
      else if stIsDirty s then "dirty"
      else if stNeedsUpdate s then "outdated"
      else "ok"
  end.

End orchestrator.

(* ===================================================================== *)
(** ** Observations on a trace *)
(* ===================================================================== *)

Module protocol.

(** What a trace does beside the progress channel: its effects without
    the sends and the close. *)
Definition actions (tr : list Effect) : list Effect :=
  List.filter (fun e => match e with ESend _ | EClose => false | _ => true end) tr.

(** The update a consumer receives last when it drains the channel of a
    goroutine with the given body, which closes the channel at its end. *)
Definition terminal (body : list Effect) : option types.ProgressUpdate :=
  last (drained (body ++ [EClose])).

(** The options a downloader was made with, and the source it remembers. *)
Definition optionsOf (dl : downloader.Downloader) : downloader.Options :=
  match dl with
  | downloader.Git g => downloader.gitOptions g
  | downloader.Http h => downloader.httpOptions h
  end.

Definition sourceOf (dl : downloader.Downloader) : string :=
  match dl with
  | downloader.Git g => downloader.gitSource g
  | downloader.Http h => downloader.httpSource h
  end.

End protocol.

(* ===================================================================== *)
(** ** More sample data *)
(* ===================================================================== *)

Module sample2.

(** A [url.Parse] that reads every URL as [https://example.com/x]. *)
Definition parseHTTPS (rawURL : string) : catalog.ParsedURL + error :=
  inl {| catalog.Scheme := "https"; catalog.Host := "example.com";
         catalog.UPath := "/x" |}.

Definition backend : config.Project :=
  {| config.projName := "backend"; config.projRepositories := ["alpha"] |}.

(** The sample catalog with one project. *)
Definition cfgWithProject : config.Config :=
  catalog.setProjects sample.cfg [backend].

(** A status environment: the destination is there, HEAD is [sha] on
    branch [main], the work tree is clean. *)
Definition statusEnv (sha : string) : orchestrator.StatusEnv :=
  {| orchestrator.senvTask := sample.taskEnv true sha;
     orchestrator.senvAbbrevRef := inl "main";
     orchestrator.senvPorcelain := inl "" |}.

(** The options of a downloader with a negative retry count. *)
Definition noAttempts : downloader.Options :=
  {| downloader.Branch := ""; downloader.Tag := ""; downloader.Commit := "";
     downloader.Depth := 1; downloader.Shallow := true; downloader.Submodules := false;
     downloader.UserAgent := "Harbormaster/1.0"; downloader.RetryAttempts := -1;
     downloader.RetryDelay := 2; downloader.Timeout := 600 |}.

(** The options of a downloader pinned to a tag. *)
Definition tagged : downloader.Options :=
  {| downloader.Branch := ""; downloader.Tag := "v1.2"; downloader.Commit := "";
     downloader.Depth := 0; downloader.Shallow := false; downloader.Submodules := false;
     downloader.UserAgent := ""; downloader.RetryAttempts := 0;
     downloader.RetryDelay := 0; downloader.Timeout := 0 |}.

(** The options of a downloader with the largest retry count. *)
Definition unbounded : downloader.Options :=
  {| downloader.Branch := ""; downloader.Tag := ""; downloader.Commit := "";
     downloader.Depth := 1; downloader.Shallow := true; downloader.Submodules := false;
     downloader.UserAgent := "Harbormaster/1.0"; downloader.RetryAttempts := max_int64;
     downloader.RetryDelay := 2; downloader.Timeout := 600 |}.

End sample2.

(* ===================================================================== *)
(** ** Machine integers *)
(* ===================================================================== *)

Module Int64.

Lemma wrap64_id z : min_int64 <= z <= max_int64 -> wrap64 z = z.
Proof.
  unfold min_int64, max_int64, wrap64. intros H.
  rewrite Z.mod_small; lia.
Qed.

Lemma wrap64_range z : min_int64 <= wrap64 z <= max_int64.
Proof.
  unfold min_int64, max_int64, wrap64.
  pose proof (Z.mod_pos_bound (z + 2 ^ 63) (2 ^ 64) ltac:(lia)). lia.
Qed.

Example wrap64_overflow : wrap64 (max_int64 + 1) = min_int64.
Proof. reflexivity. Qed.

End Int64.

(* ===================================================================== *)
(** ** Selection: unknown names and empty sets *)
(* ===================================================================== *)

Module Selection.
Import types manager.

Lemma addNames_unknown cfg names :
  ∀ repoSet name,
    name ∈ names ->
    config.GetRepository cfg name = None ->
    ∃ missing,
      addNames cfg names repoSet = inr (Errorf ("repository not found: " +:+ missing)) ∧
      missing ∈ names ∧ config.GetRepository cfg missing = None.
Proof.
  induction names as [|n rest IH]; intros repoSet name Hin Hnone.
  - inversion Hin.
  - simpl. destruct (config.GetRepository cfg n) as [repo|] eqn:Hn.
    + apply elem_of_cons in Hin as [->|Hin]; [congruence|].
      destruct (IH (<[n:=repo]> repoSet) name Hin Hnone) as (missing & Heq & Hm & Hno).
      exists missing. split; [exact Heq|]. split; [apply elem_of_cons; by right | exact Hno].
    + exists n. split; [reflexivity|]. split; [apply elem_of_cons; by left | exact Hn].
Qed.

Lemma getRepositories_unknown order m filter name :
  All filter = false ->
  name ∈ Names filter ->
  config.GetRepository (config m) name = None ->
  ∃ missing,
    getRepositories order m filter = inr (Errorf ("repository not found: " +:+ missing)) ∧
    missing ∈ Names filter ∧ config.GetRepository (config m) missing = None.
Proof.
  intros Hall Hin Hnone. unfold getRepositories. rewrite Hall.
  destruct (Names filter) as [|n rest] eqn:Hnames; [inversion Hin|].
  cbn [length orb]. rewrite bool_decide_eq_false_2 by discriminate. cbn [andb].
  destruct (addNames_unknown (config m) (n :: rest) ∅ name Hin Hnone)
    as (missing & Heq & Hm & Hno).
  rewrite Heq. eauto.
Qed.

(** C3. A filter that selects by name (not [All]) and names a repository
    the catalog does not have makes [Sync] return an error: the manager,
    and with it the Lock Store, is what it was, no task was started, no
    report exists and the Lock Store was not accessed.  When the working
    directory could be created the error is the one of the first unknown
    name. *)
Theorem sync_unknown_name_fails fuel m filter env name :
  All filter = false ->
  name ∈ Names filter ->
  config.GetRepository (config m) name = None ->
  ∃ err tr,
    Sync fuel m filter env = (m, tr, Returned (inr err)) ∧
    List.filter isTask tr = [] ∧
    List.filter isLockEffect tr = [] ∧
    (envWorkDirErr env = None ->
     ∃ missing, missing ∈ Names filter ∧
       config.GetRepository (config m) missing = None ∧
       err = Errorf ("repository not found: " +:+ missing)).
Proof.
  intros Hall Hin Hnone.
  destruct (getRepositories_unknown (envMapOrder env) m filter name Hall Hin Hnone)
    as (missing & Heq & Hm & Hno).
  unfold Sync. destruct (envWorkDirErr env) as [e|] eqn:Hw.
  - eexists _, _. split; [reflexivity|]. repeat split; try reflexivity. discriminate.
  - rewrite Heq. eexists _, _. split; [reflexivity|]. repeat split; try reflexivity.
    intros _. exists missing. auto.
Qed.

Lemma sync_unknown_name_fails_witness :
  ∃ err tr,
    Sync 10 (NewRepositoryManager sample.cfg [WithLockFile (Some lockfile.New)])
      (sample.byNames ["alpha"; "gamma"]) (sample.syncEnv false sample.shaA)
    = (NewRepositoryManager sample.cfg [WithLockFile (Some lockfile.New)], tr,
       Returned (inr err)) ∧
    List.filter isTask tr = [] ∧
    List.filter isLockEffect tr = [] ∧
    (envWorkDirErr (sample.syncEnv false sample.shaA) = None ->
     ∃ missing, missing ∈ Names (sample.byNames ["alpha"; "gamma"]) ∧
       config.GetRepository
         (config (NewRepositoryManager sample.cfg [WithLockFile (Some lockfile.New)]))
         missing = None ∧
       err = Errorf ("repository not found: " +:+ missing)).
Proof.
  apply (sync_unknown_name_fails 10 _ (sample.byNames ["alpha"; "gamma"]) _ "gamma").
  - reflexivity.
  - simpl. apply elem_of_cons; right. apply elem_of_cons; by left.
  - reflexivity.
Defined.

(** C8. A filter that resolves to the empty set: the Lock Store is left
    as it was and is neither read, written nor saved, whatever else
    happens; and once the working directory exists the call returns the
    zero report. *)
Theorem sync_empty_selection fuel m filter env :
  getRepositories (envMapOrder env) m filter = inl [] ->
  ∃ m' tr out,
    Sync fuel m filter env = (m', tr, out) ∧
    lockFile m' = lockFile m ∧
    List.filter isLockEffect tr = [] ∧
    (envWorkDirErr env = None ->
     ∃ report, out = Returned (inl report) ∧
       TotalRepos report = 0 ∧ SuccessCount report = 0 ∧ FailureCount report = 0 ∧
       Results report = []).
Proof.
  intros Hsel. unfold Sync. destruct (envWorkDirErr env) as [e|].
  - eexists _, _, _. split; [reflexivity|]. repeat split; try reflexivity. discriminate.
  - rewrite Hsel. cbn [length]. rewrite bool_decide_eq_true_2 by reflexivity.
    eexists _, _, _. split; [reflexivity|]. repeat split; try reflexivity.
    intros _. exists emptySyncResult. repeat split; reflexivity.
Qed.

Lemma sync_empty_selection_witness :
  ∃ m' tr out,
    Sync 10 (NewRepositoryManager sample.cfg [WithLockFile (Some lockfile.New)])
      (sample.byTag "frontend") (sample.syncEnv false sample.shaA) = (m', tr, out) ∧
    lockFile m' = Some lockfile.New ∧
    List.filter isLockEffect tr = [] ∧
    (envWorkDirErr (sample.syncEnv false sample.shaA) = None ->
     ∃ report, out = Returned (inl report) ∧
       TotalRepos report = 0 ∧ SuccessCount report = 0 ∧ FailureCount report = 0 ∧
       Results report = []).
Proof.
  apply (sync_empty_selection 10
           (NewRepositoryManager sample.cfg [WithLockFile (Some lockfile.New)])
           (sample.byTag "frontend") (sample.syncEnv false sample.shaA)).
  vm_compute. reflexivity.
Defined.

End Selection.

(* ===================================================================== *)
(** ** The per-repository task *)
(* ===================================================================== *)

Module Task.
Import types manager.

Lemma lockedTarget_unlocked m repo :
  locked m = false -> lockedTarget m repo = ([], inl "").
Proof. intros H. unfold lockedTarget. by rewrite H. Qed.

Lemma lockedTarget_entry m repo lf e :
  locked m = true -> lockFile m = Some lf -> lf !! config.Name repo = Some e ->
  lockedTarget m repo = ([ELockGet (config.Name repo)], inl (lockfile.ResolvedSHA e)).
Proof.
  intros Hl Hlf He. unfold lockedTarget, lockfile.GetResolvedSHA.
  by rewrite Hl, Hlf, He.
Qed.

Lemma lockedTarget_missing m repo lf :
  locked m = true -> lockFile m = Some lf -> lf !! config.Name repo = None ->
  lockedTarget m repo = ([ELockGet (config.Name repo)], inr noLockEntry).
Proof.
  intros Hl Hlf He. unfold lockedTarget, lockfile.GetResolvedSHA.
  by rewrite Hl, Hlf, He.
Qed.

Lemma slice_to_Some n s :
  (n ≤ String.length s)%nat -> slice_to n s = Some (String.substring 0 n s).
Proof. intros H. unfold slice_to. by rewrite decide_True. Qed.

Lemma slice_to_None n s :
  (String.length s < n)%nat -> slice_to n s = None.
Proof. intros H. unfold slice_to. rewrite decide_False; [done | lia]. Qed.

Lemma eqb_false_of_ne (a b : string) : a ≠ b -> String.eqb a b = false.
Proof. intros H. by apply String.eqb_neq. Qed.

(** A fresh plain-file downloader has no source, so updating an existing
    destination stops at once. *)
Lemma resolve_http_existing fuel m repo env :
  config.Type_ repo = config.RepoTypeHTTP ->
  downloader.envExists env = true ->
  resolve fuel m repo env =
    (sendProgress m (ui.CreateErrorMsg (config.Name repo) (config.URL repo)
                       (Errorf "source URL not set")),
     Returned (inr (Errorf "source URL not set"))).
Proof.
  intros Hty Hex. unfold resolve, downloader.NewFromRepository, downloader.New.
  rewrite Hty, Hex. reflexivity.
Qed.

(** C4, the failing side. Outside locked mode, the task of a plain-file
    repository whose destination already exists always fails with
    "source URL not set": [syncRepository] builds a new downloader, whose
    remembered source is empty, and asks it to update. *)
Theorem http_resync_fails fuel m repo env :
  locked m = false ->
  config.Type_ repo = config.RepoTypeHTTP ->
  downloader.envExists env = true ->
  ∃ tr r,
    syncRepository fuel m repo env = (tr, Returned r) ∧
    Success r = false ∧ Error r = Some (Errorf "source URL not set").
Proof.
  intros Hl Hty Hex. unfold syncRepository.
  rewrite (lockedTarget_unlocked _ _ Hl), (resolve_http_existing _ _ _ _ Hty Hex).
  eexists _, _. split; [reflexivity|]. split; reflexivity.
Qed.

Lemma http_resync_fails_witness :
  ∃ tr r,
    syncRepository 10 (NewRepositoryManager sample.cfg [WithLockFile (Some lockfile.New)])
      sample.blob (sample.taskEnv true sample.shaA) = (tr, Returned r) ∧
    Success r = false ∧ Error r = Some (Errorf "source URL not set").
Proof.
  apply (http_resync_fails 10 _ sample.blob (sample.taskEnv true sample.shaA));
    reflexivity.
Defined.

(** The first run of the same repository, on a destination that does not
    exist yet, succeeds with the digest. *)
Example http_first_sync_succeeds :
  ∃ tr r,
    syncRepository 10 (NewRepositoryManager sample.cfg [WithLockFile (Some lockfile.New)])
      sample.blob (sample.taskEnv false sample.shaA) = (tr, Returned r) ∧
    Success r = true ∧ CommitSHA r = sample.digest.
Proof. eexists _, _. split; [vm_compute; reflexivity|]. split; reflexivity. Qed.

(** C10, the failing side. In locked mode a lock entry whose resolved
    reference has six bytes, met by a transport that resolves to another
    reference, makes the task panic at [targetSHA[:8]]; and outside locked
    mode a resolved reference of six bytes makes it panic at [sha[:8]] in
    the success notification. *)
Theorem short_reference_panics :
  snd (syncRepository 10
         (NewRepositoryManager sample.cfg
            [WithLockFile
               (Some (<["alpha" := sample.entry (config.URL sample.alpha) "abc123"]> ∅));
             WithLocked true; WithUI true])
         sample.alpha (sample.taskEnv false sample.shaA)) = Panicked ∧
  snd (syncRepository 10
         (NewRepositoryManager sample.cfg [WithLockFile (Some lockfile.New); WithUI true])
         sample.alpha (sample.taskEnv false "abc123")) = Panicked.
Proof. split; vm_compute; reflexivity. Qed.

(** In general: the mismatch branch panics as soon as one of the two
    references is shorter than eight bytes. *)
Lemma conclude_mismatch_panics m repo result targetSHA sha :
  locked m = true -> targetSHA ≠ "" -> sha ≠ targetSHA ->
  (String.length targetSHA < 8 ∨ String.length sha < 8)%nat ->
  conclude m repo result targetSHA sha = ([], Panicked).
Proof.
  intros Hl Ht Hne Hshort. unfold conclude.
  rewrite Hl, (eqb_false_of_ne _ _ Ht), (eqb_false_of_ne _ _ Hne). cbn [andb negb].
  destruct Hshort as [H|H].
  - by rewrite (slice_to_None _ _ H).
  - rewrite (slice_to_None 8 sha H). by destruct (slice_to 8 targetSHA).
Qed.

Lemma conclude_mismatch m repo result targetSHA sha :
  locked m = true -> targetSHA ≠ "" -> sha ≠ targetSHA ->
  (8 ≤ String.length targetSHA)%nat -> (8 ≤ String.length sha)%nat ->
  conclude m repo result targetSHA sha =
    (let err := Errorf ("SHA mismatch: expected " +:+ String.substring 0 8 targetSHA +:+
                        ", got " +:+ String.substring 0 8 sha) in
     (sendProgress m (ui.CreateErrorMsg (config.Name repo) (config.URL repo) err),
      Returned (failed result err))).
Proof.
  intros Hl Ht Hne H1 H2. unfold conclude.
  rewrite Hl, (eqb_false_of_ne _ _ Ht), (eqb_false_of_ne _ _ Hne). cbn [andb negb].
  by rewrite (slice_to_Some _ _ H1), (slice_to_Some _ _ H2).
Qed.

End Task.

(* ===================================================================== *)
(** ** Progress streams *)
(* ===================================================================== *)

Module Stream.
Import types downloader.

Lemma endsWell_last u : IsComplete u = true -> endsWell [ESend u].
Proof. intros H. exists [], u. split; [reflexivity|]. split; [constructor | exact H]. Qed.

Lemma endsWell_app a b :
  Forall (fun e => quiet e = true) a -> endsWell b -> endsWell (a ++ b).
Proof.
  intros Ha (pre & last & -> & Hpre & Hlast).
  exists (a ++ pre), last. split; [by rewrite app_assoc|].
  split; [by apply Forall_app_2 | exact Hlast].
Qed.

Lemma endsWell_cons e b : quiet e = true -> endsWell b -> endsWell (e :: b).
Proof.
  intros He Hb. change (e :: b) with ([e] ++ b).
  apply endsWell_app; [by repeat constructor | exact Hb].
Qed.

Lemma scanProgress_quiet tokens : Forall (fun e => quiet e = true) (scanProgress tokens).
Proof.
  induction tokens as [|t rest IH]; simpl; [constructor|].
  destruct (String.eqb (lineText t) ""); [exact IH|].
  apply Forall_app_2; [|exact IH].
  destruct (lineRoom t); [|constructor].
  destruct (0 <=? linePct t)%Z; by repeat constructor.
Qed.

Lemma chunkProgress_quiet total chunks :
  ∀ done, Forall (fun e => quiet e = true) (chunkProgress total chunks done).
Proof.
  induction chunks as [|[n room] rest IH]; intros done; simpl; [constructor|].
  destruct (0 <? n)%Z; [|apply IH].
  apply Forall_app_2; [|apply IH].
  destruct ((0 <? total)%Z && room); by repeat constructor.
Qed.

Lemma checkoutRef_quiet g destination env :
  Forall (fun e => quiet e = true) (checkoutRef g destination env).1.
Proof.
  unfold checkoutRef. destruct (checkoutTarget (gitOptions g)); simpl; by repeat constructor.
Qed.

Lemma reportHead_endsWell destination env : endsWell (reportHead destination env).
Proof.
  unfold reportHead, getHeadSHA.
  destruct (gitHead env); simpl; apply endsWell_cons; try reflexivity;
    by apply endsWell_last.
Qed.

Lemma checkout_then_report g destination env :
  endsWell (let '(tr1, cerr) := checkoutRef g destination env in
            tr1 ++ match cerr with
                   | Some err => [ESend (failure err)]
                   | None => reportHead destination env
                   end).
Proof.
  pose proof (checkoutRef_quiet g destination env) as Hq.
  destruct (checkoutRef g destination env) as [tr1 cerr]. simpl in Hq.
  apply endsWell_app; [exact Hq|].
  destruct cerr; [by apply endsWell_last | apply reportHead_endsWell].
Qed.

Lemma gitDownloadBody_endsWell g source destination env :
  endsWell (gitDownloadBody g source destination env).
Proof.
  unfold gitDownloadBody.
  do 2 (apply endsWell_cons; [reflexivity|]).
  destruct (gitPipeErr env); [by apply endsWell_last|].
  destruct (gitStartErr env); [by apply endsWell_last|].
  apply endsWell_cons; [reflexivity|].
  apply endsWell_app; [apply scanProgress_quiet|].
  destruct (gitExit env _ _); [by apply endsWell_last|].
  destruct (nonEmpty (Commit (gitOptions g)) || nonEmpty (Tag (gitOptions g))).
  - apply endsWell_cons; [reflexivity|]. apply checkout_then_report.
  - apply reportHead_endsWell.
Qed.

Lemma gitUpdateBody_endsWell g destination env :
  endsWell (gitUpdateBody g destination env).
Proof.
  unfold gitUpdateBody.
  apply endsWell_cons; [reflexivity|].
  destruct (gitPipeErr env); [by apply endsWell_last|].
  destruct (gitStartErr env); [by apply endsWell_last|].
  apply endsWell_cons; [reflexivity|].
  apply endsWell_app; [apply scanProgress_quiet|].
  destruct (gitExit env _ _); [by apply endsWell_last|].
  apply endsWell_cons; [reflexivity|]. apply checkout_then_report.
Qed.

Lemma downloadFileWithProgress_quiet source destination env call :
  Forall (fun e => quiet e = true)
    (downloadFileWithProgress source destination env call).1.
Proof.
  unfold downloadFileWithProgress. destruct (httpFetch env call); simpl.
  - by repeat constructor.
  - do 2 (constructor; [reflexivity|]). apply chunkProgress_quiet.
Qed.

Lemma progressLoop_endsWell fuel o source destination env :
  ∀ attempt calls lastErr tr,
    progressLoop fuel o source destination env attempt calls lastErr = Some tr ->
    endsWell tr.
Proof.
  induction fuel as [|fuel IH]; intros attempt calls lastErr tr; simpl; [discriminate|].
  destruct (attempt <=? RetryAttempts o)%Z.
  - pose proof (downloadFileWithProgress_quiet source destination env calls) as Hq.
    destruct (downloadFileWithProgress source destination env calls) as [t r].
    simpl in Hq.
    assert (Hpre : Forall (fun e => quiet e = true)
              (if (0 <? attempt)%Z
               then [ESend (update PhaseConnecting
                       ("Retrying (" +:+ pretty attempt +:+ "/" +:+
                        pretty (RetryAttempts o) +:+ ")..."));
                     ESleep (RetryDelay o)]
               else [])).
    { destruct (0 <? attempt)%Z; by repeat constructor. }
    destruct r as [hash|err].
    + intros [= <-]. apply endsWell_app; [exact Hpre|].
      apply endsWell_app; [exact Hq|]. by apply endsWell_last.
    + destruct (progressLoop fuel o source destination env _ _ _) as [tr'|] eqn:Hrec;
        [|discriminate].
      intros [= <-]. apply endsWell_app; [exact Hpre|].
      apply endsWell_app; [exact Hq|]. by eapply IH.
  - intros [= <-]. by apply endsWell_last.
Qed.

Lemma httpDownloadBody_endsWell fuel h source destination env tr :
  httpDownloadBody fuel h source destination env = Some tr -> endsWell tr.
Proof.
  unfold httpDownloadBody. destruct (httpMkdirErr env).
  - intros [= <-]. do 2 (apply endsWell_cons; [reflexivity|]). by apply endsWell_last.
  - destruct (progressLoop _ _ _ _ _ _ _ _) as [t|] eqn:Hloop; [|discriminate].
    intros [= <-]. do 2 (apply endsWell_cons; [reflexivity|]).
    by eapply progressLoop_endsWell.
Qed.










End Stream.

(* ===================================================================== *)
(** ** The retry policy of the plain-file transport *)
(* ===================================================================== *)

Module Retry.
Import types downloader.

Lemma downloadFile_result source destination env k :
  downloadFile source destination env k =
    ([EHTTPGet source destination], attemptResult env k).
Proof. reflexivity. Qed.




(** With the largest retry count the loop test never fails. *)
Lemma downloadLoop_unbounded o source destination env fuel :
  RetryAttempts o = max_int64 ->
  (∀ k, ∃ e, attemptResult env k = inr e) ->
  ∀ attempt calls lastErr,
    min_int64 <= attempt <= max_int64 ->
    downloadLoop fuel o source destination env attempt calls lastErr = None.
Proof.
  intros Hmax Hfail.
  induction fuel as [|fuel IH]; intros attempt calls lastErr Hrange; [reflexivity|].
  cbn [downloadLoop].
  assert (Hle : (attempt <=? RetryAttempts o)%Z = true) by (apply Z.leb_le; lia).
  rewrite Hle, downloadFile_result.
  destruct (Hfail calls) as [e ->].
  by rewrite (IH _ _ _ (Int64.wrap64_range (attempt + 1))).
Qed.




Example retry_twice_then_success :
  (httpDownload 10 (NewHTTPDownloader sample.opts) "u" "d" (sample.httpAfter 2)).2 =
    Some ([EMkdirParent "d"; EHTTPGet "u" "d"; ESleep 2; EHTTPGet "u" "d";
           ESleep 2; EHTTPGet "u" "d"], inl sample.digest).
Proof. reflexivity. Qed.

Example retry_exhausted :
  (httpDownload 10 (NewHTTPDownloader sample.opts) "u" "d" sample.httpDown).2 =
    Some ([EMkdirParent "d"; EHTTPGet "u" "d"; ESleep 2; EHTTPGet "u" "d";
           ESleep 2; EHTTPGet "u" "d"; ESleep 2; EHTTPGet "u" "d"],
          inr (AfterAttempts 4 (Some (Errorf "HTTP 500: 500 Internal Server Error")))).
Proof. reflexivity. Qed.

End Retry.

(* ===================================================================== *)
(** ** [Download] against [DownloadWithProgress] *)
(* ===================================================================== *)

Module Variants.
Import types downloader.

(** C7, the failing side. With only a branch selected ([Branch = "main"],
    no tag, no commit) the two clones part ways after the base clone.
    When every command succeeds, [Download] runs
    [git checkout --force origin/main] in the destination (leaving HEAD
    detached at the remote-tracking reference) and [DownloadWithProgress]
    runs no checkout at all (leaving the cloned branch checked out).
    When that checkout fails, [Download] returns its error while
    [DownloadWithProgress] reports [complete] with the head revision. *)
Theorem download_variants_diverge :
  let g := NewGitDownloader sample.branchOnly in
  let source := "https://example.com/alpha.git" in
  let destination := "/work/alpha" in
  gitCommands (gitDownload g source destination (sample.gitOk sample.shaA)).1.2 =
    [("", ["clone"; "--depth"; "1"; "--branch"; "main"; "--single-branch";
           source; destination]);
     (destination, ["checkout"; "--force"; "origin/main"]);
     (destination, ["rev-parse"; "HEAD"])] ∧
  gitCommands (producedBy (GitDownloadCall g source destination (sample.gitOk sample.shaA))) =
    [("", ["clone"; "--progress"; "--depth"; "1"; "--branch"; "main"; "--single-branch";
           source; destination]);
     (destination, ["rev-parse"; "HEAD"])] ∧
  (gitDownload g source destination (sample.gitNoCheckout sample.shaA)).2 =
    inr (Wrapf "failed to checkout origin/main" (Some (External "exit status 1"))) ∧
  last (drained (producedBy (GitDownloadCall g source destination
                               (sample.gitNoCheckout sample.shaA)))) =
    Some (update PhaseComplete sample.shaA).
Proof. repeat split. Qed.

(** With a tag selected both variants run the same commands, up to the
    [--progress] flag of the clone. *)
Example download_variants_agree_on_tag :
  let g := NewGitDownloader
             {| Branch := ""; Tag := "v1.2"; Commit := ""; Depth := 0; Shallow := false;
                Submodules := false; UserAgent := ""; RetryAttempts := 0; RetryDelay := 0;
                Timeout := 0 |} in
  gitCommands (gitDownload g "src" "dst" (sample.gitOk sample.shaA)).1.2 =
    [("", ["clone"; "src"; "dst"]); ("dst", ["checkout"; "--force"; "v1.2"]);
     ("dst", ["rev-parse"; "HEAD"])] ∧
  gitCommands (producedBy (GitDownloadCall g "src" "dst" (sample.gitOk sample.shaA))) =
    [("", ["clone"; "--progress"; "src"; "dst"]); ("dst", ["checkout"; "--force"; "v1.2"]);
     ("dst", ["rev-parse"; "HEAD"])].
Proof. split; reflexivity. Qed.

End Variants.

(* ===================================================================== *)
(** ** What a task does to the Lock Store: nothing *)
(* ===================================================================== *)

Module Readonly.
Import types manager.

Lemma quiet_noWrite pre :
  Forall (fun e => quiet e = true) pre -> List.filter isLockWrite pre = [].
Proof.
  induction 1 as [|e pre He _ IH]; [reflexivity|].
  destruct e; try discriminate He; exact IH.
Qed.

Lemma endsWell_noWrite body :
  endsWell body -> List.filter isLockWrite (body ++ [EClose]) = [].
Proof.
  intros (pre & last & -> & Hpre & _).
  by rewrite !List.filter_app, (quiet_noWrite pre Hpre).
Qed.

Lemma sendProgress_noWrite m msg : List.filter isLockWrite (sendProgress m msg) = [].
Proof. unfold sendProgress. by destruct (ui m). Qed.

Lemma drainLoop_noWrite m repo updates :
  ∀ sha, List.filter isLockWrite (drainLoop m repo updates sha).1 = [].
Proof.
  induction updates as [|u rest IH]; intros sha; simpl; [reflexivity|].
  destruct (updError u); simpl; [apply sendProgress_noWrite|].
  specialize (IH (if bool_decide (updPhase u = PhaseComplete) then updMessage u else sha)).
  destruct (drainLoop m repo rest _) as [tr r]. simpl in *.
  by rewrite List.filter_app, sendProgress_noWrite, IH.
Qed.

Lemma download_stream_noWrite fuel dl source destination env :
  match (downloader.DownloadWithProgress fuel dl source destination env).2.1.2 with
  | downloader.Chan (Some tr) => List.filter isLockWrite tr = []
  | _ => True
  end.
Proof.
  destruct dl as [g|h]; unfold downloader.DownloadWithProgress.
  - unfold downloader.gitDownloadWithProgress. cbn [fst snd].
    apply endsWell_noWrite, Stream.gitDownloadBody_endsWell.
  - unfold downloader.httpDownloadWithProgress. cbn [fst snd].
    destruct (downloader.httpDownloadBody _ _ _ _ _) as [body|] eqn:Hb; [|exact I].
    eapply endsWell_noWrite, Stream.httpDownloadBody_endsWell, Hb.
Qed.

Lemma update_stream_noWrite fuel dl destination env :
  match (downloader.UpdateWithProgress fuel dl destination env).2.1.2 with
  | downloader.Chan (Some tr) => List.filter isLockWrite tr = []
  | _ => True
  end.
Proof.
  destruct dl as [g|h]; unfold downloader.UpdateWithProgress.
  - unfold downloader.gitUpdateWithProgress. cbn [fst snd].
    apply endsWell_noWrite, Stream.gitUpdateBody_endsWell.
  - unfold downloader.httpUpdateWithProgress.
    destruct (String.eqb (downloader.httpSource h) ""); [exact I|].
    unfold downloader.httpDownloadWithProgress. cbn [fst snd].
    destruct (downloader.httpDownloadBody _ _ _ _ _) as [body|] eqn:Hb; [|exact I].
    eapply endsWell_noWrite, Stream.httpDownloadBody_endsWell, Hb.
Qed.

Lemma GetCurrentRef_noWrite dl destination env :
  List.filter isLockWrite (downloader.GetCurrentRef dl destination env).1 = [].
Proof. by destruct dl. Qed.

Lemma resolve_noWrite fuel m repo env :
  List.filter isLockWrite (resolve fuel m repo env).1 = [].
Proof.
  unfold resolve.
  destruct (downloader.NewFromRepository repo (config m)) as [dl|e];
    [|apply sendProgress_noWrite].
  assert (Hstream :
            match (if downloader.envExists env
                   then downloader.UpdateWithProgress fuel dl (getRepoPath m repo) env
                   else downloader.DownloadWithProgress fuel dl (config.URL repo)
                          (getRepoPath m repo) env).2.1.2 with
            | downloader.Chan (Some tr) => List.filter isLockWrite tr = []
            | _ => True
            end).
  { destruct (downloader.envExists env).
    - apply update_stream_noWrite.
    - apply download_stream_noWrite. }
  destruct (if downloader.envExists env then _ else _) as [dl' [[sha ch] err]].
  cbn [fst snd] in Hstream.
  destruct err as [e|]; [apply sendProgress_noWrite|].
  destruct ch as [|[produced|]]; try reflexivity.
  pose proof (drainLoop_noWrite m repo (drained produced) sha) as Hdrain.
  destruct (drainLoop m repo (drained produced) sha) as [t1 d]. simpl in Hdrain.
  destruct d as [sha'|e]; [|simpl; by rewrite List.filter_app, Hstream, Hdrain].
  destruct (String.eqb sha' "").
  - pose proof (GetCurrentRef_noWrite dl' (getRepoPath m repo) env) as Hcur.
    destruct (downloader.GetCurrentRef dl' (getRepoPath m repo) env) as [t2 cur].
    simpl in Hcur.
    destruct cur; simpl;
      by rewrite !List.filter_app, Hstream, Hdrain, Hcur, ?sendProgress_noWrite.
  - simpl. by rewrite List.filter_app, Hstream, Hdrain.
Qed.

Lemma lockedTarget_noWrite m repo :
  List.filter isLockWrite (lockedTarget m repo).1 = [].
Proof. unfold lockedTarget. destruct (locked m), (lockFile m); reflexivity. Qed.

Lemma conclude_noWrite m repo result targetSHA sha :
  List.filter isLockWrite (conclude m repo result targetSHA sha).1 = [].
Proof.
  unfold conclude.
  destruct (locked m && negb (String.eqb targetSHA "") && negb (String.eqb sha targetSHA)).
  - destruct (slice_to 8 targetSHA), (slice_to 8 sha); simpl;
      try reflexivity; apply sendProgress_noWrite.
  - destruct (ui m), (slice_to 8 sha); reflexivity.
Qed.

Lemma syncRepository_noWrite fuel m repo env :
  List.filter isLockWrite (syncRepository fuel m repo env).1 = [].
Proof.
  unfold syncRepository.
  pose proof (lockedTarget_noWrite m repo) as H1.
  destruct (lockedTarget m repo) as [t1 target]. simpl in H1.
  destruct target as [targetSHA|e].
  - pose proof (resolve_noWrite fuel m repo env) as H2.
    destruct (resolve fuel m repo env) as [t2 resolved]. simpl in H2.
    destruct resolved as [[sha|e]| |]; simpl;
      try by rewrite !List.filter_app, sendProgress_noWrite, H1, H2.
    pose proof (conclude_noWrite m repo
                  {| RepoName := config.Name repo; RepoURL := config.URL repo;
                     Success := false; Error := None; CommitSHA := "";
                     Branch := config.Branch repo; Tag := config.Tag repo |}
                  targetSHA sha) as H3.
    destruct (conclude m repo _ targetSHA sha) as [t3 out]. simpl in *.
    by rewrite !List.filter_app, sendProgress_noWrite, H1, H2, H3.
  - simpl. by rewrite !List.filter_app, !sendProgress_noWrite, H1.
Qed.

Lemma runTasks_noWrite fuel m env repos :
  ∀ idx, List.filter isLockWrite (runTasks fuel m repos idx env).1 = [].
Proof.
  induction repos as [|r rest IH]; intros idx; simpl; [reflexivity|].
  pose proof (syncRepository_noWrite fuel m r (envTask env idx)) as H1.
  destruct (syncRepository fuel m r (envTask env idx)) as [t o].
  specialize (IH (S idx)). destruct (runTasks fuel m rest (S idx) env) as [ts os].
  simpl in *. by rewrite List.filter_app, H1, IH.
Qed.

End Readonly.

(* ===================================================================== *)
(** ** Locked mode *)
(* ===================================================================== *)

Module Locked.
Import types manager.

Lemma updateLockFile_locked m clock results :
  locked m = true -> updateLockFile m clock results = ([], lockFile m).
Proof. intros H. unfold updateLockFile. rewrite H. by destruct (lockFile m). Qed.

Lemma syncAll_locked_readonly fuel m repos env :
  locked m = true ->
  lockFile (syncAll fuel m repos env).1.1 = lockFile m ∧
  List.filter isLockWrite (syncAll fuel m repos env).1.2 = [].
Proof.
  intros Hl. unfold syncAll.
  pose proof (Readonly.runTasks_noWrite fuel m env repos 0) as Ht2.
  destruct (runTasks fuel m repos 0 env) as [t2 outs]. simpl in Ht2.
  destruct (collect outs) as [results| |]; simpl; try by split.
  rewrite (updateLockFile_locked _ _ _ Hl).
  destruct (uiDone m); simpl;
    (split; [reflexivity | by rewrite !List.filter_app, Ht2]).
Qed.

(** In locked mode [Sync] hands the Lock Store back as it got it and
    writes nothing to it on the way. *)
Lemma sync_locked_readonly fuel m filter env :
  locked m = true ->
  lockFile (Sync fuel m filter env).1.1 = lockFile m ∧
  List.filter isLockWrite (Sync fuel m filter env).1.2 = [].
Proof.
  intros Hl. unfold Sync.
  destruct (envWorkDirErr env); [by split|].
  destruct (getRepositories (envMapOrder env) m filter) as [repos|e]; [|by split].
  destruct (bool_decide (length repos = 0%nat)); [by split|].
  destruct (ui m).
  - destruct (syncAll_locked_readonly fuel m repos env Hl) as [H1 H2].
    destruct (syncAll fuel m repos env) as [[m' t2] out]. simpl in *. by split.
  - destruct (envUIStartErr env); [by split|].
    destruct (syncAll_locked_readonly fuel (WithUI true m) repos env Hl) as [H1 H2].
    destruct (syncAll fuel (WithUI true m) repos env) as [[m' t2] out]. simpl in *.
    by split.
Qed.

(** C1, as the code has it. In locked mode with a Lock Store attached:
    a repository without an entry fails with the "no lock entry" error;
    an entry with a non-empty resolved reference that differs from the
    reference the transport resolved makes the task fail with the
    mismatch error (both references having the eight bytes the message
    quotes); an entry whose resolved reference is empty switches the
    check off, and the task succeeds with the transport's reference; and
    [Sync] returns the Lock Store unchanged, having written nothing. *)
Theorem locked_sync_is_checked fuel m lf :
  locked m = true ->
  lockFile m = Some lf ->
  (∀ repo env,
     lf !! config.Name repo = None ->
     ∃ tr r, syncRepository fuel m repo env = (tr, Returned r) ∧
             Success r = false ∧ Error r = Some noLockEntry) ∧
  (∀ repo env e t sha,
     lf !! config.Name repo = Some e ->
     resolve fuel m repo env = (t, Returned (inl sha)) ->
     lockfile.ResolvedSHA e ≠ "" ->
     sha ≠ lockfile.ResolvedSHA e ->
     (8 ≤ String.length (lockfile.ResolvedSHA e))%nat ->
     (8 ≤ String.length sha)%nat ->
     ∃ tr r, syncRepository fuel m repo env = (tr, Returned r) ∧
             Success r = false ∧
             Error r = Some (Errorf ("SHA mismatch: expected " +:+
                                     String.substring 0 8 (lockfile.ResolvedSHA e) +:+
                                     ", got " +:+ String.substring 0 8 sha))) ∧
  (∀ repo env e t sha,
     lf !! config.Name repo = Some e ->
     resolve fuel m repo env = (t, Returned (inl sha)) ->
     lockfile.ResolvedSHA e = "" ->
     (8 ≤ String.length sha)%nat ->
     ∃ tr r, syncRepository fuel m repo env = (tr, Returned r) ∧
             Success r = true ∧ CommitSHA r = sha) ∧
  (∀ filter env,
     lockFile (Sync fuel m filter env).1.1 = Some lf ∧
     List.filter isLockWrite (Sync fuel m filter env).1.2 = []).
Proof.
  intros Hl Hlf. repeat apply conj.
  - intros repo env Hnone. unfold syncRepository.
    rewrite (Task.lockedTarget_missing m repo lf Hl Hlf Hnone).
    eexists _, _. split; [reflexivity|]. by split.
  - intros repo env e t sha He Hres Hnonempty Hne H1 H2. unfold syncRepository.
    rewrite (Task.lockedTarget_entry m repo lf e Hl Hlf He), Hres.
    rewrite (Task.conclude_mismatch _ _ _ _ _ Hl Hnonempty Hne H1 H2).
    eexists _, _. split; [reflexivity|]. by split.
  - intros repo env e t sha He Hres Hempty H8. unfold syncRepository.
    rewrite (Task.lockedTarget_entry m repo lf e Hl Hlf He), Hres, Hempty.
    unfold conclude. rewrite Hl. cbn [String.eqb negb andb].
    rewrite (Task.slice_to_Some 8 sha H8).
    destruct (ui m); eexists _, _; (split; [reflexivity|]); by split.
  - intros filter env. rewrite <- Hlf. by apply sync_locked_readonly.
Qed.

Lemma locked_sync_is_checked_witness :
  let lf : lockfile.LockFile :=
    <["alpha" := sample.entry (config.URL sample.alpha) sample.shaB]> ∅ in
  let m := NewRepositoryManager sample.cfg [WithLockFile (Some lf); WithLocked true] in
  (∃ tr r, syncRepository 10 m sample.beta (sample.taskEnv false sample.shaA)
           = (tr, Returned r) ∧
           Success r = false ∧ Error r = Some noLockEntry) ∧
  (∃ tr r, syncRepository 10 m sample.alpha (sample.taskEnv false sample.shaA)
           = (tr, Returned r) ∧
           Success r = false ∧
           Error r = Some (Errorf "SHA mismatch: expected 89abcdef, got 01234567")) ∧
  lockFile (Sync 10 m sample.everything (sample.syncEnv false sample.shaA)).1.1 = Some lf.
Proof.
  intros lf m.
  destruct (locked_sync_is_checked 10 m lf eq_refl eq_refl) as (Ha & Hb & _ & Hd).
  split; [|split].
  - apply Ha. reflexivity.
  - eapply (Hb sample.alpha (sample.taskEnv false sample.shaA)
              (sample.entry (config.URL sample.alpha) sample.shaB) _ sample.shaA).
    + reflexivity.
    + vm_compute. reflexivity.
    + discriminate.
    + discriminate.
    + simpl. lia.
    + simpl. lia.
  - apply Hd.
Defined.

(** The claim as written fails on an entry with an empty resolved
    reference: the transport resolves to another reference and the task
    succeeds. *)
Lemma locked_mismatch_not_always_detected :
  ¬ (∀ fuel m lf repo env e t sha,
       locked m = true ->
       lockFile m = Some lf ->
       lf !! config.Name repo = Some e ->
       resolve fuel m repo env = (t, Returned (inl sha)) ->
       sha ≠ lockfile.ResolvedSHA e ->
       ∃ tr r, syncRepository fuel m repo env = (tr, Returned r) ∧ Success r = false).
Proof.
  intros H.
  pose (lf := (<["alpha" := sample.entry (config.URL sample.alpha) ""]> ∅)
              : lockfile.LockFile).
  pose (m := NewRepositoryManager sample.cfg [WithLockFile (Some lf); WithLocked true]).
  destruct (H 10%nat m lf sample.alpha (sample.taskEnv false sample.shaA)
              (sample.entry (config.URL sample.alpha) "")
              (resolve 10 m sample.alpha (sample.taskEnv false sample.shaA)).1
              sample.shaA eq_refl eq_refl)
    as (tr & r & Hsync & Hfail).
  - reflexivity.
  - vm_compute. reflexivity.
  - discriminate.
  - vm_compute in Hsync. injection Hsync as _ <-. discriminate Hfail.
Qed.

End Locked.

(* ===================================================================== *)
(** ** Recording results in the Lock Store *)
(* ===================================================================== *)

Module Recording.
Import types manager.

Section Catalog.
Variable cfg : config.Config.

Lemma findRepository_Some repos name r :
  config.findRepository repos name = Some r -> config.Name r = name ∧ r ∈ repos.
Proof.
  induction repos as [|h rest IH]; simpl; [discriminate|].
  destruct (String.eqb (config.Name h) name) eqn:Heq.
  - intros [= ->]. apply String.eqb_eq in Heq. split; [exact Heq|]. apply elem_of_cons; by left.
  - intros H. destruct (IH H) as [Hn Hin]. split; [exact Hn|]. apply elem_of_cons; by right.
Qed.

Lemma findRepository_self repos r :
  NoDup (config.Name <$> repos) -> r ∈ repos ->
  config.findRepository repos (config.Name r) = Some r.
Proof.
  induction repos as [|h rest IH]; intros Hnd Hin; [inversion Hin|].
  simpl in *. apply NoDup_cons in Hnd as [Hh Hnd].
  apply elem_of_cons in Hin as [->|Hin].
  - by rewrite String.eqb_refl.
  - destruct (String.eqb (config.Name h) (config.Name r)) eqn:Heq.
    + apply String.eqb_eq in Heq. exfalso. apply Hh. rewrite Heq.
      by apply list_elem_of_fmap_2.
    + by apply IH.
Qed.

Lemma GetRepository_listed name r :
  config.GetRepository cfg name = Some r -> listed cfg r.
Proof.
  intros H. unfold listed. destruct (findRepository_Some _ _ _ H) as [<- _]. exact H.
Qed.

Lemma addNames_keyed names :
  ∀ s s', keyed cfg s -> addNames cfg names s = inl s' -> keyed cfg s'.
Proof.
  induction names as [|n rest IH]; intros s s' Hs; simpl.
  - by intros [= <-].
  - destruct (config.GetRepository cfg n) as [repo|] eqn:Hn; [|discriminate].
    apply IH. intros k v Hkv.
    destruct (decide (n = k)) as [<-|Hne].
    + rewrite lookup_insert_eq in Hkv. injection Hkv as <-.
      split; [apply (findRepository_Some _ _ _ Hn) | by eapply GetRepository_listed].
    + rewrite lookup_insert_ne in Hkv by done. by apply Hs.
Qed.

Lemma addAll_keyed repos :
  ∀ s, (∀ r, r ∈ repos -> listed cfg r) -> keyed cfg s -> keyed cfg (addAll repos s).
Proof.
  unfold addAll. induction repos as [|h rest IH]; intros s Hrepos Hs; simpl; [exact Hs|].
  apply IH.
  - intros r Hr. apply Hrepos. apply elem_of_cons; by right.
  - intros k v Hkv. destruct (decide (config.Name h = k)) as [<-|Hne].
    + rewrite lookup_insert_eq in Hkv. injection Hkv as <-.
      split; [reflexivity|]. apply Hrepos. apply elem_of_cons; by left.
    + rewrite lookup_insert_ne in Hkv by done. by apply Hs.
Qed.

Lemma collectProjectRepos_listed projectName names :
  ∀ acc repos,
    (∀ r, r ∈ acc -> listed cfg r) ->
    config.collectProjectRepos cfg projectName names acc = inl repos ->
    ∀ r, r ∈ repos -> listed cfg r.
Proof.
  induction names as [|n rest IH]; intros acc repos Hacc; simpl.
  - by intros [= <-].
  - destruct (config.GetRepository cfg n) as [repo|] eqn:Hn; [|discriminate].
    apply IH. intros r Hr. apply elem_of_app in Hr as [Hr|Hr]; [by apply Hacc|].
    apply list_elem_of_singleton in Hr as ->. by eapply GetRepository_listed.
Qed.

Lemma addProjects_keyed projects :
  ∀ s s', keyed cfg s -> addProjects cfg projects s = inl s' -> keyed cfg s'.
Proof.
  induction projects as [|p rest IH]; intros s s' Hs; simpl.
  - by intros [= <-].
  - destruct (config.GetRepositoriesForProject cfg p) as [repos|e] eqn:Hp; [|discriminate].
    apply IH, addAll_keyed; [|exact Hs].
    unfold config.GetRepositoriesForProject in Hp.
    destruct (config.GetProject cfg p); [|discriminate].
    eapply collectProjectRepos_listed; [|exact Hp]. intros r Hr. inversion Hr.
Qed.

Hypothesis unique : NoDup (config.Name <$> config.Repositories cfg).

Lemma catalog_listed r : r ∈ config.Repositories cfg -> listed cfg r.
Proof. intros Hr. by apply findRepository_self. Qed.

Lemma addTags_keyed tags :
  ∀ s, keyed cfg s -> keyed cfg (addTags cfg tags s).
Proof.
  unfold addTags. induction tags as [|t rest IH]; intros s Hs; simpl; [exact Hs|].
  apply IH, addAll_keyed; [|exact Hs].
  intros r Hr. apply catalog_listed.
  unfold config.GetRepositoriesByTag in Hr. by apply list_elem_of_filter in Hr as [_ Hr].
Qed.

(** What [getRepositories] selects: repositories of the catalog, each
    under a name of its own. *)
Lemma getRepositories_sound order m filter repos :
  config m = cfg ->
  (∀ l, order l ≡ₚ l) ->
  getRepositories order m filter = inl repos ->
  NoDup (config.Name <$> repos) ∧ ∀ r, r ∈ repos -> listed cfg r.
Proof.
  intros Hcfg Horder. unfold getRepositories. rewrite Hcfg.
  destruct (All filter || _).
  - intros [= <-]. split; [exact unique | apply catalog_listed].
  - destruct (addNames cfg (Names filter) ∅) as [s1|e] eqn:H1; [|discriminate].
    destruct (addProjects cfg (Projects filter) s1) as [s2|e] eqn:H2; [|discriminate].
    intros [= <-].
    assert (Hkeyed : keyed cfg (addTags cfg (Tags filter) s2)).
    { apply addTags_keyed. eapply addProjects_keyed; [|exact H2].
      eapply addNames_keyed; [|exact H1]. intros k v Hkv. by rewrite lookup_empty in Hkv. }
    set (s := addTags cfg (Tags filter) s2) in *.
    assert (Hin : ∀ kv, kv ∈ order (map_to_list s) ->
                        config.Name kv.2 = kv.1 ∧ listed cfg kv.2).
    { intros [k v] Hkv. rewrite Horder in Hkv. apply elem_of_map_to_list in Hkv.
      by apply Hkeyed. }
    assert (Hnames : config.Name <$> (order (map_to_list s)).*2 = (order (map_to_list s)).*1).
    { induction (order (map_to_list s)) as [|kv l IH]; [reflexivity|].
      rewrite !fmap_cons. f_equal.
      - apply Hin. apply elem_of_cons; by left.
      - apply IH. intros kv' Hkv'. apply Hin. apply elem_of_cons; by right. }
    split.
    + rewrite Hnames, Horder. apply NoDup_fst_map_to_list.
    + intros r Hr. apply list_elem_of_fmap in Hr as (kv & -> & Hkv). by apply Hin.
Qed.

End Catalog.

Lemma conclude_result m repo result targetSHA sha tr r :
  Success result = false ->
  conclude m repo result targetSHA sha = (tr, Returned r) ->
  RepoName r = RepoName result ∧ RepoURL r = RepoURL result ∧
  (Success r = true -> CommitSHA r = sha).
Proof.
  intros Hfalse. unfold conclude.
  destruct (locked m && negb (String.eqb targetSHA "") && negb (String.eqb sha targetSHA)).
  - destruct (slice_to 8 targetSHA), (slice_to 8 sha); try discriminate.
    intros [= _ <-]. simpl. rewrite Hfalse. repeat split; discriminate.
  - destruct (ui m); [destruct (slice_to 8 sha); [|discriminate]|];
      intros [= _ <-]; simpl; repeat split; reflexivity.
Qed.

(** A task that returns reports on its own repository, and reports
    success only with the reference the transport part resolved. *)
Lemma syncRepository_result fuel m repo env tr r :
  syncRepository fuel m repo env = (tr, Returned r) ->
  RepoName r = config.Name repo ∧ RepoURL r = config.URL repo ∧
  (Success r = true ->
   ∃ t, resolve fuel m repo env = (t, Returned (inl (CommitSHA r)))).
Proof.
  unfold syncRepository. destruct (lockedTarget m repo) as [t1 [targetSHA|e]].
  - destruct (resolve fuel m repo env) as [t2 [[sha|e]| |]] eqn:Hres; try discriminate.
    + destruct (conclude m repo _ targetSHA sha) as [t3 out] eqn:Hc.
      intros [= _ ->].
      apply conclude_result in Hc as (H1 & H2 & H3); [|reflexivity].
      split; [exact H1|]. split; [exact H2|].
      intros Hs. exists t2. by rewrite (H3 Hs).
    + intros [= _ <-]. simpl. repeat split; discriminate.
  - intros [= _ <-]. simpl. repeat split; discriminate.
Qed.

Lemma collect_cons {A} (o : Outcome A) outs results :
  collect (o :: outs) = Returned results ->
  ∃ a rest, o = Returned a ∧ collect outs = Returned rest ∧ results = a :: rest.
Proof.
  simpl. destruct o as [a| |], (collect outs) as [rest| |]; try discriminate.
  intros [= <-]. by exists a, rest.
Qed.

Lemma runTasks_results fuel m env repos :
  ∀ idx t outs results,
    runTasks fuel m repos idx env = (t, outs) ->
    collect outs = Returned results ->
    Forall2 (fun repo r =>
               ∃ i tr, syncRepository fuel m repo (envTask env i) = (tr, Returned r))
            repos results.
Proof.
  induction repos as [|repo rest IH]; intros idx t outs results; simpl.
  - intros [= _ <-]. simpl. intros [= <-]. constructor.
  - destruct (syncRepository fuel m repo (envTask env idx)) as [t1 o] eqn:Hsync.
    destruct (runTasks fuel m rest (S idx) env) as [ts os] eqn:Hrest.
    intros [= _ <-] Hcollect.
    apply collect_cons in Hcollect as (a & results' & -> & Hc & ->).
    constructor; [by exists idx, t1 | by eapply IH].
Qed.

Section Update.
Variable cfg : config.Config.
Variable clock : nat -> Z.


End Update.


(** A task looks at the presence of the UI only, not at its state. *)
Lemma sendProgress_WithUI m msg :
  ui m = true -> sendProgress (WithUI true m) msg = sendProgress m msg.
Proof. intros Hui. unfold sendProgress. cbn [ui WithUI]. by rewrite Hui. Qed.

Lemma drainLoop_WithUI m repo updates :
  ui m = true ->
  ∀ sha, drainLoop (WithUI true m) repo updates sha = drainLoop m repo updates sha.
Proof.
  intros Hui. induction updates as [|u rest IH]; intros sha; cbn [drainLoop]; [reflexivity|].
  rewrite (sendProgress_WithUI _ _ Hui). destruct (updError u); [reflexivity|].
  by rewrite IH.
Qed.

Lemma resolve_WithUI fuel m repo e :
  ui m = true -> resolve fuel (WithUI true m) repo e = resolve fuel m repo e.
Proof.
  intros Hui. unfold resolve.
  change (getRepoPath (WithUI true m) repo) with (getRepoPath m repo).
  change (config (WithUI true m)) with (config m).
  destruct (downloader.NewFromRepository repo (config m)) as [dl|err];
    [|by rewrite (sendProgress_WithUI _ _ Hui)].
  destruct (if downloader.envExists e
            then downloader.UpdateWithProgress fuel dl (getRepoPath m repo) e
            else downloader.DownloadWithProgress fuel dl (config.URL repo)
                   (getRepoPath m repo) e) as [dl' [[sha ch] [err|]]];
    [by rewrite (sendProgress_WithUI _ _ Hui)|].
  destruct ch as [|[produced|]]; try reflexivity.
  rewrite (drainLoop_WithUI _ _ _ Hui).
  destruct (drainLoop m repo (drained produced) sha) as [t1 [sha'|err]]; [|reflexivity].
  destruct (String.eqb sha' ""); [|reflexivity].
  destruct (downloader.GetCurrentRef dl' (getRepoPath m repo) e) as [t2 [cur|err]];
    [reflexivity|]. by rewrite (sendProgress_WithUI _ _ Hui).
Qed.

Lemma syncRepository_WithUI fuel m repo e :
  ui m = true ->
  syncRepository fuel (WithUI true m) repo e = syncRepository fuel m repo e.
Proof.
  intros Hui. unfold syncRepository.
  rewrite (resolve_WithUI _ _ _ _ Hui), !(sendProgress_WithUI _ _ Hui).
  change (lockedTarget (WithUI true m) repo) with (lockedTarget m repo).
  destruct (lockedTarget m repo) as [t1 [targetSHA|err]];
    [|by rewrite ?(sendProgress_WithUI _ _ Hui)].
  destruct (resolve fuel m repo e) as [t2 [[sha|err]| |]]; try reflexivity.
  unfold conclude. cbn [ui locked WithUI]. rewrite Hui.
  destruct (locked m && _ && _); [|reflexivity].
  destruct (slice_to 8 targetSHA), (slice_to 8 sha);
    by rewrite ?(sendProgress_WithUI _ _ Hui).
Qed.

Lemma runTasks_WithUI fuel m env repos :
  ui m = true ->
  ∀ idx, runTasks fuel (WithUI true m) repos idx env = runTasks fuel m repos idx env.
Proof.
  intros Hui. induction repos as [|r rest IH]; intros idx; cbn [runTasks]; [reflexivity|].
  by rewrite (syncRepository_WithUI _ _ _ _ Hui), IH.
Qed.


(** What a [Sync] that returns a report has done: it selected nothing,
    or ran the tasks of the selection, collected their results and
    updated the Lock Store with them. *)
Lemma Sync_returned fuel m filter env m' tr report :
  Sync fuel m filter env = (m', tr, Returned (inl report)) ->
  ∃ repos,
    getRepositories (envMapOrder env) m filter = inl repos ∧
    ((repos = [] ∧ m' = m ∧ report = emptySyncResult) ∨
     ∃ t outs results t3,
       runTasks fuel (WithUI true m) repos 0 env = (t, outs) ∧
       collect outs = Returned results ∧
       updateLockFile m (envClock env) results = (t3, lockFile m') ∧
       report = NewSyncResult results).
Proof.
  unfold Sync. destruct (envWorkDirErr env); [discriminate|].
  destruct (getRepositories (envMapOrder env) m filter) as [repos|e]; [|discriminate].
  intros Hsync. exists repos. split; [reflexivity|].
  destruct (bool_decide (length repos = 0%nat)) eqn:Hlen.
  { apply bool_decide_eq_true in Hlen. destruct repos; [|discriminate].
    left. by injection Hsync as <- _ <-. }
  right.
  assert (Hcore : ∀ mu,
            runTasks fuel mu repos 0 env = runTasks fuel (WithUI true m) repos 0 env ->
            (∀ results, updateLockFile mu (envClock env) results =
                        updateLockFile m (envClock env) results) ->
            ∀ m2 t2,
              syncAll fuel mu repos env = (m2, t2, Returned (inl report)) ->
              ∃ t outs results t3,
                runTasks fuel (WithUI true m) repos 0 env = (t, outs) ∧
                collect outs = Returned results ∧
                updateLockFile m (envClock env) results = (t3, lockFile m2) ∧
                report = NewSyncResult results).
  { intros mu Hrun Hupd m2 t2. unfold syncAll. rewrite Hrun.
    destruct (runTasks fuel (WithUI true m) repos 0 env) as [t outs] eqn:Htasks.
    destruct (collect outs) as [results| |] eqn:Hcollect; try discriminate.
    rewrite Hupd.
    destruct (updateLockFile m (envClock env) results) as [t3 lf'] eqn:Hlock.
    destruct (uiDone mu); [discriminate|]. intros [= <- _ <-].
    exists t, outs, results, t3. by repeat split. }
  destruct (ui m) eqn:Hui.
  - destruct (syncAll fuel m repos env) as [[m2 t2] out] eqn:Hall.
    injection Hsync as <- _ ->.
    apply (Hcore m (eq_sym (runTasks_WithUI _ _ _ _ Hui 0%nat)) ltac:(reflexivity) _ _ Hall).
  - destruct (envUIStartErr env); [discriminate|].
    destruct (syncAll fuel (WithUI true m) repos env) as [[m2 t2] out] eqn:Hall.
    injection Hsync as <- _ ->.
    apply (Hcore (WithUI true m) eq_refl ltac:(reflexivity) _ _ Hall).
Qed.





Example sync_three_report :
  let lf : lockfile.LockFile :=
    <["blob" := sample.entry (config.URL sample.blob) sample.digest]> ∅ in
  let m := NewRepositoryManager sample.cfg [WithLockFile (Some lf)] in
  let '(m', _, out) := Sync 10 m sample.everything (sample.mixedEnv sample.shaA) in
  (match out with
   | Returned (inl report) =>
       (TotalRepos report, SuccessCount report, FailureCount report) = (3, 2, 1)
   | _ => False
   end) ∧
  (match lockFile m' with
   | Some lf' =>
       lockfile.ResolvedSHA <$> lf' !! "alpha" = Some sample.shaA ∧
       lockfile.RequestedRef <$> lf' !! "alpha" = Some "main" ∧
       lockfile.RequestedRef <$> lf' !! "beta" = Some "v1.2" ∧
       lf' !! "blob" = lf !! "blob"
   | None => False
   end).
Proof. vm_compute. repeat split. Qed.

End Recording.

(* ===================================================================== *)
(** ** The concurrency bound *)
(* ===================================================================== *)

Module Scheduling.
Import scheduler.

Lemma count_insert p l :
  ∀ i x y, l !! i = Some y ->
    (count p (<[i:=x]> l) + (if p y then 1 else 0) =
     count p l + (if p x then 1 else 0))%nat.
Proof.
  induction l as [|t rest IH]; intros [|i] x y Hy; simpl in *; try discriminate.
  - injection Hy as ->. lia.
  - specialize (IH i x y Hy). lia.
Qed.

Lemma count_pos p l :
  (0 < count p l)%nat -> ∃ i t, l !! i = Some t ∧ p t = true.
Proof.
  induction l as [|t rest IH]; simpl; [lia|].
  destruct (p t) eqn:Ht.
  - intros _. by exists 0%nat, t.
  - intros H. destruct (IH H) as (i & t' & Hi & Ht'). by exists (S i), t'.
Qed.

Lemma all_done l :
  count isNotSpawned l = 0%nat -> count isQueued l = 0%nat -> count isRunning l = 0%nat ->
  count isFinished l = 0%nat -> count isReleased l = 0%nat ->
  Forall (fun t => t = Done) l.
Proof.
  induction l as [|t rest IH]; [constructor|].
  simpl. destruct t; simpl; try lia. intros. constructor; [reflexivity | by apply IH].
Qed.

Lemma count_replicate_NotSpawned p n :
  count p (replicate n NotSpawned) = (if p NotSpawned then n else 0)%nat.
Proof.
  induction n as [|n IH]; simpl; [by destruct (p NotSpawned)|].
  rewrite IH. by destruct (p NotSpawned).
Qed.

Lemma invariant_initial N n : invariant N (initial n).
Proof.
  unfold invariant, initial, holders. simpl.
  rewrite !count_replicate_NotSpawned, length_replicate. simpl.
  repeat split; try lia.
  intros i Hi. apply lookup_replicate_2. lia.
Qed.

(** The five counts after the task at [Hi] moved to [x]. *)
Ltac recount Hi x :=
  pose proof (count_insert isQueued _ _ x _ Hi);
  pose proof (count_insert isRunning _ _ x _ Hi);
  pose proof (count_insert isFinished _ _ x _ Hi);
  pose proof (count_insert isReleased _ _ x _ Hi);
  pose proof (count_insert isNotSpawned _ _ x _ Hi);
  simpl in *; rewrite length_insert.

(** A task that is spawned moves: the caller's part of the invariant is
    kept, since the slots still to spawn are other slots. *)
Ltac caller_kept s i Hi Hmain :=
  destruct (main s) as [k| |];
  [ destruct Hmain as (Hle & Hns & Hrest); repeat split; try lia;
    intros j Hj; destruct (decide (i = j)) as [->|Hne];
    [ rewrite (Hrest j Hj) in Hi; discriminate
    | rewrite list_lookup_insert_ne by done; by apply Hrest ]
  | lia
  | exfalso; eapply Forall_lookup_1 in Hmain; [|exact Hi]; discriminate ].

Lemma invariant_step N s s' : invariant N s -> step N s s' -> invariant N s'.
Proof.
  intros (Hsem & Hcap & Hwg & Hmain) Hstep. unfold invariant, holders in *.
  destruct Hstep as [s k Hm Hk | s k Hm Hk | s i Hi Hlt | s i ok Hi
                    | s i ok c Hi Hc | s i c Hi Hc | s Hm Hw]; cbn [sem wg tasks main] in *.
  - rewrite Hm in Hmain. destruct Hmain as (Hle & Hns & Hrest).
    pose proof (lookup_lt_Some _ _ _ Hk) as Hklt.
    recount Hk Queued. repeat split; try lia.
    intros i Hi. rewrite list_lookup_insert_ne by lia. apply Hrest. lia.
  - rewrite Hm in Hmain. destruct Hmain as (Hle & Hns & Hrest).
    repeat split; try lia.
  - recount Hi Running. repeat split; try lia. caller_kept s i Hi Hmain.
  - recount Hi (Finished ok). repeat split; try lia. caller_kept s i Hi Hmain.
  - recount Hi Released. repeat split; try lia. caller_kept s i Hi Hmain.
  - recount Hi Done. repeat split; try lia. caller_kept s i Hi Hmain.
  - rewrite Hm in Hmain. repeat split; try lia.
    apply all_done; lia.
Qed.

Lemma reachable_invariant N n s : reachable N n s -> invariant N s ∧ length (tasks s) = n.
Proof.
  induction 1 as [|s s' _ [IH Hlen] Hstep].
  - split; [apply invariant_initial | apply length_replicate].
  - split; [by eapply invariant_step|].
    destruct Hstep; cbn [tasks]; rewrite ?length_insert; exact Hlen.
Qed.

(** No deadlock: with at least one permit, a run that is not over can
    take a step. *)
Lemma invariant_progress N s :
  (1 ≤ N)%nat -> invariant N s -> main s ≠ Past -> ∃ s', step N s s'.
Proof.
  intros HN (Hsem & Hcap & Hwg & Hmain) Hnot. unfold holders in *.
  destruct (main s) as [k| |] eqn:Hm; [| |done].
  - destruct Hmain as (Hle & Hns & Hrest).
    destruct (decide (k = length (tasks s))) as [Heq|Hne].
    + eexists. by eapply step_spawned.
    + eexists. eapply step_spawn; [exact Hm|]. apply Hrest. lia.
  - destruct (wg s) as [|c] eqn:Hw; [eexists; by eapply step_join|].
    destruct (decide (0 < count isRunning (tasks s))%nat) as [Hr|Hr].
    { apply count_pos in Hr as (i & t & Hi & Ht). destruct t; try discriminate.
      eexists. by eapply (step_finish N s i true). }
    destruct (decide (0 < count isFinished (tasks s))%nat) as [Hf|Hf].
    { pose proof Hf as Hpos.
      apply count_pos in Hf as (i & t & Hi & Ht). destruct t; try discriminate.
      destruct (sem s) as [|p] eqn:Hs; [lia|].
      eexists. by eapply step_release. }
    destruct (decide (0 < count isReleased (tasks s))%nat) as [Hd|Hd].
    { apply count_pos in Hd as (i & t & Hi & Ht). destruct t; try discriminate.
      eexists. by eapply step_done. }
    assert (0 < count isQueued (tasks s))%nat as Hq by lia.
    apply count_pos in Hq as (i & t & Hi & Ht). destruct t; try discriminate.
    eexists. eapply step_acquire; [exact Hi | lia].
Qed.

(** C9. The concurrency bound of a manager is 4 unless a positive
    override is given, so the semaphore has at least one permit.  In every
    state of a run with [N >= 1] permits: at most [N] transport
    operations are in flight; the permits taken are exactly those of the
    tasks between their acquire and their release, so a task works only
    while holding one; a task that is over gives its permit back whatever
    its outcome; the call gets past [wg.Wait()] only when every task is
    done; and until then some goroutine can always take a step. *)
Theorem sync_concurrency_bound (N n : nat) (s : State) :
  (1 ≤ N)%nat ->
  reachable N n s ->
  (inFlight s ≤ N)%nat ∧
  sem s = holders s ∧
  (∀ i ok, tasks s !! i = Some (Finished ok) ->
     ∃ s', step N s s' ∧ tasks s' !! i = Some Released ∧ S (sem s') = sem s) ∧
  (main s = Past -> length (tasks s) = n ∧ Forall (fun t => t = Done) (tasks s)) ∧
  (main s ≠ Past -> ∃ s', step N s s') ∧
  (∀ cfg, manager.concurrent (manager.NewRepositoryManager cfg []) = 4) ∧
  (∀ cfg k,
     manager.concurrent (manager.NewRepositoryManager cfg [manager.WithConcurrency k])
       = (if (0 <? k)%Z then k else 4) ∧
     (1 ≤ manager.newSemaphore
            (manager.concurrent
               (manager.NewRepositoryManager cfg [manager.WithConcurrency k])))%nat).
Proof.
  intros HN Hreach. destruct (reachable_invariant N n s Hreach) as [Hinv Hlen].
  pose proof Hinv as (Hsem & Hcap & Hwg & Hmain).
  split; [unfold inFlight, holders in *; lia|].
  split; [exact Hsem|].
  split.
  { intros i ok Hi. unfold holders in Hsem.
    destruct (sem s) as [|p] eqn:Hs.
    - assert (0 < count isFinished (tasks s))%nat; [|lia].
      clear -Hi. revert i Hi. induction (tasks s) as [|t rest IH]; intros [|i] Hi;
        simpl in *; try discriminate.
      + injection Hi as ->. simpl. lia.
      + specialize (IH i Hi). lia.
    - eexists. split; [by eapply (step_release N s i ok p)|]. cbn [tasks sem].
      split; [|reflexivity]. apply list_lookup_insert_eq. by eapply lookup_lt_Some. }
  split.
  { intros Hpast. rewrite Hpast in Hmain. by split. }
  split; [by apply invariant_progress|].
  split; [reflexivity|].
  intros cfg k. unfold manager.NewRepositoryManager, manager.WithConcurrency,
    manager.newSemaphore. simpl.
  destruct (0 <? k)%Z eqn:Hk; simpl; [|split; [reflexivity | lia]].
  apply Z.ltb_lt in Hk. split; [reflexivity | lia].
Qed.

(** Three repositories and four permits, after the first goroutine was
    spawned and took its permit. *)
Lemma sync_concurrency_bound_witness :
  let s := {| sem := 1; wg := 1; tasks := [Running; NotSpawned; NotSpawned];
              main := Spawning 1 |} in
  (inFlight s ≤ 4)%nat ∧ sem s = holders s ∧
  (main s ≠ Past -> ∃ s', step 4 s s').
Proof.
  intros s.
  assert (Hreach : reachable 4 3 s).
  { apply (reach_step 4 3 {| sem := 0; wg := 1; tasks := [Queued; NotSpawned; NotSpawned];
                             main := Spawning 1 |}).
    - apply (reach_step 4 3 (initial 3)); [apply reach_init|].
      apply (step_spawn 4 (initial 3) 0); reflexivity.
    - apply (step_acquire 4 {| sem := 0; wg := 1;
                               tasks := [Queued; NotSpawned; NotSpawned];
                               main := Spawning 1 |} 0); [reflexivity | simpl; lia]. }
  destruct (sync_concurrency_bound 4 3 s ltac:(lia) Hreach) as (H1 & H2 & _ & _ & H5 & _).
  split; [exact H1|]. split; [exact H2 | exact H5].
Defined.

End Scheduling.

(* ===================================================================== *)
(** ** The report *)
(* ===================================================================== *)

Module Report.
Import types manager.

Lemma countResults_spec results :
  ∀ succ fail,
    countResults results succ fail =
      (succ + Z.of_nat (length (List.filter Success results)),
       fail + Z.of_nat (length (List.filter (fun r => negb (Success r)) results))).
Proof.
  induction results as [|r rest IH]; intros succ fail; simpl.
  - f_equal; lia.
  - destruct (Success r); simpl; rewrite IH; f_equal; lia.
Qed.

Lemma filter_split {A} (p : A -> bool) (l : list A) :
  (length (List.filter p l) + length (List.filter (fun x => negb (p x)) l))%nat = length l.
Proof. induction l as [|x rest IH]; simpl; [reflexivity|]. destruct (p x); simpl; lia. Qed.

Lemma NewSyncResult_totals results :
  Results (NewSyncResult results) = results ∧
  TotalRepos (NewSyncResult results) = Z.of_nat (length results) ∧
  SuccessCount (NewSyncResult results) + FailureCount (NewSyncResult results) =
    TotalRepos (NewSyncResult results).
Proof.
  unfold NewSyncResult. rewrite countResults_spec.
  cbn [Results TotalRepos SuccessCount FailureCount].
  pose proof (filter_split Success results). repeat split; lia.
Qed.

(** X1. The report of a batch: the successes and the failures add up to
    the total, which is the number of results; the failure count is the
    number of [FailedResults], which are the failed results in their
    order; and [HasFailures] holds exactly when some result failed. *)
Theorem report_counts results :
  let sr := NewSyncResult results in
  Results sr = results ∧
  TotalRepos sr = Z.of_nat (length results) ∧
  SuccessCount sr + FailureCount sr = TotalRepos sr ∧
  0 <= SuccessCount sr ∧ 0 <= FailureCount sr ∧
  FailureCount sr = Z.of_nat (length (report.FailedResults sr)) ∧
  (∀ r, r ∈ report.FailedResults sr ↔ r ∈ results ∧ Success r = false) ∧
  (HasFailures sr = true ↔ ∃ r, r ∈ results ∧ Success r = false).
Proof.
  unfold NewSyncResult, report.FailedResults, HasFailures.
  rewrite countResults_spec. cbn [Results TotalRepos SuccessCount FailureCount].
  pose proof (filter_split Success results) as Hsplit.
  assert (Hmem : ∀ r, r ∈ List.filter (fun r => negb (Success r)) results ↔
                      r ∈ results ∧ Success r = false).
  { intros r. rewrite !list_elem_of_In, List.filter_In.
    by rewrite negb_true_iff. }
  repeat apply conj; try reflexivity; try lia; [exact Hmem | |].
  - rewrite bool_decide_eq_true. intros Hpos.
    destruct (List.filter (fun r => negb (Success r)) results) as [|r rest] eqn:Hf;
      [simpl in Hpos; lia|].
    exists r. apply Hmem. rewrite ?Hf. apply elem_of_cons; by left.
  - rewrite bool_decide_eq_true. intros (r & Hr). apply Hmem in Hr.
    destruct (List.filter (fun r => negb (Success r)) results); [inversion Hr|].
    simpl. lia.
Qed.

(** X2. A result is a success exactly when it carries no error; it echoes
    the name, URL, branch and tag of its repository; and a failed result
    carries no resolved reference. *)
Theorem task_result_invariant fuel m repo env tr r :
  syncRepository fuel m repo env = (tr, Returned r) ->
  (Success r = true ↔ Error r = None) ∧
  RepoName r = config.Name repo ∧ RepoURL r = config.URL repo ∧
  Branch r = config.Branch repo ∧ Tag r = config.Tag repo ∧
  (Success r = false -> CommitSHA r = "").
Proof.
  unfold syncRepository. destruct (lockedTarget m repo) as [t1 [targetSHA|e]].
  - destruct (resolve fuel m repo env) as [t2 [[sha|e]| |]]; try discriminate.
    + unfold conclude.
      destruct (locked m && negb (String.eqb targetSHA "") &&
                negb (String.eqb sha targetSHA)).
      * destruct (slice_to 8 targetSHA), (slice_to 8 sha); try discriminate.
        intros [= _ <-]. simpl. repeat split; try discriminate; reflexivity.
      * destruct (ui m); [destruct (slice_to 8 sha); [|discriminate]|];
          intros [= _ <-]; simpl; repeat split; try discriminate; reflexivity.
    + intros [= _ <-]. simpl. repeat split; try discriminate; reflexivity.
  - intros [= _ <-]. simpl. repeat split; try discriminate; reflexivity.
Qed.

Lemma task_result_invariant_witness :
  ∃ tr r,
    syncRepository 10 (NewRepositoryManager sample.cfg [WithLockFile (Some lockfile.New)])
      sample.beta (sample.taskEnv false sample.shaA) = (tr, Returned r) ∧
    (Success r = true ↔ Error r = None) ∧
    RepoName r = "beta" ∧ Tag r = "v1.2".
Proof.
  eexists _, _. split; [vm_compute; reflexivity|].
  destruct (task_result_invariant 10
              (NewRepositoryManager sample.cfg [WithLockFile (Some lockfile.New)])
              sample.beta (sample.taskEnv false sample.shaA) _ _ eq_refl)
    as (H1 & H2 & _ & _ & H5 & _).
  split; [exact H1|]. split; [exact H2 | exact H5].
Defined.

(** X3. A [Sync] that returns a report lists one result per selected
    repository, in the order of the selection, and counts them all. *)
Theorem sync_report_order fuel m filter env m' tr report :
  Sync fuel m filter env = (m', tr, Returned (inl report)) ->
  ∃ repos,
    getRepositories (envMapOrder env) m filter = inl repos ∧
    RepoName <$> Results report = config.Name <$> repos ∧
    RepoURL <$> Results report = config.URL <$> repos ∧
    TotalRepos report = Z.of_nat (length repos) ∧
    SuccessCount report + FailureCount report = TotalRepos report.
Proof.
  intros Hsync.
  destruct (Recording.Sync_returned _ _ _ _ _ _ _ Hsync)
    as (repos & Hsel & [(Hnil & _ & ->)|(t & outs & results & t3 & Hrun & Hcollect & _ & ->)]);
    exists repos; (split; [exact Hsel|]); [subst repos; by repeat split|].
  pose proof (Recording.runTasks_results _ _ _ _ _ _ _ _ Hrun Hcollect) as Hall.
  destruct (NewSyncResult_totals results) as (Hres & Htot & Hsum).
  rewrite Hres, Htot in *.
  assert (Hfields : RepoName <$> results = config.Name <$> repos ∧
                    RepoURL <$> results = config.URL <$> repos).
  { clear -Hall. induction Hall as [|repo r repos results (i & tr & Hs) _ [IH1 IH2]];
      [by split|].
    destruct (Recording.syncRepository_result _ _ _ _ _ _ Hs) as (Hn & Hu & _).
    rewrite !fmap_cons, IH1, IH2, Hn, Hu. by split. }
  destruct Hfields as [Hn Hu]. split; [exact Hn|]. split; [exact Hu|].
  split; [|exact Hsum]. f_equal.
  rewrite <- (length_fmap RepoName results), Hn. apply length_fmap.
Qed.

Lemma sync_report_order_witness :
  ∃ m' tr report,
    Sync 10 (NewRepositoryManager sample.cfg [WithLockFile (Some lockfile.New)])
      sample.everything (sample.mixedEnv sample.shaA) = (m', tr, Returned (inl report)) ∧
    RepoName <$> Results report = ["alpha"; "beta"; "blob"] ∧
    TotalRepos report = 3.
Proof.
  eexists _, _, _. split; [vm_compute; reflexivity|].
  destruct (sync_report_order 10
              (NewRepositoryManager sample.cfg [WithLockFile (Some lockfile.New)])
              sample.everything (sample.mixedEnv sample.shaA) _ _ _ eq_refl)
    as (repos & Hsel & Hn & _ & Ht & _).
  vm_compute in Hsel. injection Hsel as <-. split; [exact Hn | exact Ht].
Defined.

End Report.

(* ===================================================================== *)
(** ** The Lock Store *)
(* ===================================================================== *)

Module LockStore.
Import lockfile lockstore.

Lemma Has_true (lf : LockFile) name : Has lf name = true ↔ is_Some (lf !! name).
Proof.
  unfold Has. destruct (lf !! name); split; done.
Qed.

(** X4. [Remove] tells whether the name was locked; afterwards the name
    is not locked, every other entry is what it was, and the store has
    one entry less exactly when one was removed. *)
Theorem lock_remove (lf : LockFile) name :
  (Remove lf name).2 = Has lf name ∧
  Has (Remove lf name).1 name = false ∧
  GetResolvedSHA (Remove lf name).1 name = None ∧
  (∀ other, other ≠ name -> Get (Remove lf name).1 other = Get lf other) ∧
  Len (Remove lf name).1 = Len lf - (if Has lf name then 1 else 0).
Proof.
  unfold Remove, Has, GetResolvedSHA, Get, Len.
  destruct (lf !! name) as [e|] eqn:He; cbn [fst snd].
  - rewrite lookup_delete_eq. repeat split.
    + intros other Hne. by rewrite lookup_delete_ne.
    + pose proof (map_size_delete name lf) as Hs. rewrite He in Hs.
      assert (size lf ≠ 0%nat).
      { intros H0. apply map_size_empty_inv in H0. subst lf.
        by rewrite lookup_empty in He. }
      lia.
  - rewrite He. repeat split. lia.
Qed.

(** X5. Recording a sync and asking again: after [Update] with a new
    entry for a requested reference, the name is locked to the resolved
    reference, [ShouldUpdate] is false for that requested reference and
    true for any other, the entry is stale exactly for the other
    references, other names answer as before, and the store grew by one
    exactly when the name was new.  A name that is not locked always
    should update. *)
Theorem lock_update_then_ask (lf : LockFile) name url repoType ref sha now ref' :
  let lf' := Update lf name (NewEntry url repoType ref sha now) in
  GetResolvedSHA lf' name = Some sha ∧
  Has lf' name = true ∧
  ShouldUpdate lf' name ref' = negb (String.eqb ref ref') ∧
  ShouldUpdate lf' name ref' = IsStale (NewEntry url repoType ref sha now) ref' ∧
  (∀ other, other ≠ name ->
     ShouldUpdate lf' other ref' = ShouldUpdate lf other ref' ∧
     Get lf' other = Get lf other) ∧
  Len lf' = Len lf + (if Has lf name then 0 else 1) ∧
  (Has lf name = false -> ShouldUpdate lf name ref' = true).
Proof.
  unfold Update, GetResolvedSHA, Has, ShouldUpdate, IsStale, Get, Len. cbn zeta.
  rewrite lookup_insert_eq. cbn [RequestedRef ResolvedSHA NewEntry].
  repeat split.
  all: try (by rewrite lookup_insert_ne).
  - destruct (lf !! name) as [e|] eqn:He.
    + rewrite map_size_insert_Some by done. lia.
    + rewrite map_size_insert_None by done. lia.
  - by destruct (lf !! name).
Qed.

(** X6. With a map iteration that visits every entry once, [Names] lists
    each locked name once: it has no duplicates, holds exactly the locked
    names, and is as long as [Len] says.  A cleared store has none. *)
Theorem lock_names order (lf : LockFile) :
  (∀ l, order l ≡ₚ l) ->
  NoDup (Names order lf) ∧
  (∀ name, name ∈ Names order lf ↔ Has lf name = true) ∧
  Z.of_nat (length (Names order lf)) = Len lf ∧
  Names order (Clear lf) = [] ∧ Len (Clear lf) = 0.
Proof.
  intros Horder. unfold Names, Len, Clear.
  split; [rewrite Horder; apply NoDup_fst_map_to_list|]. split.
  - intros name. rewrite Has_true. rewrite list_elem_of_fmap. split.
    + intros ([k e] & -> & Hin). rewrite Horder in Hin.
      apply elem_of_map_to_list in Hin. by eexists.
    + intros [e He]. exists (name, e). split; [reflexivity|].
      rewrite Horder. by apply elem_of_map_to_list.
  - split; [by rewrite length_fmap, Horder, length_map_to_list|].
    rewrite map_to_list_empty.
    pose proof (Horder []) as Hnil. apply Permutation_nil_r in Hnil. rewrite Hnil.
    split; [reflexivity|]. by rewrite map_size_empty.
Qed.

Lemma lock_names_witness :
  let lf : LockFile :=
    Update (Update New "alpha" (sample.entry "u" sample.shaA)) "beta"
      (sample.entry "v" sample.shaB) in
  NoDup (Names (fun l => l) lf) ∧ Z.of_nat (length (Names (fun l => l) lf)) = 2.
Proof.
  intros lf.
  destruct (lock_names (fun l => l) lf ltac:(intros l; reflexivity)) as (H1 & _ & H3 & _).
  split; [exact H1|]. rewrite H3. reflexivity.
Defined.

End LockStore.

(* ===================================================================== *)
(** ** Changing the catalog *)
(* ===================================================================== *)

Module Catalog.
Import config catalog.

Lemma findRepository_app_None repos extra name :
  findRepository repos name = None ->
  findRepository (repos ++ extra) name = findRepository extra name.
Proof.
  induction repos as [|h rest IH]; simpl; [done|].
  destruct (String.eqb (Name h) name); [discriminate | exact IH].
Qed.

Lemma findRepository_app_Some repos extra name r :
  findRepository repos name = Some r ->
  findRepository (repos ++ extra) name = Some r.
Proof.
  induction repos as [|h rest IH]; simpl; [discriminate|].
  destruct (String.eqb (Name h) name); [done | exact IH].
Qed.

Lemma findRepository_None repos name :
  findRepository repos name = None ↔ name ∉ Name <$> repos.
Proof.
  induction repos as [|h rest IH]; simpl.
  - split; [intros _ H; inversion H | done].
  - rewrite ?fmap_cons, not_elem_of_cons.
    destruct (String.eqb (Name h) name) eqn:Heq.
    + apply String.eqb_eq in Heq. split; [discriminate | intros [H _]; congruence].
    + apply String.eqb_neq in Heq. rewrite IH. split; [by split | by intros [_ H]].
Qed.

(** X7. [AddRepository] fails exactly when the name is taken, and then
    changes nothing; otherwise the new repository is appended: it is found
    under its name, every other name answers as before, the projects are
    untouched, and distinct names stay distinct. *)
Theorem add_repository c repo :
  match AddRepository c repo with
  | inr err =>
      is_Some (GetRepository c (Name repo)) ∧
      err = Errorf ("repository already exists: " +:+ Name repo)
  | inl c' =>
      GetRepository c (Name repo) = None ∧
      Repositories c' = Repositories c ++ [repo] ∧
      GetRepository c' (Name repo) = Some repo ∧
      (∀ name, name ≠ Name repo -> GetRepository c' name = GetRepository c name) ∧
      Projects c' = Projects c ∧
      (NoDup (Name <$> Repositories c) -> NoDup (Name <$> Repositories c'))
  end.
Proof.
  unfold AddRepository, GetRepository.
  destruct (findRepository (Repositories c) (Name repo)) as [r|] eqn:Hfind.
  - split; [by eexists | reflexivity].
  - cbn [setRepositories Repositories Projects]. repeat split.
    + rewrite (findRepository_app_None _ _ _ Hfind). simpl. by rewrite String.eqb_refl.
    + intros name Hne.
      destruct (findRepository (Repositories c) name) as [r|] eqn:Hn.
      * by apply findRepository_app_Some.
      * rewrite (findRepository_app_None _ _ _ Hn). simpl.
        destruct (String.eqb (Name repo) name) eqn:Heq; [|reflexivity].
        apply String.eqb_eq in Heq. congruence.
    + intros Hnd. rewrite fmap_app. apply NoDup_app. split; [exact Hnd|].
      split; [|simpl; apply NoDup_singleton].
      intros name Hin Hin'. simpl in Hin'. apply list_elem_of_singleton in Hin' as ->.
      by apply findRepository_None in Hfind.
Qed.

Lemma removeRepository_spec repos name :
  match removeRepository repos name with
  | None => name ∉ Name <$> repos
  | Some repos' =>
      ∃ before r after,
        repos = before ++ r :: after ∧ repos' = before ++ after ∧
        Name r = name ∧ name ∉ Name <$> before
  end.
Proof.
  induction repos as [|h rest IH]; simpl; [intros H; inversion H|].
  destruct (String.eqb (Name h) name) eqn:Heq.
  - apply String.eqb_eq in Heq. exists [], h, rest. repeat split; [exact Heq|].
    intros H; inversion H.
  - apply String.eqb_neq in Heq.
    destruct (removeRepository rest name) as [rest'|].
    + destruct IH as (before & r & after & -> & -> & Hr & Hb).
      exists (h :: before), r, after. repeat split; [exact Hr|].
      rewrite ?fmap_cons, not_elem_of_cons. by split.
    + rewrite ?fmap_cons, not_elem_of_cons. by split.
Qed.

(** What [RemoveRepository] does to the look-ups. *)
Lemma RemoveRepository_spec c name :
  NoDup (Name <$> Repositories c) ->
  match RemoveRepository c name with
  | inr err =>
      GetRepository c name = None ∧ err = Errorf ("repository not found: " +:+ name)
  | inl c' =>
      is_Some (GetRepository c name) ∧
      GetRepository c' name = None ∧
      (∀ other, other ≠ name -> GetRepository c' other = GetRepository c other) ∧
      Projects c' = Projects c
  end.
Proof.
  intros Hnd. unfold RemoveRepository, GetRepository.
  pose proof (removeRepository_spec (Repositories c) name) as Hspec.
  destruct (removeRepository (Repositories c) name) as [repos'|].
  - destruct Hspec as (before & r & after & Hc & -> & Hr & Hb).
    cbn [setRepositories Repositories Projects]. rewrite Hc in *.
    rewrite fmap_app, fmap_cons in Hnd.
    apply NoDup_app in Hnd as (Hnb & Hdisj & Hna).
    apply NoDup_cons in Hna as [Hra Hna].
    assert (Hbn : findRepository before name = None) by (by apply findRepository_None).
    repeat split.
    + rewrite (findRepository_app_None _ _ _ Hbn). simpl.
      rewrite <- Hr, String.eqb_refl. by eexists.
    + rewrite (findRepository_app_None _ _ _ Hbn). apply findRepository_None.
      by rewrite <- Hr.
    + intros other Hne.
      destruct (findRepository before other) as [x|] eqn:Hbo.
      * by rewrite !(findRepository_app_Some _ _ _ _ Hbo).
      * rewrite !(findRepository_app_None _ _ _ Hbo). simpl.
        destruct (String.eqb (Name r) other) eqn:Heq; [|reflexivity].
        apply String.eqb_eq in Heq. congruence.
  - split; [by apply findRepository_None | reflexivity].
Qed.

(** X8. On a catalog of distinct names [RemoveRepository] fails exactly
    when the name is unknown; otherwise the named repository is gone,
    every other name answers as before, the catalog is one shorter and
    its names are still distinct. *)
Theorem remove_repository c name :
  NoDup (Name <$> Repositories c) ->
  match RemoveRepository c name with
  | inr err =>
      GetRepository c name = None ∧ err = Errorf ("repository not found: " +:+ name)
  | inl c' =>
      is_Some (GetRepository c name) ∧
      GetRepository c' name = None ∧
      (∀ other, other ≠ name -> GetRepository c' other = GetRepository c other) ∧
      S (length (Repositories c')) = length (Repositories c) ∧
      Projects c' = Projects c ∧
      NoDup (Name <$> Repositories c')
  end.
Proof.
  intros Hnd. pose proof (RemoveRepository_spec c name Hnd) as Hlook.
  unfold RemoveRepository in *.
  pose proof (removeRepository_spec (Repositories c) name) as Hspec.
  destruct (removeRepository (Repositories c) name) as [repos'|]; [|exact Hlook].
  destruct Hlook as (Hknown & Hgone & Hother & Hprojs).
  destruct Hspec as (before & r & after & Hc & -> & Hr & Hb).
  split; [exact Hknown|]. split; [exact Hgone|]. split; [exact Hother|].
  cbn [setRepositories Repositories]. rewrite Hc in *. split; [|split; [exact Hprojs|]].
  - rewrite !length_app. simpl. lia.
  - rewrite fmap_app, fmap_cons in Hnd.
    apply NoDup_app in Hnd as (Hnb & Hdisj & Hna).
    apply NoDup_cons in Hna as [_ Hna].
    rewrite fmap_app. apply NoDup_app. split; [exact Hnb|]. split; [|exact Hna].
    intros x Hx Hx'. apply (Hdisj x Hx). apply elem_of_cons; by right.
Qed.

Lemma remove_repository_witness :
  match RemoveRepository sample.cfg "beta" with
  | inl c' =>
      GetRepository c' "beta" = None ∧ GetRepository c' "blob" = Some sample.blob ∧
      length (Repositories c') = 2%nat
  | inr _ => False
  end.
Proof.
  pose proof (remove_repository sample.cfg "beta"
                ltac:(apply (bool_decide_unpack _); vm_compute; exact I)) as H.
  destruct (RemoveRepository sample.cfg "beta") as [c'|err] eqn:Hrm;
    [|vm_compute in Hrm; discriminate].
  destruct H as (_ & Hgone & Hother & Hlen & _).
  split; [exact Hgone|]. split.
  - rewrite Hother by discriminate. reflexivity.
  - simpl in Hlen. lia.
Defined.

Lemma setRepositories_id c : setRepositories c (Repositories c) = c.
Proof. by destruct c. Qed.

(** X9. Adding a repository and removing it again gives the configuration
    back. *)
Theorem add_then_remove c repo c' :
  AddRepository c repo = inl c' ->
  RemoveRepository c' (Name repo) = inl c.
Proof.
  unfold AddRepository.
  destruct (GetRepository c (Name repo)) eqn:Hfind; [discriminate|].
  intros [= <-]. unfold RemoveRepository. cbn [setRepositories Repositories].
  assert (Hrm : removeRepository (Repositories c ++ [repo]) (Name repo)
                = Some (Repositories c)).
  { unfold GetRepository in Hfind. induction (Repositories c) as [|h rest IH]; simpl.
    - by rewrite String.eqb_refl.
    - simpl in Hfind. destruct (String.eqb (Name h) (Name repo)); [discriminate|].
      by rewrite (IH Hfind). }
  rewrite Hrm. f_equal. unfold setRepositories. simpl. by destruct c.
Qed.

Lemma add_then_remove_witness :
  ∃ c',
    AddRepository sample.emptyCfg sample.alpha = inl c' ∧
    RemoveRepository c' "alpha" = inl sample.emptyCfg.
Proof.
  eexists. split; [reflexivity|].
  apply (add_then_remove sample.emptyCfg sample.alpha). reflexivity.
Defined.

End Catalog.

(* ===================================================================== *)
(** ** Projects *)
(* ===================================================================== *)

Module Projects.
Import config catalog.

Lemma removeName_added names r :
  existsb (fun x => String.eqb x r) names = false ->
  removeName (names ++ [r]) r = Some names.
Proof.
  induction names as [|n rest IH]; simpl.
  - intros _. by rewrite String.eqb_refl.
  - destruct (String.eqb n r); [discriminate|]. simpl. intros H. by rewrite (IH H).
Qed.

Lemma addRepoToProject_spec projs p r :
  match addRepoToProject projs p r with
  | inl projs' =>
      ∃ proj,
        findProject projs p = Some proj ∧ HasRepository proj r = false ∧
        findProject projs' p =
          Some {| projName := projName proj;
                  projRepositories := projRepositories proj ++ [r] |} ∧
        (∀ q, q ≠ p -> findProject projs' q = findProject projs q) ∧
        removeRepoFromProject projs' p r = inl projs
  | inr _ =>
      findProject projs p = None ∨
      ∃ proj, findProject projs p = Some proj ∧ HasRepository proj r = true
  end.
Proof.
  induction projs as [|h rest IH]; simpl; [by left|].
  destruct (String.eqb (projName h) p) eqn:Hp.
  - destruct (HasRepository h r) eqn:Hhas.
    + right. by exists h.
    + exists h. simpl. rewrite Hp. unfold HasRepository in Hhas.
      rewrite (removeName_added _ _ Hhas).
      split; [reflexivity|]. split; [exact Hhas|]. split; [reflexivity|]. split.
      * intros q Hq. apply String.eqb_eq in Hp.
        destruct (String.eqb (projName h) q) eqn:Hq'; [|reflexivity].
        apply String.eqb_eq in Hq'. congruence.
      * by destruct h.
  - destruct (addRepoToProject rest p r) as [rest'|err].
    + destruct IH as (proj & Hf & Hhas & Hf' & Hother & Hback).
      exists proj. simpl. rewrite Hp, Hback.
      split; [exact Hf|]. split; [exact Hhas|]. split; [exact Hf'|]. split; [|reflexivity].
      intros q Hq. destruct (String.eqb (projName h) q); [reflexivity | by apply Hother].
    + exact IH.
Qed.

Lemma setProjects_id c : setProjects c (Projects c) = c.
Proof. by destruct c. Qed.

(** X10. [AddRepoToProject] fails exactly when the repository is unknown,
    the project is unknown, or the project lists the repository already.
    Otherwise the project lists its old names followed by the new one,
    the other projects and the catalog are untouched, and
    [RemoveRepoFromProject] of the same pair gives the configuration
    back. *)
Theorem add_repo_to_project c p r :
  match AddRepoToProject c p r with
  | inl c' =>
      is_Some (GetRepository c r) ∧
      (∃ proj,
         GetProject c p = Some proj ∧ HasRepository proj r = false ∧
         GetProject c' p =
           Some {| projName := projName proj;
                   projRepositories := projRepositories proj ++ [r] |}) ∧
      (∀ q, q ≠ p -> GetProject c' q = GetProject c q) ∧
      Repositories c' = Repositories c ∧
      RemoveRepoFromProject c' p r = inl c
  | inr _ =>
      GetRepository c r = None ∨ GetProject c p = None ∨
      ∃ proj, GetProject c p = Some proj ∧ HasRepository proj r = true
  end.
Proof.
  unfold AddRepoToProject, RemoveRepoFromProject, GetProject.
  destruct (GetRepository c r) as [repo|] eqn:Hr; [|by left].
  pose proof (addRepoToProject_spec (Projects c) p r) as Hspec.
  destruct (addRepoToProject (Projects c) p r) as [projs'|err].
  - destruct Hspec as (proj & Hf & Hhas & Hf' & Hother & Hback).
    cbn [setProjects Projects Repositories]. rewrite Hback.
    split; [by eexists|]. split; [by exists proj|]. split; [exact Hother|].
    split; [reflexivity|]. f_equal. by destruct c.
  - right. exact Hspec.
Qed.

(** X11. A project that [RepositoryManager.AddProject] accepted resolves:
    its name was free and non-empty, every repository it lists is in the
    catalog, and [GetRepositoriesForProject] returns exactly those
    repositories, in the listed order.  A rejected project leaves the
    manager as it was. *)
Theorem add_project_resolves m proj :
  match orchestrator.AddProject m proj with
  | (m', None) =>
      projName proj ≠ "" ∧
      GetProject (manager.config m) (projName proj) = None ∧
      GetProject (manager.config m') (projName proj) = Some proj ∧
      Repositories (manager.config m') = Repositories (manager.config m) ∧
      manager.lockFile m' = manager.lockFile m ∧
      ∃ repos,
        GetRepositoriesForProject (manager.config m') (projName proj) = inl repos ∧
        Name <$> repos = projRepositories proj
  | (m', Some _) => m' = m
  end.
Proof.
  unfold orchestrator.AddProject.
  destruct (String.eqb (projName proj) "") eqn:Hname; [reflexivity|].
  apply String.eqb_neq in Hname.
  destruct (orchestrator.firstUnknown (manager.config m) (projRepositories proj))
    as [unknown|] eqn:Hknown; [reflexivity|].
  unfold AddProject.
  destruct (GetProject (manager.config m) (projName proj)) eqn:Hfree; [reflexivity|].
  cbn [orchestrator.setConfig manager.config manager.lockFile setProjects
       Repositories Projects].
  assert (Hfound : GetProject (setProjects (manager.config m)
                                 (Projects (manager.config m) ++ [proj]))
                     (projName proj) = Some proj).
  { unfold GetProject in *. cbn [setProjects Projects].
    induction (Projects (manager.config m)) as [|h rest IH]; simpl.
    - by rewrite String.eqb_refl.
    - simpl in Hfree. destruct (String.eqb (projName h) (projName proj)); [discriminate|].
      by apply IH. }
  split; [exact Hname|]. split; [reflexivity|]. split; [exact Hfound|].
  split; [reflexivity|]. split; [reflexivity|].
  unfold GetRepositoriesForProject. rewrite Hfound.
  assert (Hloop : ∀ names acc,
            orchestrator.firstUnknown (manager.config m) names = None ->
            ∃ repos,
              collectProjectRepos
                (setProjects (manager.config m) (Projects (manager.config m) ++ [proj]))
                (projName proj) names acc = inl (acc ++ repos) ∧
              Name <$> repos = names).
  { induction names as [|n rest IH]; intros acc; simpl.
    - intros _. exists []. by rewrite app_nil_r.
    - unfold GetRepository. cbn [setProjects Repositories].
      destruct (findRepository (Repositories (manager.config m)) n) as [repo|] eqn:Hn;
        [|discriminate].
      intros Hrest. destruct (IH (acc ++ [repo]) Hrest) as (repos & Hc & Hnames).
      exists (repo :: repos). rewrite Hc, <- app_assoc. split; [reflexivity|].
      rewrite fmap_cons, Hnames. f_equal.
      apply (Recording.findRepository_Some _ _ _ Hn). }
  destruct (Hloop (projRepositories proj) [] Hknown) as (repos & Hc & Hnames).
  exists repos. by split.
Qed.

(** X12. [RemoveRepository] does not look at the projects: once a
    repository that a project lists is removed from a catalog of distinct
    names, that project no longer resolves, and a selection by that
    project fails. *)
Theorem remove_leaves_project_dangling order m p proj name cfg' filter :
  NoDup (Name <$> Repositories (manager.config m)) ->
  GetProject (manager.config m) p = Some proj ->
  name ∈ projRepositories proj ->
  RemoveRepository (manager.config m) name = inl cfg' ->
  manager.All filter = false ->
  manager.Names filter = [] ->
  manager.Projects filter = [p] ->
  Projects cfg' = Projects (manager.config m) ∧
  (∃ err, GetRepositoriesForProject cfg' p = inr err) ∧
  (∃ err, manager.getRepositories order (orchestrator.setConfig m cfg') filter = inr err).
Proof.
  intros Hnd Hproj Hin Hrm Hall Hnames Hprojs.
  pose proof (Catalog.RemoveRepository_spec (manager.config m) name Hnd) as Hspec.
  rewrite Hrm in Hspec. destruct Hspec as (_ & Hgone & _ & Hsame).
  assert (Hfail : ∃ err, GetRepositoriesForProject cfg' p = inr err).
  { unfold GetRepositoriesForProject, GetProject in *. rewrite Hsame, Hproj.
    assert (Hloop : ∀ names acc, name ∈ names ->
              ∃ err, collectProjectRepos cfg' p names acc = inr err).
    { induction names as [|n rest IH]; intros acc Hn; [inversion Hn|]. simpl.
      destruct (GetRepository cfg' n) as [repo|] eqn:Hrepo; [|by eexists].
      apply elem_of_cons in Hn as [->|Hn]; [congruence|]. by apply IH. }
    by apply Hloop. }
  split; [exact Hsame|]. split; [exact Hfail|].
  destruct Hfail as [err Herr].
  unfold manager.getRepositories. rewrite Hall, Hnames, Hprojs.
  assert (Hone : bool_decide (length [p] = 0%nat) = false) by reflexivity.
  rewrite Hone, andb_false_r. cbn [orb andb manager.addNames manager.addProjects
                                   orchestrator.setConfig manager.config].
  rewrite Herr. by eexists.
Qed.

Lemma remove_leaves_project_dangling_witness :
  ∃ cfg',
    RemoveRepository sample2.cfgWithProject "alpha" = inl cfg' ∧
    ∃ err, GetRepositoriesForProject cfg' "backend" = inr err.
Proof.
  eexists. split; [reflexivity|].
  pose (m := manager.NewRepositoryManager sample2.cfgWithProject []).
  pose (f := {| manager.Names := []; manager.Projects := ["backend"];
                manager.Tags := []; manager.All := false |}).
  match goal with
  | |- ∃ err, GetRepositoriesForProject ?c _ = _ =>
      destruct (remove_leaves_project_dangling (fun l => l) m "backend" sample2.backend
                  "alpha" c f) as (_ & H & _); try reflexivity
  end.
  - apply (bool_decide_unpack _). vm_compute. exact I.
  - apply elem_of_cons; by left.
  - exact H.
Defined.

End Projects.

(* ===================================================================== *)
(** ** Validating a configuration *)
(* ===================================================================== *)

Module Validation.
Import config catalog.
#[local] Set Warnings "-clear-no-such-hyp".

Section Checks.
Variable urlParse : string -> ParsedURL + error.

Lemma refCount_bounds repo : 0 <= refCount repo <= 3.
Proof.
  unfold refCount.
  destruct (negb _), (negb _), (negb _); lia.
Qed.

Lemma validateRepository_None repo i :
  validateRepository urlParse repo i = None ↔ wellFormed urlParse repo.
Proof.
  unfold validateRepository, wellFormed.
  destruct (String.eqb (Name repo) "") eqn:Hn.
  { apply String.eqb_eq in Hn. split; [discriminate | by intros [H _]]. }
  apply String.eqb_neq in Hn.
  destruct (String.eqb (URL repo) "") eqn:Hu.
  { apply String.eqb_eq in Hu. split; [discriminate | by intros (_ & H & _)]. }
  apply String.eqb_neq in Hu.
  destruct (validateURL urlParse (URL repo)) as [msg|] eqn:Hv.
  { split; [discriminate | by intros (_ & _ & H & _)]. }
  destruct (String.eqb (Type_ repo) "") eqn:Ht.
  { apply String.eqb_eq in Ht. split; [discriminate|].
    intros (_ & _ & _ & [H|H] & _); rewrite Ht in H; discriminate. }
  assert (Hkind : negb (String.eqb (Type_ repo) RepoTypeGit) &&
                  negb (String.eqb (Type_ repo) RepoTypeHTTP) = false ↔
                  (Type_ repo = RepoTypeGit ∨ Type_ repo = RepoTypeHTTP)).
  { destruct (String.eqb_spec (Type_ repo) RepoTypeGit) as [Hg|Hg];
      destruct (String.eqb_spec (Type_ repo) RepoTypeHTTP) as [Hh|Hh]; cbn [negb andb];
      split; auto; try discriminate. by intros [H|H]. }
  destruct (negb (String.eqb (Type_ repo) RepoTypeGit) &&
            negb (String.eqb (Type_ repo) RepoTypeHTTP)) eqn:Hk.
  { split; [discriminate|]. intros (_ & _ & _ & H & _). apply Hkind in H. discriminate. }
  destruct (1 <? refCount repo)%Z eqn:Hc.
  - apply Z.ltb_lt in Hc. split; [discriminate | intros (_ & _ & _ & _ & H); lia].
  - apply Z.ltb_ge in Hc. split; [intros _ | reflexivity].
    split; [exact Hn|]. split; [exact Hu|]. split; [reflexivity|].
    split; [by apply Hkind | exact Hc].
Qed.

Lemma validateRepositories_spec repos :
  ∀ i seen,
    match validateRepositories urlParse repos i seen with
    | inl names =>
        Forall (wellFormed urlParse) repos ∧ NoDup (Name <$> repos) ∧
        (∀ r, r ∈ repos -> Name r ∉ seen) ∧
        names = list_to_set (Name <$> repos) ∪ seen
    | inr _ =>
        ¬ (Forall (wellFormed urlParse) repos ∧ NoDup (Name <$> repos) ∧
           ∀ r, r ∈ repos -> Name r ∉ seen)
    end.
Proof.
  induction repos as [|repo rest IH]; intros i seen; cbn [validateRepositories].
  - split; [constructor|]. split; [constructor|]. split; [intros r Hr; inversion Hr|].
    simpl. set_solver.
  - destruct (validateRepository urlParse repo i) as [err|] eqn:Hv.
    { intros (Hwf & _). apply Forall_cons in Hwf as [Hwf _].
      apply (validateRepository_None repo i) in Hwf. congruence. }
    apply validateRepository_None in Hv.
    destruct (bool_decide (Name repo ∈ seen)) eqn:Hseen.
    { apply bool_decide_eq_true in Hseen. intros (_ & _ & Hfresh).
      apply (Hfresh repo); [apply elem_of_cons; by left | exact Hseen]. }
    apply bool_decide_eq_false in Hseen.
    specialize (IH (S i) ({[Name repo]} ∪ seen)).
    destruct (validateRepositories urlParse rest (S i) ({[Name repo]} ∪ seen))
      as [names|err].
    + destruct IH as (Hwf & Hnd & Hfresh & ->).
      split; [by constructor|]. split.
      * rewrite fmap_cons. apply NoDup_cons. split; [|exact Hnd].
        intros Hin. apply list_elem_of_fmap in Hin as (r & Hr & Hin).
        apply (Hfresh r Hin). rewrite <- Hr. set_solver.
      * split.
        -- intros r Hr. apply elem_of_cons in Hr as [->|Hr]; [exact Hseen|].
           specialize (Hfresh r Hr). set_solver.
        -- rewrite fmap_cons. simpl. set_solver.
    + intros (Hwf & Hnd & Hfresh). apply IH.
      apply Forall_cons in Hwf as [_ Hwf]. rewrite fmap_cons in Hnd.
      apply NoDup_cons in Hnd as [Hhead Hnd].
      split; [exact Hwf|]. split; [exact Hnd|].
      intros r Hr. apply not_elem_of_union. split.
      * intros Heq. apply elem_of_singleton in Heq. apply Hhead. rewrite <- Heq.
        by apply list_elem_of_fmap_2.
      * apply Hfresh. apply elem_of_cons; by right.
Qed.

Lemma validateProjectRepos_None prefix names repoNames :
  ∀ i, validateProjectRepos prefix names i repoNames = None ↔
       ∀ n, n ∈ names -> n ∈ repoNames.
Proof.
  induction names as [|n rest IH]; intros i; simpl.
  - split; [intros _ n Hn; inversion Hn | reflexivity].
  - destruct (bool_decide (n ∈ repoNames)) eqn:Hn.
    + apply bool_decide_eq_true in Hn. rewrite IH. split.
      * intros H x Hx. apply elem_of_cons in Hx as [->|Hx]; [exact Hn | by apply H].
      * intros H x Hx. apply H. apply elem_of_cons; by right.
    + apply bool_decide_eq_false in Hn. split; [discriminate|].
      intros H. exfalso. apply Hn, H. apply elem_of_cons; by left.
Qed.

Lemma validateProjects_None projs repoNames :
  ∀ i seen,
    validateProjects projs i repoNames seen = None ↔
    Forall (fun p => projName p ≠ "" ∧ ∀ n, n ∈ projRepositories p -> n ∈ repoNames)
      projs ∧
    NoDup (projName <$> projs) ∧
    ∀ p, p ∈ projs -> projName p ∉ seen.
Proof.
  induction projs as [|proj rest IH]; intros i seen; cbn [validateProjects].
  - split; [|reflexivity]. intros _. split; [constructor|]. split; [constructor|].
    intros p Hp. inversion Hp.
  - unfold validateProject.
    destruct (String.eqb (projName proj) "") eqn:Hname.
    { apply String.eqb_eq in Hname. split; [discriminate|].
      intros (Hall & _). apply Forall_cons in Hall as [[H _] _]. congruence. }
    apply String.eqb_neq in Hname.
    match goal with
    | |- context [validateProjectRepos ?pre ?ns ?k ?rn] =>
        destruct (validateProjectRepos pre ns k rn) as [err|] eqn:Hr
    end.
    { split; [discriminate|]. intros (Hall & _). apply Forall_cons in Hall as [[_ H] _].
      rewrite (proj2 (validateProjectRepos_None _ _ _ _) H) in Hr. discriminate. }
    pose proof (proj1 (validateProjectRepos_None _ _ _ _) Hr) as Hlisted. clear Hr.
    destruct (bool_decide (projName proj ∈ seen)) eqn:Hseen.
    { apply bool_decide_eq_true in Hseen. split; [discriminate|].
      intros (_ & _ & Hfresh). exfalso.
      apply (Hfresh proj); [apply elem_of_cons; by left | exact Hseen]. }
    apply bool_decide_eq_false in Hseen. rewrite IH. split.
    + intros (Hall & Hnd & Hfresh). split; [by constructor|]. split.
      * rewrite fmap_cons. apply NoDup_cons. split; [|exact Hnd].
        intros Hin. apply list_elem_of_fmap in Hin as (q & Hq & Hin).
        apply (Hfresh q Hin). rewrite <- Hq. set_solver.
      * intros p Hp. apply elem_of_cons in Hp as [->|Hp]; [exact Hseen|].
        specialize (Hfresh p Hp). set_solver.
    + intros (Hall & Hnd & Hfresh). apply Forall_cons in Hall as [_ Hall].
      rewrite fmap_cons in Hnd. apply NoDup_cons in Hnd as [Hhead Hnd].
      split; [exact Hall|]. split; [exact Hnd|].
      intros p Hp. apply not_elem_of_union. split.
      * intros Heq. apply elem_of_singleton in Heq. apply Hhead. rewrite <- Heq.
        by apply list_elem_of_fmap_2.
      * apply Hfresh. apply elem_of_cons; by right.
Qed.

(** X13. [ValidateConfig] accepts a configuration exactly when every
    repository has a name, a URL that [validateURL] accepts, the type
    [git] or [http] and at most one of branch, tag and commit; the
    repository names are distinct; every project has a name and lists
    only repositories of the catalog; and the project names are
    distinct. *)
Theorem validate_config_exact cfg :
  ValidateConfig urlParse cfg = None ↔
  Forall (wellFormed urlParse) (Repositories cfg) ∧
  NoDup (Name <$> Repositories cfg) ∧
  Forall (fun p => projName p ≠ "" ∧
                   ∀ n, n ∈ projRepositories p -> is_Some (GetRepository cfg n))
    (Projects cfg) ∧
  NoDup (projName <$> Projects cfg).
Proof.
  unfold ValidateConfig.
  pose proof (validateRepositories_spec (Repositories cfg) 0 ∅) as Hrepos.
  assert (Hknown : ∀ n, n ∈ (list_to_set (Name <$> Repositories cfg) ∪ ∅ : gset string) ↔
                        is_Some (GetRepository cfg n)).
  { intros n. rewrite elem_of_union, elem_of_list_to_set. unfold GetRepository.
    destruct (findRepository (Repositories cfg) n) as [r|] eqn:Hf.
    - split; [by eexists|]. intros _. left.
      destruct (Recording.findRepository_Some _ _ _ Hf) as [<- Hin].
      by apply list_elem_of_fmap_2.
    - apply Catalog.findRepository_None in Hf. split; [|by intros [? ?]].
      intros [H|H]; [done | set_solver]. }
  destruct (validateRepositories urlParse (Repositories cfg) 0 ∅) as [names|err].
  - destruct Hrepos as (Hwf & Hnd & _ & ->). rewrite validateProjects_None. split.
    + intros (Hall & Hpnd & _). split; [exact Hwf|]. split; [exact Hnd|].
      split; [|exact Hpnd]. eapply Forall_impl; [exact Hall|].
      intros p [Hn Hr]. split; [exact Hn|]. intros n Hin. by apply Hknown, Hr.
    + intros (_ & _ & Hall & Hpnd). split; [|split; [exact Hpnd | set_solver]].
      eapply Forall_impl; [exact Hall|].
      intros p [Hn Hr]. split; [exact Hn|]. intros n Hin. by apply Hknown, Hr.
  - split; [discriminate|]. intros (Hwf & Hnd & _). exfalso. apply Hrepos.
    split; [exact Hwf|]. split; [exact Hnd | set_solver].
Qed.

End Checks.

Lemma validate_config_exact_witness :
  ValidateConfig sample2.parseHTTPS sample2.cfgWithProject = None ∧
  NoDup (Name <$> Repositories sample2.cfgWithProject).
Proof.
  split; [reflexivity|].
  apply (validate_config_exact sample2.parseHTTPS sample2.cfgWithProject).
  vm_compute. reflexivity.
Defined.

End Validation.

(* ===================================================================== *)
(** ** The operations of the manager beside [Sync] *)
(* ===================================================================== *)

Module Operations.
Import types manager.

Lemma DetectType_kind url :
  detect.DetectType url = config.RepoTypeGit ∨ detect.DetectType url = config.RepoTypeHTTP.
Proof.
  unfold detect.DetectType.
  repeat match goal with |- context [if ?b then _ else _] => destruct b end; auto.
Qed.

Lemma withDefaults_fields repo :
  config.Name (orchestrator.withDefaults repo) = config.Name repo ∧
  config.URL (orchestrator.withDefaults repo) = config.URL repo ∧
  config.Type_ (orchestrator.withDefaults repo) =
    (if String.eqb (config.Type_ repo) "" then detect.DetectType (config.URL repo)
     else config.Type_ repo) ∧
  config.Path (orchestrator.withDefaults repo) =
    (if String.eqb (config.Path repo) "" then config.Name repo else config.Path repo).
Proof.
  unfold orchestrator.withDefaults.
  destruct (String.eqb (config.Type_ repo) "") eqn:Ht;
    cbn [orchestrator.setType config.Path config.Name];
    destruct (String.eqb (config.Path repo) "") eqn:Hp;
    cbn [orchestrator.setType orchestrator.setPath config.Path config.Name config.URL
         config.Type_]; rewrite ?Ht, ?Hp; auto.
Qed.

(** X14. [RepositoryManager.Add] succeeds exactly when the repository has
    a name and a URL and the name is free; the type is not checked.  The
    repository it stores is the given one with an empty type replaced by
    the type detected from the URL, which a downloader exists for, and an
    empty path replaced by the name; it is appended to the catalog and the
    Lock Store is not touched.  A refused repository leaves the manager
    as it was. *)
Theorem manager_add m repo opts :
  match orchestrator.Add m repo with
  | (m', None) =>
      config.Name repo ≠ "" ∧ config.URL repo ≠ "" ∧
      config.GetRepository (config m) (config.Name repo) = None ∧
      config.GetRepository (config m') (config.Name repo) =
        Some (orchestrator.withDefaults repo) ∧
      config.Repositories (config m') =
        config.Repositories (config m) ++ [orchestrator.withDefaults repo] ∧
      config.Path (orchestrator.withDefaults repo) ≠ "" ∧
      config.Type_ (orchestrator.withDefaults repo) ≠ "" ∧
      (config.Type_ repo = "" ->
       ∃ dl, downloader.New (config.Type_ (orchestrator.withDefaults repo)) opts = inl dl) ∧
      lockFile m' = lockFile m
  | (m', Some _) =>
      m' = m ∧
      (config.Name repo = "" ∨ config.URL repo = "" ∨
       is_Some (config.GetRepository (config m) (config.Name repo)))
  end.
Proof.
  destruct (withDefaults_fields repo) as (Hname & Hurl & Htype & Hpath).
  unfold orchestrator.Add. rewrite Hname, Hurl.
  destruct (String.eqb_spec (config.Name repo) "") as [Hn|Hn]; [by split; [|left]|].
  destruct (String.eqb_spec (config.URL repo) "") as [Hu|Hu];
    [by split; [|right; left]|].
  unfold catalog.AddRepository, config.GetRepository. rewrite Hname.
  destruct (config.findRepository (config.Repositories (config m)) (config.Name repo))
    as [r|] eqn:Hfind.
  { split; [reflexivity|]. right. right. by eexists. }
  cbn [orchestrator.setConfig config lockFile catalog.setRepositories config.Repositories].
  split; [exact Hn|]. split; [exact Hu|]. split; [reflexivity|]. split.
  { rewrite (Catalog.findRepository_app_None _ _ _ Hfind). simpl.
    by rewrite Hname, String.eqb_refl. }
  split; [reflexivity|]. split.
  { rewrite Hpath. by destruct (String.eqb_spec (config.Path repo) ""). }
  split.
  { rewrite Htype. destruct (String.eqb_spec (config.Type_ repo) "") as [_|Ht]; [|exact Ht].
    destruct (DetectType_kind (config.URL repo)) as [-> | ->]; discriminate. }
  split; [|reflexivity].
  intros Hempty. rewrite Htype, Hempty. cbn [String.eqb]. unfold downloader.New.
  destruct (DetectType_kind (config.URL repo)) as [-> | ->]; by eexists.
Qed.

(** X15. On a catalog of distinct names [RepositoryManager.Remove] fails
    exactly when the catalog does not know the name, and then changes
    nothing, also not a Lock Store entry of that name.  When it succeeds
    the name is gone from the catalog and from the Lock Store, and every
    other name answers as before in both. *)
Theorem manager_remove m name :
  NoDup (config.Name <$> config.Repositories (config m)) ->
  match orchestrator.Remove m name with
  | (m', None) =>
      is_Some (config.GetRepository (config m) name) ∧
      config.GetRepository (config m') name = None ∧
      (∀ other, other ≠ name ->
         config.GetRepository (config m') other = config.GetRepository (config m) other) ∧
      match lockFile m, lockFile m' with
      | Some lf, Some lf' =>
          lockfile.Has lf' name = false ∧
          ∀ other, other ≠ name -> lockfile.Get lf' other = lockfile.Get lf other
      | None, None => True
      | _, _ => False
      end
  | (m', Some _) => m' = m ∧ config.GetRepository (config m) name = None
  end.
Proof.
  intros Hnd. unfold orchestrator.Remove.
  pose proof (Catalog.RemoveRepository_spec (config m) name Hnd) as Hspec.
  destruct (catalog.RemoveRepository (config m) name) as [cfg'|err].
  - destruct Hspec as (Hknown & Hgone & Hother & _).
    cbn [orchestrator.setConfig lockFile].
    destruct (lockFile m) as [lf|] eqn:Hlf;
      cbn [setLockFile orchestrator.setConfig config lockFile]; rewrite ?Hlf;
      (split; [exact Hknown|]); (split; [exact Hgone|]); (split; [exact Hother|]);
      [|exact I].
    unfold lockfile.Remove, lockfile.Has, lockfile.Get.
    destruct (lf !! name) eqn:Hl; cbn [fst].
    + rewrite lookup_delete_eq. split; [reflexivity|].
      intros other Hne. by rewrite lookup_delete_ne.
    + rewrite Hl. by split.
  - destruct Hspec as [Hnone _]. by split.
Qed.

Lemma manager_remove_witness :
  match orchestrator.Remove
          (NewRepositoryManager sample.cfg
             [WithLockFile (Some (<["beta" := sample.entry "u" sample.shaA]> lockfile.New))])
          "beta" with
  | (m', None) =>
      config.GetRepository (config m') "beta" = None ∧
      config.GetRepository (config m') "blob" = Some sample.blob
  | _ => False
  end.
Proof.
  pose proof (manager_remove
                (NewRepositoryManager sample.cfg
                   [WithLockFile (Some (<["beta" := sample.entry "u" sample.shaA]>
                                          lockfile.New))])
                "beta" ltac:(apply (bool_decide_unpack _); vm_compute; exact I)) as H.
  destruct (orchestrator.Remove _ "beta") as [m' [err|]] eqn:Hrm;
    [vm_compute in Hrm; discriminate|].
  destruct H as (_ & Hgone & Hother & _). split; [exact Hgone|].
  rewrite Hother by discriminate. reflexivity.
Defined.

Lemma setLockFile_id m : setLockFile m (lockFile m) = m.
Proof. by destruct m. Qed.

(** The update of the Lock Store after one task leaves the manager as
    [SyncOne] leaves it, which skips the update for a failed task, a
    missing Lock Store and the locked mode. *)
Lemma updateLockFile_one m clock result :
  (Success result && bool_decide (is_Some (lockFile m)) && negb (locked m)) = false ->
  updateLockFile m clock [result] = ([], lockFile m).
Proof.
  unfold updateLockFile. destruct (lockFile m) as [lf|] eqn:Hlf; [|reflexivity].
  destruct (locked m); [reflexivity|].
  rewrite andb_true_r, andb_true_r. intros Hs. cbn [updateLoop]. by rewrite Hs.
Qed.

(** X16. [SyncOne] of a known name and [Sync] for the selection of that
    one name, when the manager has a UI: the same task runs in the same
    environment and the Lock Store ends up the same; errors, panics of
    the task and tasks that do not return coincide.  When the task
    returns, [Sync] calls [Complete] on the UI, which [SyncOne] does not:
    on a UI that has not completed it returns the report of just the
    result of [SyncOne] and leaves the UI completed; on a UI that has
    completed before, as after an earlier [Sync] of the same manager, it
    panics there, after the update of the Lock Store, where [SyncOne]
    returns. *)
Theorem sync_one_is_sync fuel m name env filter :
  ui m = true -> fairOrder env ->
  All filter = false -> Names filter = [name] ->
  manager.Projects filter = [] -> manager.Tags filter = [] ->
  is_Some (config.GetRepository (config m) name) ->
  match orchestrator.SyncOne fuel m name env with
  | (m1, tr1, Returned (inl result)) =>
      Sync fuel m filter env =
        if uiDone m then (m1, tr1 ++ [EUIComplete], Panicked)
        else (setUIDone m1, tr1 ++ [EUIComplete],
              Returned (inl (NewSyncResult [result])))
  | (m1, tr1, Returned (inr err)) => Sync fuel m filter env = (m1, tr1, Returned (inr err))
  | (m1, tr1, Panicked) => Sync fuel m filter env = (m1, tr1, Panicked)
  | (m1, tr1, Diverged) => Sync fuel m filter env = (m1, tr1, Diverged)
  end.
Proof.
  intros Hui Hfair Hall Hnames Hprojs Htags [repo Hrepo].
  unfold orchestrator.SyncOne, Sync. rewrite Hrepo.
  destruct (envWorkDirErr env); [reflexivity|].
  assert (Hsel : getRepositories (envMapOrder env) m filter = inl [repo]).
  { unfold getRepositories. rewrite Hall, Hnames, Hprojs, Htags.
    assert (Hone : bool_decide (length [name] = 0%nat) = false) by reflexivity.
    rewrite Hone. cbn [orb andb addNames addProjects addTags fold_left].
    rewrite Hrepo. f_equal.
    pose proof (Hfair (map_to_list (<[name := repo]> (∅ : gmap string config.Repository))))
      as Hperm.
    rewrite insert_empty, map_to_list_singleton in Hperm.
    apply Permutation_singleton_r in Hperm.
    rewrite insert_empty, map_to_list_singleton, Hperm. reflexivity. }
  rewrite Hsel, Hui.
  assert (Hlen : bool_decide (length [repo] = 0%nat) = false) by reflexivity.
  rewrite Hlen. unfold syncAll. cbn [runTasks].
  destruct (syncRepository fuel m repo (envTask env 0)) as [t1 out] eqn:Htask.
  rewrite app_nil_r.
  destruct out as [result| |]; cbn [collect]; try reflexivity.
  destruct (Success result && bool_decide (is_Some (lockFile m)) && negb (locked m))
    eqn:Hupd.
  - destruct (updateLockFile m (envClock env) [result]) as [t2 lf].
    change (uiDone (setLockFile m lf)) with (uiDone m).
    destruct (uiDone m); by rewrite <- !app_assoc.
  - rewrite (updateLockFile_one _ _ _ Hupd), setLockFile_id.
    destruct (uiDone m); by rewrite <- !app_assoc.
Qed.

Lemma sync_one_is_sync_witness :
  ∃ m1 tr1 result,
    orchestrator.SyncOne 10 (NewRepositoryManager sample.cfg
                               [WithLockFile (Some lockfile.New); WithUI true])
      "alpha" (sample.syncEnv false sample.shaA) = (m1, tr1, Returned (inl result)) ∧
    Sync 10 (NewRepositoryManager sample.cfg [WithLockFile (Some lockfile.New); WithUI true])
      (sample.byNames ["alpha"]) (sample.syncEnv false sample.shaA) =
      (setUIDone m1, tr1 ++ [EUIComplete], Returned (inl (NewSyncResult [result]))).
Proof.
  pose proof (sync_one_is_sync 10
                (NewRepositoryManager sample.cfg
                   [WithLockFile (Some lockfile.New); WithUI true])
                "alpha" (sample.syncEnv false sample.shaA) (sample.byNames ["alpha"])
                eq_refl ltac:(intros l; reflexivity) eq_refl eq_refl eq_refl eq_refl
                ltac:(eexists; reflexivity)) as H.
  destruct (orchestrator.SyncOne 10 _ "alpha" _) as [[m1 tr1] out] eqn:Hone.
  vm_compute in Hone. injection Hone as <- <- <-.
  eexists _, _, _. split; [reflexivity | exact H].
Defined.

(** A second [Sync] on the same manager: the first one completed the UI
    it had created, so the second one panics in [Complete], after its
    task has run and the Lock Store was updated. *)
Example second_sync_panics :
  let m := NewRepositoryManager sample.cfg [WithLockFile (Some lockfile.New)] in
  let m1 := (Sync 10 m (sample.byNames ["alpha"]) (sample.syncEnv false sample.shaA)).1.1 in
  uiDone m = false ∧ uiDone m1 = true ∧
  (Sync 10 m1 (sample.byNames ["alpha"]) (sample.syncEnv true sample.shaA)).2 = Panicked ∧
  ∃ result,
    (orchestrator.SyncOne 10 m1 "alpha" (sample.syncEnv true sample.shaA)).2 =
      Returned (inl result).
Proof. vm_compute. repeat split. by eexists. Qed.

(** X17. [SyncOne] looks the name up before anything else: for a name
    the catalog does not know it returns the error that [Sync] returns
    for the selection of that name, but without creating the working
    directory, which [Sync] does first. *)
Theorem sync_one_unknown fuel m name env filter :
  config.GetRepository (config m) name = None ->
  envWorkDirErr env = None ->
  All filter = false -> Names filter = [name] ->
  orchestrator.SyncOne fuel m name env =
    (m, [], Returned (inr (Errorf ("repository not found: " +:+ name)))) ∧
  Sync fuel m filter env =
    (m, [EMkdirWorkDir (workDir m)],
     Returned (inr (Errorf ("repository not found: " +:+ name)))).
Proof.
  intros Hnone Hdir Hall Hnames.
  unfold orchestrator.SyncOne, Sync, getRepositories.
  rewrite Hnone, Hdir, Hall, Hnames.
  assert (Hone : bool_decide (length [name] = 0%nat) = false) by reflexivity.
  rewrite Hone. cbn [orb andb addNames]. by rewrite Hnone.
Qed.

Lemma sync_one_unknown_witness :
  orchestrator.SyncOne 10 (NewRepositoryManager sample.cfg []) "gamma"
    (sample.syncEnv false sample.shaA) =
    (NewRepositoryManager sample.cfg [], [],
     Returned (inr (Errorf "repository not found: gamma"))).
Proof.
  apply (sync_one_unknown 10 (NewRepositoryManager sample.cfg []) "gamma"
           (sample.syncEnv false sample.shaA) (sample.byNames ["gamma"]));
    reflexivity.
Defined.

End Operations.

(* ===================================================================== *)
(** ** The status of a repository *)
(* ===================================================================== *)

Module StatusReport.
Import types manager.

(** X18. After a successful [SyncOne] with a Lock Store, not in locked
    mode, the status of that repository at an existing destination shows
    the synced reference as the locked one, needs an update exactly when
    the current reference differs from it, asks for the reference the
    lock entry was recorded for, and reads [ok] when the destination is
    clean, at the synced reference and was read without error. *)
Theorem status_after_sync_one fuel m name env lf repo m' tr result senv :
  lockFile m = Some lf -> locked m = false ->
  config.GetRepository (config m) name = Some repo ->
  orchestrator.SyncOne fuel m name env = (m', tr, Returned (inl result)) ->
  Success result = true ->
  downloader.envExists (orchestrator.senvTask senv) = true ->
  let st := orchestrator.getRepoStatus m' repo senv in
  orchestrator.stName st = name ∧ orchestrator.stExists st = true ∧
  orchestrator.stLockedSHA st = CommitSHA result ∧
  (orchestrator.stNeedsUpdate st = false ↔
   orchestrator.stCurrentSHA st = CommitSHA result) ∧
  (∃ lf', lockFile m' = Some lf' ∧
          lockfile.ShouldUpdate lf' name (orchestrator.stRequestedRef st) = false) ∧
  (orchestrator.stError st = None -> orchestrator.stIsDirty st = false ->
   orchestrator.stCurrentSHA st = CommitSHA result ->
   orchestrator.getStatusString st = "ok").
Proof.
  intros Hlf Hunlocked Hrepo Hsync Hsucc Hexists.
  destruct (Recording.findRepository_Some _ _ _ Hrepo) as [Hname _].
  unfold orchestrator.SyncOne in Hsync. rewrite Hrepo in Hsync.
  destruct (envWorkDirErr env); [discriminate|].
  destruct (syncRepository fuel m repo (envTask env 0)) as [t1 [r| |]] eqn:Htask;
    try discriminate.
  assert (r = result) as ->.
  { destruct (Success r && _ && _) in Hsync;
      [destruct (updateLockFile m (envClock env) [r])|]; by injection Hsync. }
  destruct (Recording.syncRepository_result _ _ _ _ _ _ Htask) as (Hrn & _).
  rewrite Hsucc, Hlf, Hunlocked in Hsync. unfold updateLockFile in Hsync.
  rewrite Hlf, Hunlocked in Hsync. cbn [updateLoop] in Hsync.
  rewrite Hsucc, Hrn, Hname, Hrepo in Hsync.
  cbn [negb andb bool_decide] in Hsync.
  rewrite bool_decide_eq_true_2 in Hsync by (by eexists).
  injection Hsync as <- _.
  unfold orchestrator.getRepoStatus. rewrite Hexists. cbn [negb].
  destruct (orchestrator.inspect repo _ senv) as [[[sha err] branch] dirty].
  cbn [lockFile setLockFile config]. unfold lockfile.Get, lockfile.Update.
  rewrite Hname, lookup_insert_eq.
  cbn [lockfile.ResolvedSHA lockfile.NewEntry orchestrator.stName orchestrator.stExists
       orchestrator.stLockedSHA orchestrator.stNeedsUpdate orchestrator.stCurrentSHA
       orchestrator.stRequestedRef orchestrator.stError orchestrator.stIsDirty].
  split; [reflexivity|]. split; [reflexivity|]. split; [reflexivity|]. split.
  { rewrite negb_false_iff. apply String.eqb_eq. }
  split.
  { eexists. split; [reflexivity|]. unfold lockfile.ShouldUpdate.
    rewrite lookup_insert_eq. cbn [lockfile.RequestedRef lockfile.NewEntry].
    by rewrite String.eqb_refl. }
  intros -> -> ->. unfold orchestrator.getStatusString.
  cbn [orchestrator.stError orchestrator.stExists orchestrator.stIsDirty
       orchestrator.stNeedsUpdate negb].
  by rewrite String.eqb_refl.
Qed.

Lemma status_after_sync_one_witness :
  ∃ m' tr result,
    orchestrator.SyncOne 10 (NewRepositoryManager sample.cfg [WithLockFile (Some lockfile.New)])
      "alpha" (sample.syncEnv false sample.shaA) = (m', tr, Returned (inl result)) ∧
    orchestrator.stLockedSHA
      (orchestrator.getRepoStatus m' sample.alpha (sample2.statusEnv sample.shaA)) =
      sample.shaA.
Proof.
  eexists _, _, _. split; [vm_compute; reflexivity|].
  destruct (status_after_sync_one 10
              (NewRepositoryManager sample.cfg [WithLockFile (Some lockfile.New)])
              "alpha" (sample.syncEnv false sample.shaA) lockfile.New sample.alpha _ _ _
              (sample2.statusEnv sample.shaA)
              eq_refl eq_refl eq_refl eq_refl eq_refl eq_refl) as (_ & _ & H & _).
  exact H.
Defined.

Lemma inspect_http repo path senv :
  config.Type_ repo = config.RepoTypeHTTP ->
  ∃ sha, orchestrator.inspect repo path senv = (sha, None, "", false).
Proof.
  intros Ht. unfold orchestrator.inspect. rewrite Ht.
  change (String.eqb config.RepoTypeHTTP config.RepoTypeGit) with false.
  change (String.eqb config.RepoTypeHTTP config.RepoTypeHTTP) with true. cbn iota.
  destruct (downloader.httpGetCurrentRef path _).2; by eexists.
Qed.

(** X19. When a status needs an update: a missing destination always
    does; an existing one does exactly when the manager has a Lock Store
    and that store has no entry for the repository or an entry whose
    resolved reference differs from the current one.  Without a Lock
    Store an existing destination never needs an update.  A repository
    of the plain-file kind never shows an error, a branch or a dirty
    tree. *)
Theorem status_needs_update m repo senv :
  let st := orchestrator.getRepoStatus m repo senv in
  orchestrator.stExists st = downloader.envExists (orchestrator.senvTask senv) ∧
  (orchestrator.stNeedsUpdate st = true ↔
   downloader.envExists (orchestrator.senvTask senv) = false ∨
   ∃ lf, lockFile m = Some lf ∧
         match lockfile.Get lf (config.Name repo) with
         | None => True
         | Some entry => orchestrator.stCurrentSHA st ≠ lockfile.ResolvedSHA entry
         end) ∧
  (config.Type_ repo = config.RepoTypeHTTP ->
   orchestrator.stError st = None ∧ orchestrator.stBranch st = "" ∧
   orchestrator.stIsDirty st = false).
Proof.
  unfold orchestrator.getRepoStatus.
  destruct (downloader.envExists (orchestrator.senvTask senv)); cbn [negb].
  - destruct (orchestrator.inspect repo (getRepoPath m repo) senv)
      as [[[sha err] branch] dirty] eqn:Hi.
    destruct (lockFile m) as [lf|];
      [destruct (lockfile.Get lf (config.Name repo)) as [entry|] eqn:Hget|];
      cbn [orchestrator.stExists orchestrator.stNeedsUpdate orchestrator.stCurrentSHA
           orchestrator.stError orchestrator.stBranch orchestrator.stIsDirty];
      (split; [reflexivity|]); split.
    + rewrite negb_true_iff. split.
      * intros Hne. right. exists lf. split; [reflexivity|]. rewrite Hget.
        by apply String.eqb_neq.
      * intros [Hf|(lf' & [= <-] & Hne)]; [discriminate|]. rewrite Hget in Hne.
        by apply String.eqb_neq.
    + intros Ht. destruct (inspect_http repo (getRepoPath m repo) senv Ht) as [s Hs].
      rewrite Hs in Hi. by injection Hi as _ <- <- <-.
    + split; [|reflexivity]. intros _. right. exists lf. split; [reflexivity|].
      by rewrite Hget.
    + intros Ht. destruct (inspect_http repo (getRepoPath m repo) senv Ht) as [s Hs].
      rewrite Hs in Hi. by injection Hi as _ <- <- <-.
    + split; [discriminate|]. intros [Hf|(lf' & Hf & _)]; discriminate.
    + intros Ht. destruct (inspect_http repo (getRepoPath m repo) senv Ht) as [s Hs].
      rewrite Hs in Hi. by injection Hi as _ <- <- <-.
  - cbn. split; [reflexivity|]. split; [|by intros _]. split; [by left | reflexivity].
Qed.

End StatusReport.

(* ===================================================================== *)
(** ** The blocking and the streaming variant of an operation *)
(* ===================================================================== *)

Module Agreement.
Import types downloader protocol.

Lemma drained_quiet_app pre rest :
  Forall (fun e => quiet e = true) pre ->
  drained (pre ++ rest) = drained pre ++ drained rest.
Proof.
  induction 1 as [|e pre He _ IH]; [reflexivity|].
  destruct e; try discriminate He; simpl; by rewrite IH.
Qed.

Lemma terminal_after pre rest u :
  Forall (fun e => quiet e = true) pre ->
  terminal rest = Some u -> terminal (pre ++ rest) = Some u.
Proof.
  unfold terminal. intros Hq Hl.
  rewrite <- app_assoc, (drained_quiet_app _ _ Hq), last_app. by rewrite Hl.
Qed.

Lemma terminal_cons e rest u :
  quiet e = true -> terminal rest = Some u -> terminal (e :: rest) = Some u.
Proof.
  intros He Hl. change (e :: rest) with ([e] ++ rest).
  apply terminal_after; [by repeat constructor | exact Hl].
Qed.

Lemma terminal_last u : terminal [ESend u] = Some u.
Proof. reflexivity. Qed.

Lemma actions_app a b : actions (a ++ b) = actions a ++ actions b.
Proof. apply List.filter_app. Qed.

Lemma actions_send u tr : actions (ESend u :: tr) = actions tr.
Proof. reflexivity. Qed.

Lemma actions_git dir args tr : actions (EGit dir args :: tr) = EGit dir args :: actions tr.
Proof. reflexivity. Qed.

Lemma actions_scanProgress tokens : actions (scanProgress tokens) = [].
Proof.
  induction tokens as [|t rest IH]; simpl; [reflexivity|].
  destruct (String.eqb (lineText t) ""); [exact IH|].
  rewrite actions_app, IH. by destruct (lineRoom t).
Qed.

Lemma actions_chunkProgress total chunks :
  ∀ done, actions (chunkProgress total chunks done) = [].
Proof.
  induction chunks as [|[n room] rest IH]; intros done; simpl; [reflexivity|].
  destruct (0 <? n)%Z; [|apply IH].
  rewrite actions_app, IH. by destruct ((0 <? total)%Z && room).
Qed.

Create Rewrite HintDb trace.
#[local] Hint Rewrite actions_send actions_git actions_app actions_scanProgress
  actions_chunkProgress app_nil_r : trace.

Ltac terminal_step :=
  first [ apply terminal_last
        | apply terminal_cons; [reflexivity|]
        | apply terminal_after; [apply Stream.scanProgress_quiet|] ].

(** X20. [Update] and [UpdateWithProgress] of the version-control
    transport do the same, when the pipe and the start of the streaming
    fetch succeed and [--progress] does not change the exit status of the
    fetch: they run the same commands after the fetch, [Update] returns
    a reference exactly when the stream ends with a [complete] update
    that carries it, and an error of the checkout or of reading HEAD is
    the same error in both. *)
Theorem git_update_variants_agree g destination env :
  gitPipeErr env = None -> gitStartErr env = None ->
  gitExit env destination ["fetch"; "--all"; "--force"; "--progress"] =
    gitExit env destination ["fetch"; "--all"; "--force"] ->
  ∃ rest,
    (gitUpdate g destination env).1.2 =
      EGit destination ["fetch"; "--all"; "--force"] :: rest ∧
    actions (gitUpdateBody g destination env) =
      EGit destination ["fetch"; "--all"; "--force"; "--progress"] :: rest ∧
    match (gitUpdate g destination env).2 with
    | inl sha =>
        terminal (gitUpdateBody g destination env) = Some (update PhaseComplete sha)
    | inr err =>
        ∃ err', terminal (gitUpdateBody g destination env) = Some (failure err') ∧
                (gitExit env destination ["fetch"; "--all"; "--force"] = None ->
                 err' = err)
    end.
Proof.
  intros Hpipe Hstart Hexit. unfold gitUpdate, gitUpdateBody.
  rewrite Hpipe, Hstart, Hexit.
  destruct (gitExit env destination ["fetch"; "--all"; "--force"]) as [e|] eqn:Hfetch.
  { exists []. cbn [fst snd]. autorewrite with trace. split; [reflexivity|].
    split; [reflexivity|]. eexists. split; [repeat terminal_step | discriminate]. }
  unfold checkoutRef, reportHead, getHeadSHA.
  destruct (checkoutTarget (gitOptions g)) as [ref|];
    [destruct (gitExit env destination ["checkout"; "--force"; ref])|];
    destruct (gitHead env) as [sha|e']; cbn [fst snd app];
    eexists; autorewrite with trace; cbn [actions List.filter app];
    (split; [reflexivity|]); (split; [reflexivity|]);
    try (eexists; split; [|reflexivity]); repeat terminal_step.
Qed.

Lemma git_update_variants_agree_witness :
  terminal (gitUpdateBody (NewGitDownloader sample2.tagged) "/work/beta"
              (sample.gitOk sample.shaB)) =
    Some (update PhaseComplete sample.shaB).
Proof.
  destruct (git_update_variants_agree (NewGitDownloader sample2.tagged) "/work/beta"
              (sample.gitOk sample.shaB) eq_refl eq_refl eq_refl) as (rest & _ & _ & H).
  exact H.
Defined.

(** X21. [Download] and [DownloadWithProgress] of the version-control
    transport do the same whenever a branch is not the only selector set
    (and the pipe and the start succeed, and [--progress] does not change
    the exit status of the clone): the clone commands differ by
    [--progress] only, the commands after the clone are the same,
    [Download] returns a reference exactly when the stream ends with a
    [complete] update that carries it, and an error after the clone is
    the same error in both. *)
Theorem git_download_variants_agree g source destination env :
  gitPipeErr env = None -> gitStartErr env = None ->
  gitExit env "" (cloneArgs (gitOptions g) true source destination) =
    gitExit env "" (cloneArgs (gitOptions g) false source destination) ->
  (nonEmpty (Branch (gitOptions g)) = true ->
   nonEmpty (Commit (gitOptions g)) || nonEmpty (Tag (gitOptions g)) = true) ->
  cloneArgs (gitOptions g) true source destination =
    "clone" :: "--progress" :: tail (cloneArgs (gitOptions g) false source destination) ∧
  ∃ rest,
    (gitDownload g source destination env).1.2 =
      EGit "" (cloneArgs (gitOptions g) false source destination) :: rest ∧
    actions (gitDownloadBody g source destination env) =
      EGit "" (cloneArgs (gitOptions g) true source destination) :: rest ∧
    match (gitDownload g source destination env).2 with
    | inl sha =>
        terminal (gitDownloadBody g source destination env) =
          Some (update PhaseComplete sha)
    | inr err =>
        ∃ err', terminal (gitDownloadBody g source destination env) =
                  Some (failure err') ∧
                (gitExit env "" (cloneArgs (gitOptions g) false source destination) = None ->
                 err' = err)
    end.
Proof.
  intros Hpipe Hstart Hexit Hsel. split; [reflexivity|].
  unfold gitDownload, gitDownloadBody. cbn [gitOptions].
  rewrite Hpipe, Hstart, Hexit.
  destruct (gitExit env "" (cloneArgs (gitOptions g) false source destination))
    as [e|] eqn:Hclone.
  { exists []. cbn [fst snd]. autorewrite with trace. split; [reflexivity|].
    split; [reflexivity|]. eexists. split; [repeat terminal_step | discriminate]. }
  unfold checkoutRef, checkoutTarget, reportHead, getHeadSHA. cbn [gitOptions].
  destruct (nonEmpty (Commit (gitOptions g))) eqn:Hc;
    [|destruct (nonEmpty (Tag (gitOptions g))) eqn:Ht;
      [|destruct (nonEmpty (Branch (gitOptions g))) eqn:Hb;
        [specialize (Hsel eq_refl); discriminate|]]];
    cbn [orb];
    try match goal with
        | |- context [gitExit env destination ["checkout"; "--force"; ?ref]] =>
            destruct (gitExit env destination ["checkout"; "--force"; ref])
        end;
    destruct (gitHead env) as [sha|e']; cbn [fst snd app];
    eexists; autorewrite with trace; cbn [actions List.filter app];
    (split; [reflexivity|]); (split; [reflexivity|]);
    try (eexists; split; [|reflexivity]); repeat terminal_step.
Qed.

Lemma git_download_variants_agree_witness :
  terminal (gitDownloadBody (NewGitDownloader sample2.tagged) "src" "/work/beta"
              (sample.gitOk sample.shaB)) =
    Some (update PhaseComplete sample.shaB).
Proof.
  destruct (git_download_variants_agree (NewGitDownloader sample2.tagged) "src"
              "/work/beta" (sample.gitOk sample.shaB) eq_refl eq_refl eq_refl
              ltac:(discriminate)) as (_ & rest & _ & _ & H).
  exact H.
Defined.

End Agreement.

(* ===================================================================== *)
(** ** The two retry loops of the plain-file transport *)
(* ===================================================================== *)

Module Transfer.
Import types downloader protocol.

Lemma retry_notice_quiet o attempt :
  Forall (fun e => quiet e = true)
    (if (0 <? attempt)%Z
     then [ESend (update PhaseConnecting
                    ("Retrying (" +:+ pretty attempt +:+ "/" +:+
                     pretty (RetryAttempts o) +:+ ")..."));
           ESleep (RetryDelay o)]
     else []).
Proof. destruct (0 <? attempt)%Z; by repeat constructor. Qed.

(** The two loops, entered in the same state, make the same requests and
    sleeps and end the same way. *)
Lemma loops_agree o source destination env fuel :
  ∀ attempt calls lastErr,
    match downloadLoop fuel o source destination env attempt calls lastErr,
          progressLoop fuel o source destination env attempt calls lastErr with
    | Some (tr, r), Some body =>
        actions body = tr ∧
        match r with
        | inl hash => terminal body = Some (update PhaseComplete hash)
        | inr err =>
            ∃ cause,
              err = AfterAttempts (wrap64 (RetryAttempts o + 1)) cause ∧
              terminal body = Some (failure (Wrapf "download failed" cause))
        end
    | None, None => True
    | _, _ => False
    end.
Proof.
  induction fuel as [|fuel IH]; intros attempt calls lastErr; [exact I|].
  cbn [downloadLoop progressLoop].
  destruct (attempt <=? RetryAttempts o)%Z; [|split; [reflexivity | by eexists]].
  pose proof (retry_notice_quiet o attempt) as Hpre.
  pose proof (Stream.downloadFileWithProgress_quiet source destination env calls) as Hq.
  unfold downloadFile. unfold downloadFileWithProgress in *.
  destruct (httpFetch env calls) as [err|total chunks [hash|err]]; cbn [fst snd] in *.
  - specialize (IH (wrap64 (attempt + 1)) (S calls) (Some err)).
    destruct (downloadLoop fuel o source destination env _ _ _) as [[tr r]|],
             (progressLoop fuel o source destination env _ _ _) as [body|];
      try exact IH.
    destruct IH as [Hact Hend]. split.
    + rewrite !Agreement.actions_app, Hact. by destruct (0 <? attempt)%Z.
    + assert (Hterm : ∀ u, terminal body = Some u ->
                terminal ((if (0 <? attempt)%Z
                           then [ESend (update PhaseConnecting
                                          ("Retrying (" +:+ pretty attempt +:+ "/" +:+
                                           pretty (RetryAttempts o) +:+ ")..."));
                                 ESleep (RetryDelay o)]
                           else []) ++ [EHTTPGet source destination] ++ body) = Some u).
      { intros u Hu. apply Agreement.terminal_after; [exact Hpre|].
        apply Agreement.terminal_after; [exact Hq | exact Hu]. }
      destruct r as [hash|e]; [by apply Hterm|].
      destruct Hend as (cause & -> & Hu). exists cause. split; [reflexivity | by apply Hterm].
  - split.
    + rewrite !Agreement.actions_app. cbn [actions List.filter].
      change (List.filter _ (chunkProgress total chunks 0))
        with (actions (chunkProgress total chunks 0)).
      rewrite Agreement.actions_chunkProgress. cbn [List.filter app].
      by destruct (0 <? attempt)%Z.
    + apply Agreement.terminal_after; [exact Hpre|].
      apply Agreement.terminal_after; [exact Hq | reflexivity].
  - specialize (IH (wrap64 (attempt + 1)) (S calls) (Some err)).
    destruct (downloadLoop fuel o source destination env _ _ _) as [[tr r]|],
             (progressLoop fuel o source destination env _ _ _) as [body|];
      try exact IH.
    destruct IH as [Hact Hend]. split.
    + rewrite !Agreement.actions_app, Hact. cbn [actions List.filter].
      change (List.filter _ (chunkProgress total chunks 0))
        with (actions (chunkProgress total chunks 0)).
      rewrite Agreement.actions_chunkProgress. by destruct (0 <? attempt)%Z.
    + assert (Hterm : ∀ u, terminal body = Some u ->
                terminal ((if (0 <? attempt)%Z
                           then [ESend (update PhaseConnecting
                                          ("Retrying (" +:+ pretty attempt +:+ "/" +:+
                                           pretty (RetryAttempts o) +:+ ")..."));
                                 ESleep (RetryDelay o)]
                           else []) ++
                          (EHTTPGet source destination ::
                           ESend (update PhaseFetching "Downloading...") ::
                           chunkProgress total chunks 0) ++ body) = Some u).
      { intros u Hu. apply Agreement.terminal_after; [exact Hpre|].
        apply Agreement.terminal_after; [exact Hq | exact Hu]. }
      destruct r as [hash|e]; [by apply Hterm|].
      destruct Hend as (cause & -> & Hu). exists cause. split; [reflexivity | by apply Hterm].
Qed.

(** X22. [Download] and [DownloadWithProgress] of the plain-file
    transport do the same: both run out of fuel together; otherwise the
    streaming variant creates the same directory, makes the same requests
    and sleeps the same delays as the blocking one, the blocking one
    returns a digest exactly when the stream ends with a [complete]
    update that carries it, and when it returns an error the stream ends
    with a [failed] update: with the same error for the directory, and
    with the same cause under another message after the last attempt. *)
Theorem http_download_variants_agree fuel h source destination env :
  match (httpDownload fuel h source destination env).2,
        httpDownloadBody fuel h source destination env with
  | Some (tr, r), Some body =>
      actions body = tr ∧
      match r with
      | inl hash => terminal body = Some (update PhaseComplete hash)
      | inr err =>
          match httpMkdirErr env with
          | Some _ => terminal body = Some (failure err)
          | None =>
              ∃ cause,
                err = AfterAttempts (wrap64 (RetryAttempts (httpOptions h) + 1)) cause ∧
                terminal body = Some (failure (Wrapf "download failed" cause))
          end
      end
  | None, None => True
  | _, _ => False
  end.
Proof.
  unfold httpDownload, httpDownloadBody. cbn [httpOptions].
  destruct (httpMkdirErr env) as [err|]; cbn [snd]; [by split|].
  pose proof (loops_agree (httpOptions h) source destination env fuel 0 0%nat None) as H.
  destruct (downloadLoop fuel (httpOptions h) source destination env 0 0 None)
    as [[tr r]|],
    (progressLoop fuel (httpOptions h) source destination env 0 0 None) as [body|];
    try exact H.
  destruct H as [Hact Hend]. split.
  - cbn [actions List.filter]. f_equal. exact Hact.
  - destruct r as [hash|e].
    + do 2 (apply Agreement.terminal_cons; [reflexivity|]). exact Hend.
    + destruct Hend as (cause & -> & Hu). exists cause. split; [reflexivity|].
      do 2 (apply Agreement.terminal_cons; [reflexivity|]). exact Hu.
Qed.

(** X23. A negative retry count: [Download] creates the directory, makes
    no request at all and fails with an error that counts
    [RetryAttempts + 1] attempts and wraps no cause; the stream of
    [DownloadWithProgress] ends with a failure that wraps no cause
    either. *)
Theorem negative_retry_count fuel h source destination env :
  RetryAttempts (httpOptions h) < 0 ->
  min_int64 <= RetryAttempts (httpOptions h) ->
  httpMkdirErr env = None ->
  (httpDownload (S fuel) h source destination env).2 =
    Some ([EMkdirParent destination],
          inr (AfterAttempts (RetryAttempts (httpOptions h) + 1) None)) ∧
  httpDownloadBody (S fuel) h source destination env =
    Some [ESend (update PhaseConnecting "Connecting..."); EMkdirParent destination;
          ESend (failure (Wrapf "download failed" None))].
Proof.
  intros Hneg Hmin Hmk. unfold httpDownload, httpDownloadBody.
  rewrite Hmk. cbn [snd httpOptions downloadLoop progressLoop].
  assert (Hle : (0 <=? RetryAttempts (httpOptions h))%Z = false) by (apply Z.leb_gt; lia).
  rewrite Hle, Int64.wrap64_id by (unfold min_int64, max_int64 in *; lia).
  by split.
Qed.

Lemma negative_retry_count_witness :
  (httpDownload 1 (NewHTTPDownloader sample2.noAttempts) "https://example.com/blob.bin"
     "/work/blob" (sample.httpAfter 0)).2 =
    Some ([EMkdirParent "/work/blob"], inr (AfterAttempts 0 None)).
Proof.
  apply (negative_retry_count 0 (NewHTTPDownloader sample2.noAttempts)
           "https://example.com/blob.bin" "/work/blob" (sample.httpAfter 0)).
  - simpl. lia.
  - unfold min_int64. simpl. lia.
  - reflexivity.
Defined.

(** X24. With [RetryAttempts] at the largest 64-bit integer and a server
    that refuses every request, [Download] never returns: the loop
    counter wraps around before the loop test can fail, so no amount of
    fuel is enough. *)
Theorem retry_forever fuel h source destination env :
  RetryAttempts (httpOptions h) = max_int64 ->
  (∀ k, ∃ e, attemptResult env k = inr e) ->
  httpMkdirErr env = None ->
  (httpDownload fuel h source destination env).2 = None.
Proof.
  intros Hmax Hfail Hmk. unfold httpDownload. rewrite Hmk. cbn [snd httpOptions].
  rewrite (Retry.downloadLoop_unbounded _ _ _ _ fuel Hmax Hfail); [reflexivity|].
  unfold min_int64, max_int64. lia.
Qed.

Lemma retry_forever_witness :
  (httpDownload 25 (NewHTTPDownloader sample2.unbounded) "https://example.com/blob.bin"
     "/work/blob" sample.httpDown).2 = None.
Proof.
  apply (retry_forever 25 (NewHTTPDownloader sample2.unbounded)
           "https://example.com/blob.bin" "/work/blob" sample.httpDown).
  - reflexivity.
  - intros k. eexists. reflexivity.
  - reflexivity.
Defined.

(** X27. A downloader remembers the source of its last [Download]:
    [Update] on a downloader that has downloaded from a non-empty source
    is a [Download] from that source, whereas on a downloader that has
    not downloaded it fails without any effect. *)
Theorem http_update_after_download fuel h source destination env destination' env' :
  source ≠ "" ->
  let h' := (httpDownload fuel h source destination env).1 in
  httpSource h' = source ∧ httpOptions h' = httpOptions h ∧
  httpUpdate fuel h' destination' env' = httpDownload fuel h source destination' env' ∧
  httpUpdate fuel (NewHTTPDownloader (httpOptions h)) destination' env' =
    (NewHTTPDownloader (httpOptions h), Some ([], inr (Errorf "source URL not set"))).
Proof.
  intros Hsrc. unfold httpUpdate.
  assert (Hh : (httpDownload fuel h source destination env).1 =
               {| httpOptions := httpOptions h; httpSource := source |}).
  { unfold httpDownload. by destruct (httpMkdirErr env). }
  rewrite Hh. cbn [httpSource httpOptions NewHTTPDownloader String.eqb].
  destruct (String.eqb_spec source "") as [->|_]; [done|].
  repeat split.
Qed.

Lemma http_update_after_download_witness :
  httpUpdate 10
    (httpDownload 10 (NewHTTPDownloader sample.opts) "https://example.com/blob.bin"
       "/work/blob" (sample.httpAfter 0)).1
    "/work/blob" (sample.httpAfter 1) =
  httpDownload 10 (NewHTTPDownloader sample.opts) "https://example.com/blob.bin"
    "/work/blob" (sample.httpAfter 1).
Proof.
  destruct (http_update_after_download 10 (NewHTTPDownloader sample.opts)
              "https://example.com/blob.bin" "/work/blob" (sample.httpAfter 0)
              "/work/blob" (sample.httpAfter 1) ltac:(discriminate)) as (_ & _ & H & _).
  exact H.
Defined.

End Transfer.

(* ===================================================================== *)
(** ** The split function of the progress scanner *)
(* ===================================================================== *)

Module Scanner.
Import detect.

Lemma append_nil_l (s : string) : "" +:+ s = s.
Proof. reflexivity. Qed.

Lemma append_nil_r (s : string) : s +:+ "" = s.
Proof.
  induction s as [|c s IH]; [reflexivity|].
  change (String c (s +:+ "") = String c s). by rewrite IH.
Qed.

Lemma append_snoc (s t : string) c : (s +:+ String c "") +:+ t = s +:+ String c t.
Proof.
  induction s as [|d s IH]; [reflexivity|].
  change (String d ((s +:+ String c "") +:+ t) = String d (s +:+ String c t)).
  by rewrite IH.
Qed.

Lemma substring_0_0 (s : string) : String.substring 0 0 s = "".
Proof. by destruct s. Qed.

Lemma indexLineEnd_Some data :
  ∀ i, indexLineEnd data = Some i ->
       (i < String.length data)%nat ∧
       String.length (String.substring 0 i data) = i ∧
       indexLineEnd (String.substring 0 i data) = None ∧
       ∃ c, String.get i data = Some c ∧ isLineEnd c = true.
Proof.
  induction data as [|c rest IH]; intros i; simpl; [discriminate|].
  destruct (isLineEnd c) eqn:Hc.
  - intros [= <-]. repeat split; [lia|]. by exists c.
  - destruct (indexLineEnd rest) as [j|]; [|discriminate]. intros [= <-].
    destruct (IH j eq_refl) as (Hlt & Hlen & Hnone & Hget). simpl.
    rewrite Hc, Hnone, Hlen. repeat split; [lia | exact Hget].
Qed.

Lemma length_dropBytes n :
  ∀ data, String.length (dropBytes n data) = (String.length data - n)%nat.
Proof.
  induction n as [|n IH]; intros data; simpl; [lia|].
  destruct data as [|c rest]; simpl; [reflexivity | apply IH].
Qed.

Lemma dropBytes_all data : dropBytes (String.length data) data = "".
Proof. induction data as [|c rest IH]; simpl; [reflexivity | exact IH]. Qed.

(** X25. The contract of [scanGitProgress].  It never advances past the
    data.  A token it returns is a prefix of the data that holds no
    carriage return and no line feed, and comes with an advance of at
    least one byte: up to and over the line end that follows the token,
    or, at the end of the input only, over all the data when it holds no
    line end.  It returns no token, and does not advance, exactly when
    the data is empty at the end of the input, or has no line end before
    the end of the input. *)
Theorem scan_contract data atEOF :
  let '(advance, token) := scanGitProgress data atEOF in
  (advance ≤ String.length data)%nat ∧
  match token with
  | Some t =>
      (0 < advance)%nat ∧
      t = String.substring 0 (String.length t) data ∧
      indexLineEnd t = None ∧
      ((advance = S (String.length t) ∧
        ∃ c, String.get (String.length t) data = Some c ∧ isLineEnd c = true) ∨
       (advance = String.length data ∧ t = data ∧ atEOF = true))
  | None =>
      advance = 0%nat ∧ indexLineEnd data = None ∧ (atEOF = false ∨ data = "")
  end.
Proof.
  unfold scanGitProgress.
  destruct (atEOF && bool_decide (String.length data = 0%nat)) eqn:Hempty.
  { apply andb_true_iff in Hempty as [-> Hlen]. apply bool_decide_eq_true in Hlen.
    destruct data; [|discriminate]. repeat split; [reflexivity | by right]. }
  destruct (indexLineEnd data) as [i|] eqn:Hi.
  - destruct (indexLineEnd_Some data i Hi) as (Hlt & Hlen & Hnone & Hget).
    rewrite Hlen. split; [lia|]. split; [lia|]. split; [reflexivity|].
    split; [exact Hnone|]. left. by split.
  - destruct atEOF.
    + destruct data as [|c rest]; [discriminate Hempty|].
      split; [reflexivity|]. split; [simpl; lia|]. split.
      * clear. generalize (String c rest). intros s.
        induction s as [|d s IH]; simpl; [reflexivity | by rewrite <- IH].
      * split; [exact Hi|]. by right.
    + split; [lia|]. split; [reflexivity|]. split; [reflexivity | by left].
Qed.

Lemma linesOf_spec data :
  ∀ current,
    linesOf current data =
      match indexLineEnd data with
      | Some i =>
          (current +:+ String.substring 0 i data) :: linesOf "" (dropBytes (S i) data)
      | None => if String.eqb (current +:+ data) "" then [] else [current +:+ data]
      end.
Proof.
  induction data as [|c rest IH]; intros current; simpl.
  - by rewrite append_nil_r.
  - destruct (isLineEnd c).
    + by rewrite append_nil_r.
    + rewrite IH. destruct (indexLineEnd rest) as [i|]; by rewrite append_snoc.
Qed.

(** X26. A scanner that splits with [scanGitProgress] yields the lines of
    its input: the pieces between the carriage returns and line feeds, in
    order, empty pieces included, and a last piece without line end when
    it is not empty.  The fuel of the model suffices as soon as it
    exceeds the length of the input. *)
Theorem scanner_yields_lines fuel :
  ∀ data, (String.length data < fuel)%nat -> scanAll fuel data = linesOf "" data.
Proof.
  induction fuel as [|fuel IH]; intros data Hfuel; [lia|].
  cbn [scanAll]. unfold scanGitProgress. rewrite linesOf_spec.
  destruct data as [|c rest]; [reflexivity|].
  cbn [andb bool_decide String.length].
  rewrite bool_decide_eq_false_2 by discriminate.
  destruct (indexLineEnd (String c rest)) as [i|] eqn:Hi.
  - destruct (indexLineEnd_Some _ i Hi) as (Hlt & _).
    rewrite IH; [reflexivity|].
    rewrite length_dropBytes. simpl in *. lia.
  - change (S (String.length rest)) with (String.length (String c rest)).
    rewrite dropBytes_all, append_nil_l. cbn [String.eqb].
    f_equal. by destruct fuel.
Qed.

Lemma scanner_yields_lines_witness :
  scanAll 50 ("Counting objects: 1" +:+ String CR "Counting objects: 2" +:+ String LF "") =
    ["Counting objects: 1"; "Counting objects: 2"].
Proof.
  rewrite (scanner_yields_lines 50) by (vm_compute; lia). reflexivity.
Defined.

End Scanner.

(* ===================================================================== *)
(** ** What a selection selects *)
(* ===================================================================== *)

Module Selected.
Import types manager.
#[local] Set Warnings "-clear-no-such-hyp".

Section Catalog.
Variable cfg : config.Config.

Lemma addNames_dom names :
  ∀ s s', addNames cfg names s = inl s' ->
    ∀ k, is_Some (s' !! k) ↔ is_Some (s !! k) ∨ k ∈ names.
Proof.
  induction names as [|n rest IH]; intros s s'; simpl.
  - intros [= <-] k. split; [by left | intros [H|H]; [done | inversion H]].
  - destruct (config.GetRepository cfg n); [|discriminate].
    intros H k. rewrite (IH _ _ H k), lookup_insert_is_Some, elem_of_cons.
    destruct (decide (n = k)); naive_solver.
Qed.

Lemma addAll_dom repos :
  ∀ s k, is_Some (addAll repos s !! k) ↔ is_Some (s !! k) ∨ k ∈ config.Name <$> repos.
Proof.
  unfold addAll. induction repos as [|h rest IH]; intros s k; cbn [fold_left].
  - split; [by left | intros [H|H]; [done | inversion H]].
  - rewrite IH, lookup_insert_is_Some, fmap_cons, elem_of_cons.
    destruct (decide (config.Name h = k)); naive_solver.
Qed.

Lemma collectProjectRepos_names p names :
  ∀ acc repos,
    config.collectProjectRepos cfg p names acc = inl repos ->
    config.Name <$> repos = (config.Name <$> acc) ++ names.
Proof.
  induction names as [|n rest IH]; intros acc repos; simpl.
  - intros [= <-]. by rewrite app_nil_r.
  - destruct (config.GetRepository cfg n) as [repo|] eqn:Hn; [|discriminate].
    intros H. rewrite (IH _ _ H), fmap_app, <- app_assoc.
    destruct (Recording.findRepository_Some _ _ _ Hn) as [<- _]. reflexivity.
Qed.

Lemma addProjects_dom projects :
  ∀ s s', addProjects cfg projects s = inl s' ->
    ∀ k, is_Some (s' !! k) ↔
         is_Some (s !! k) ∨
         ∃ p proj, p ∈ projects ∧ config.GetProject cfg p = Some proj ∧
                   k ∈ config.projRepositories proj.
Proof.
  induction projects as [|p rest IH]; intros s s'; simpl.
  - intros [= <-] k. split; [by left|].
    intros [H|(p & proj & Hp & _)]; [done | inversion Hp].
  - destruct (config.GetRepositoriesForProject cfg p) as [repos|e] eqn:Hp; [|discriminate].
    intros H k. rewrite (IH _ _ H k), addAll_dom.
    unfold config.GetRepositoriesForProject in Hp.
    destruct (config.GetProject cfg p) as [proj|] eqn:Hproj; [|discriminate].
    apply collectProjectRepos_names in Hp. rewrite Hp. cbn [fmap list_fmap app]. split.
    + intros [[H1|H1]|(q & proj' & Hq & Hproj' & Hk)].
      * by left.
      * right. exists p, proj. split; [apply elem_of_cons; by left | by split].
      * right. exists q, proj'. split; [apply elem_of_cons; by right | by split].
    + intros [H1|(q & proj' & Hq & Hproj' & Hk)]; [by left; left|].
      apply elem_of_cons in Hq as [->|Hq].
      * left. right. rewrite Hproj in Hproj'. by injection Hproj' as <-.
      * right. by exists q, proj'.
Qed.

Lemma addTags_dom tags :
  ∀ s k, is_Some (addTags cfg tags s !! k) ↔
         is_Some (s !! k) ∨
         ∃ t r, t ∈ tags ∧ r ∈ config.Repositories cfg ∧ config.hasTag r t = true ∧
                config.Name r = k.
Proof.
  unfold addTags. induction tags as [|t rest IH]; intros s k; cbn [fold_left].
  - split; [by left|]. intros [H|(t & r & Ht & _)]; [done | inversion Ht].
  - rewrite IH, addAll_dom. unfold config.GetRepositoriesByTag.
    rewrite list_elem_of_fmap. split.
    + intros [[H|(r & Hk & Hr)]|(t' & r & Ht & Hr)].
      * by left.
      * apply list_elem_of_filter in Hr as [Htag Hr]. right. exists t, r.
        split; [apply elem_of_cons; by left | by repeat split].
      * right. exists t', r. split; [apply elem_of_cons; by right | exact Hr].
    + intros [H|(t' & r & Ht & Hr & Htag & Hk)]; [by left; left|].
      apply elem_of_cons in Ht as [->|Ht].
      * left. right. exists r. split; [done|]. apply list_elem_of_filter. by split.
      * right. by exists t', r.
Qed.

End Catalog.

(** X28. What [getRepositories] selects when the selection names
    something and is not [All], on a catalog of distinct names: each
    selected repository once, and exactly the repositories of the catalog
    that a given name names, that a given project lists, or that carry a
    given tag; a repository selected in several ways is selected once. *)
Theorem selection_is_union order m filter repos :
  NoDup (config.Name <$> config.Repositories (config m)) ->
  (∀ l, order l ≡ₚ l) ->
  All filter = false ->
  Names filter ≠ [] ∨ manager.Projects filter ≠ [] ∨ manager.Tags filter ≠ [] ->
  getRepositories order m filter = inl repos ->
  NoDup repos ∧
  ∀ r, r ∈ repos ↔
       r ∈ config.Repositories (config m) ∧
       (config.Name r ∈ Names filter ∨
        (∃ p proj, p ∈ manager.Projects filter ∧
                   config.GetProject (config m) p = Some proj ∧
                   config.Name r ∈ config.projRepositories proj) ∨
        (∃ t, t ∈ manager.Tags filter ∧ config.hasTag r t = true)).
Proof.
  intros Hunique Horder Hall Hsome Hsel.
  destruct (Recording.getRepositories_sound (config m) Hunique order m filter repos
              eq_refl Horder Hsel) as [Hnd Hlisted].
  split; [by apply (NoDup_fmap_1 config.Name)|].
  unfold getRepositories in Hsel. rewrite Hall in Hsel.
  assert (Hcond : bool_decide (length (Names filter) = 0%nat) &&
                  bool_decide (length (manager.Projects filter) = 0%nat) &&
                  bool_decide (length (manager.Tags filter) = 0%nat) = false).
  { destruct (Names filter), (manager.Projects filter), (manager.Tags filter);
      try reflexivity. by destruct Hsome as [H|[H|H]]. }
  rewrite Hcond in Hsel. cbn [orb] in Hsel.
  destruct (addNames (config m) (Names filter) ∅) as [s1|e] eqn:H1; [|discriminate].
  destruct (addProjects (config m) (manager.Projects filter) s1) as [s2|e] eqn:H2;
    [|discriminate].
  injection Hsel as <-.
  assert (Hkeyed : keyed (config m) (addTags (config m) (manager.Tags filter) s2)).
  { apply Recording.addTags_keyed; [exact Hunique|].
    eapply Recording.addProjects_keyed; [|exact H2].
    eapply Recording.addNames_keyed; [|exact H1].
    intros k v Hkv. by rewrite lookup_empty in Hkv. }
  assert (Hdom : ∀ k, is_Some (addTags (config m) (manager.Tags filter) s2 !! k) ↔
            k ∈ Names filter ∨
            (∃ p proj, p ∈ manager.Projects filter ∧
                       config.GetProject (config m) p = Some proj ∧
                       k ∈ config.projRepositories proj) ∨
            (∃ t r, t ∈ manager.Tags filter ∧ r ∈ config.Repositories (config m) ∧
                    config.hasTag r t = true ∧ config.Name r = k)).
  { intros k. rewrite addTags_dom, (addProjects_dom _ _ _ _ H2), (addNames_dom _ _ _ _ H1).
    rewrite lookup_empty. split.
    - intros [[[[? H]|H]|H]|H]; [discriminate | by left | by right; left | by right; right].
    - intros [H|[H|H]]; [by left; left; right | by left; right | by right]. }
  set (s := addTags (config m) (manager.Tags filter) s2) in *.
  intros r. split.
  - intros Hr. apply list_elem_of_fmap in Hr as ([k v] & -> & Hkv).
    rewrite Horder in Hkv. apply elem_of_map_to_list in Hkv. cbn [snd].
    destruct (Hkeyed k v Hkv) as [Hname Hl].
    destruct (Recording.findRepository_Some _ _ _ Hl) as [_ Hin].
    split; [exact Hin|].
    destruct (proj1 (Hdom k) ltac:(by eexists)) as [H|[H|(t & r' & Ht & Hr' & Htag & Hk)]].
    + left. by rewrite Hname.
    + right. left. by rewrite Hname.
    + right. right. exists t. split; [exact Ht|].
      pose proof (Recording.findRepository_self _ _ Hunique Hr') as Hself.
      rewrite Hk, <- Hname in Hself. unfold listed, config.GetRepository in Hl.
      rewrite Hl in Hself. by injection Hself as ->.
  - intros [Hin Hways].
    assert (Hsome' : is_Some (s !! config.Name r)).
    { apply Hdom. destruct Hways as [H|[H|(t & Ht & Htag)]];
        [by left | by right; left |]. right. right. by exists t, r. }
    destruct Hsome' as [v Hv]. destruct (Hkeyed _ _ Hv) as [Hname Hl].
    pose proof (Recording.findRepository_self _ _ Hunique Hin) as Hself.
    unfold listed, config.GetRepository in Hl. rewrite Hname, Hself in Hl.
    injection Hl as ->.
    apply list_elem_of_fmap. exists (config.Name v, v). split; [reflexivity|].
    rewrite Horder. by apply elem_of_map_to_list.
Qed.

Lemma selection_is_union_witness :
  ∃ repos,
    getRepositories (fun l => l) (NewRepositoryManager sample.cfg [])
      {| Names := ["blob"; "alpha"]; manager.Projects := []; manager.Tags := ["backend"];
         All := false |} = inl repos ∧
    NoDup repos ∧ sample.alpha ∈ repos ∧ sample.beta ∉ repos.
Proof.
  eexists. split; [vm_compute; reflexivity|].
  destruct (selection_is_union (fun l => l) (NewRepositoryManager sample.cfg [])
              {| Names := ["blob"; "alpha"]; manager.Projects := [];
                 manager.Tags := ["backend"]; All := false |} _
              ltac:(apply (bool_decide_unpack _); vm_compute; exact I)
              ltac:(intros l; reflexivity) eq_refl ltac:(by left) eq_refl) as [Hnd Hin].
  split; [exact Hnd|]. split.
  - apply Hin. split; [apply elem_of_cons; by left|]. left.
    apply elem_of_cons. right. apply elem_of_cons. by left.
  - intros Hbeta. apply Hin in Hbeta as [_ [H|[(p & proj & Hp & _)|(t & Ht & Htag)]]].
    + apply elem_of_cons in H as [H|H]; [discriminate|].
      apply elem_of_cons in H as [H|H]; [discriminate | inversion H].
    + inversion Hp.
    + apply list_elem_of_singleton in Ht. subst t. discriminate.
Defined.

End Selected.

(* ===================================================================== *)
(** ** The downloader of a repository *)
(* ===================================================================== *)

Module Factory.
Import downloader protocol.

(** X29. [NewFromRepository] fails exactly for a type other than [git]
    and [http], so never for a repository that [validateRepository]
    accepts.  The downloader it makes is of the repository's type, has
    no source yet, and carries the repository's selectors: its effective
    reference is the repository's effective reference without default;
    when [checkoutRef] has a target, it is that reference, or the
    remote-tracking branch of it when only a branch is set, and the
    reference recorded for the repository is the same whatever the
    default branch; when it has none, no selector is set and the
    reference recorded is the default branch, which is never passed to
    [git]. *)
Theorem factory_options repo cfg :
  (∀ urlParse, catalog.wellFormed urlParse repo ->
               ∃ dl, NewFromRepository repo cfg = inl dl) ∧
  match NewFromRepository repo cfg with
  | inl dl =>
      Type_ dl = config.Type_ repo ∧ sourceOf dl = "" ∧
      detect.GetEffectiveRef (optionsOf dl) = config.GetEffectiveRef repo "" ∧
      ∀ defaultBranch,
        match checkoutTarget (optionsOf dl) with
        | Some ref =>
            config.GetEffectiveRef repo defaultBranch =
              detect.GetEffectiveRef (optionsOf dl) ∧
            (ref = detect.GetEffectiveRef (optionsOf dl) ∨
             ref = "origin/" +:+ config.Branch repo ∧
             detect.GetEffectiveRef (optionsOf dl) = config.Branch repo)
        | None =>
            config.GetEffectiveRef repo defaultBranch = defaultBranch ∧
            config.Branch repo = "" ∧ config.Tag repo = "" ∧ config.Commit repo = ""
        end
  | inr _ =>
      config.Type_ repo ≠ config.RepoTypeGit ∧ config.Type_ repo ≠ config.RepoTypeHTTP
  end.
Proof.
  unfold NewFromRepository, New. split.
  { intros urlParse (_ & _ & _ & [-> | ->] & _); by eexists. }
  assert (Hrefs : ∀ o, Commit o = config.Commit repo -> Tag o = config.Tag repo ->
            Branch o = config.Branch repo ->
            detect.GetEffectiveRef o = config.GetEffectiveRef repo "" ∧
            ∀ defaultBranch,
              match checkoutTarget o with
              | Some ref =>
                  config.GetEffectiveRef repo defaultBranch = detect.GetEffectiveRef o ∧
                  (ref = detect.GetEffectiveRef o ∨
                   ref = "origin/" +:+ config.Branch repo ∧
                   detect.GetEffectiveRef o = config.Branch repo)
              | None =>
                  config.GetEffectiveRef repo defaultBranch = defaultBranch ∧
                  config.Branch repo = "" ∧ config.Tag repo = "" ∧ config.Commit repo = ""
              end).
  { intros o Hc Ht Hb.
    unfold detect.GetEffectiveRef, config.GetEffectiveRef, checkoutTarget, nonEmpty.
    rewrite Hc, Ht, Hb.
    destruct (String.eqb_spec (config.Commit repo) "") as [Hce|Hce]; cbn [negb];
      [|split; [reflexivity|]; intros d; split; [reflexivity | by left]].
    destruct (String.eqb_spec (config.Tag repo) "") as [Hte|Hte]; cbn [negb];
      [|split; [reflexivity|]; intros d; split; [reflexivity | by left]].
    destruct (String.eqb_spec (config.Branch repo) "") as [Hbe|Hbe]; cbn [negb].
    - split; [exact Hbe|]. intros d. by repeat split.
    - split; [reflexivity|]. intros d. split; [reflexivity|]. right. by split. }
  destruct (String.eqb_spec (config.Type_ repo) config.RepoTypeGit) as [Hg|Hg].
  { split; [by rewrite Hg|]. split; [reflexivity|]. by apply Hrefs. }
  destruct (String.eqb_spec (config.Type_ repo) config.RepoTypeHTTP) as [Hh|Hh].
  { split; [by rewrite Hh|]. split; [reflexivity|]. by apply Hrefs. }
  by split.
Qed.

End Factory.

(* ===================================================================== *)
(** ** The status of a selection *)
(* ===================================================================== *)

Module Listing.
Import types manager.

Lemma statuses_lookup m env repos :
  ∀ idx i repo,
    repos !! i = Some repo ->
    orchestrator.statuses m repos idx env !! i =
      Some (orchestrator.getRepoStatus m repo (env (idx + i)%nat)).
Proof.
  induction repos as [|h rest IH]; intros idx i repo; [by rewrite lookup_nil|].
  destruct i as [|i]; simpl.
  - intros [= ->]. by rewrite Nat.add_0_r.
  - intros H. rewrite (IH (S idx) i repo H). do 3 f_equal. lia.
Qed.

Lemma statuses_length m env repos :
  ∀ idx, length (orchestrator.statuses m repos idx env) = length repos.
Proof. induction repos as [|h rest IH]; intros idx; simpl; [reflexivity | by rewrite IH]. Qed.

Lemma getRepoStatus_header m repo senv :
  orchestrator.stName (orchestrator.getRepoStatus m repo senv) = config.Name repo ∧
  orchestrator.stPath (orchestrator.getRepoStatus m repo senv) =
    filepath_Join (workDir m)
      (if String.eqb (config.Path repo) "" then config.Name repo else config.Path repo) ∧
  orchestrator.stRequestedRef (orchestrator.getRepoStatus m repo senv) =
    config.GetEffectiveRef repo (config.DefaultBranch (config.General (config m))).
Proof.
  assert (Hpath : getRepoPath m repo =
                  filepath_Join (workDir m)
                    (if String.eqb (config.Path repo) "" then config.Name repo
                     else config.Path repo)).
  { unfold getRepoPath, config.GetEffectivePath.
    by destruct (String.eqb (config.Path repo) ""). }
  unfold orchestrator.getRepoStatus.
  destruct (negb _); [by rewrite Hpath|].
  destruct (orchestrator.inspect _ _ _) as [[[sha err] branch] dirty].
  destruct (lockFile m) as [lf|]; [destruct (lockfile.Get lf _)|]; by rewrite Hpath.
Qed.

(** X30. [Status] fails exactly when the selection fails, with the same
    error.  Otherwise it returns one status per selected repository, in
    the order of the selection; the status in slot [i] is the one of
    repository [i], carries its name, the path that [filepath.Join]
    makes of the working directory and the repository's configured path,
    or else its name, and the reference the configuration asks for, the
    default branch when the repository sets none. *)
Theorem status_lists_selection order m filter env :
  match orchestrator.Status order m filter env, getRepositories order m filter with
  | inl sts, inl repos =>
      length sts = length repos ∧
      ∀ i repo, repos !! i = Some repo ->
        ∃ st, sts !! i = Some st ∧
              st = orchestrator.getRepoStatus m repo (env i) ∧
              orchestrator.stName st = config.Name repo ∧
              orchestrator.stPath st =
                filepath_Join (workDir m)
                  (if String.eqb (config.Path repo) "" then config.Name repo
                   else config.Path repo) ∧
              orchestrator.stRequestedRef st =
                config.GetEffectiveRef repo
                  (config.DefaultBranch (config.General (config m)))
  | inr e, inr e' => e = e'
  | _, _ => False
  end.
Proof.
  unfold orchestrator.Status.
  destruct (getRepositories order m filter) as [repos|e]; [|reflexivity].
  split; [apply statuses_length|].
  intros i repo Hi. eexists. split; [by apply statuses_lookup|].
  split; [reflexivity|]. apply getRepoStatus_header.
Qed.

(** The paths of the sample catalog, and paths that [filepath.Join]
    cleans. *)
Example status_paths :
  filepath_Join "/work" "alpha" = "/work/alpha" ∧
  filepath_Join "/work" "./vendor/lib" = "/work/vendor/lib" ∧
  filepath_Join "/work/" "x/" = "/work/x" ∧
  filepath_Join "/work" "a//b" = "/work/a/b" ∧
  filepath_Join "/work" "../x" = "/x" ∧
  filepath_Join "" "x" = "x" ∧
  filepath_Join "" "" = "".
Proof. repeat split. Qed.

End Listing.
